(** * imagepull: species-image downloaders

    A shallow embedding of the two scripts of the repository,
    [download_gbif_mushroom_images.py] (module [Gbif]) and
    [download_species_images.py] (module [Checklist]), and the
    properties of their name-candidate expander, slug function, media
    lister, downloader and driver.

    Strings are Rocq [string]s: sequences of the 256 code points
    U+0000..U+00FF.  On those, Python's [str.lower], [str.strip] and
    the [re] patterns of the scripts are the functions written out in
    [PyStr] below.

    A run has an environment, which it reads, and a state, which it
    changes.  The environment is the network, the operating system,
    which may refuse a call on the file system, and the library's
    verdict on a bracketed host in a URL.  The state is the tree of
    directories and files below the working directory and the
    console.  The answers of the network are JSON objects with
    fields of the types the scripts expect, and the console takes
    every line: [print] does not raise. *)

From stdpp Require Import gmap strings list pretty.
From Stdlib Require Import ZArith NArith Ascii String Lia.

Open Scope string_scope.
Open Scope list_scope.

(** ** Python string operations used by the scripts *)

Module PyStr.

Definition code (c : ascii) : N := N_of_ascii c.

Definition in_range (lo hi : N) (c : ascii) : bool :=
  ((lo <=? code c) && (code c <=? hi))%N.

(** [str.isspace] on one code point below U+0100: TAB..CR, FS..US,
    SPACE, NEL and NBSP.  [str.strip()] removes exactly these. *)
Definition isspace (c : ascii) : bool :=
  in_range 9 13 c || in_range 28 32 c
  || (code c =? 133)%N || (code c =? 160)%N.

(** [str.lower] on one code point below U+0100: A-Z and the Latin-1
    capitals U+00C0..U+00DE, the multiplication sign U+00D7 apart.
    Each of these code points has a lower case of one code point in
    the same range.  (Above the range that fails: U+0130 lower-cases
    to [i] followed by U+0307.) *)
Definition lower_char (c : ascii) : ascii :=
  if in_range 65 90 c || in_range 192 214 c || in_range 216 222 c
  then ascii_of_N (code c + 32)
  else c.

Fixpoint lower (s : string) : string :=
  match s with
  | "" => ""
  | String c s' => String (lower_char c) (lower s')
  end.

(** [str.upper], as far as the scripts need it: a comparison of the
    result with an ASCII literal.  The three code points whose upper
    case leaves the range (U+00B5, U+00DF, U+00FF) are kept; none of
    them upper-cases to an ASCII letter. *)
Definition upper_char (c : ascii) : ascii :=
  if in_range 97 122 c || in_range 224 246 c || in_range 248 254 c
  then ascii_of_N (code c - 32)
  else c.

Fixpoint upper (s : string) : string :=
  match s with
  | "" => ""
  | String c s' => String (upper_char c) (upper s')
  end.

(** [c in s] for a one-character needle. *)
Fixpoint char_in (c : ascii) (s : string) : bool :=
  match s with
  | "" => false
  | String d s' => Ascii.eqb c d || char_in c s'
  end.

(** Truth value of a string: empty is false. *)
Definition truthy (s : string) : bool :=
  match s with "" => false | _ => true end.

Fixpoint lstrip_by (p : ascii -> bool) (s : string) : string :=
  match s with
  | "" => ""
  | String c s' => if p c then lstrip_by p s' else s
  end.

Fixpoint rstrip_by (p : ascii -> bool) (s : string) : string :=
  match s with
  | "" => ""
  | String c s' =>
      let r := rstrip_by p s' in
      if p c && negb (truthy r) then "" else String c r
  end.

Definition strip_by (p : ascii -> bool) (s : string) : string :=
  rstrip_by p (lstrip_by p s).

(** [s.strip()] *)
Definition strip (s : string) : string := strip_by isspace s.

(** [s.strip(c)] for a one-character argument. *)
Definition strip_char (c : ascii) (s : string) : string :=
  strip_by (Ascii.eqb c) s.

(** [s.split(sep, 1)] for a one-character separator: one piece when
    the separator is absent, two otherwise. *)
Fixpoint split1 (sep : ascii) (s : string) : list string :=
  match s with
  | "" => [""]
  | String c s' =>
      if Ascii.eqb sep c then [""; s']
      else match split1 sep s' with
           | piece :: rest => String c piece :: rest
           | [] => [String c ""]
           end
  end.

(** List indexing [l[i]]; the scripts index only where the piece
    exists, see [split1_length] below. *)
Definition item (l : list string) (i : nat) : string := nth i l "".

(** [s.startswith(p)] *)
Fixpoint startswith (p s : string) : bool :=
  match p, s with
  | "", _ => true
  | String a p', String b s' => Ascii.eqb a b && startswith p' s'
  | _, "" => false
  end.

(** [s.replace(old, new)] for a non-empty [old]: occurrences are
    taken left to right and do not overlap.  [skip] counts the
    characters of the current occurrence still to be dropped. *)
Fixpoint replace_from (old new : string) (skip : nat) (s : string) : string :=
  match s with
  | "" => ""
  | String c s' =>
      match skip with
      | S k => replace_from old new k s'
      | O =>
          if startswith old s
          then new +:+ replace_from old new (String.length old - 1) s'
          else String c (replace_from old new 0 s')
      end
  end.

Definition replace (old new s : string) : string :=
  replace_from old new 0 s.

(** [re.split] with a pattern that is an alternation of single
    characters, given as the predicate [sep]: every separator
    character ends a piece, empty pieces included. *)
Fixpoint re_split (sep : ascii -> bool) (s : string) : list string :=
  match s with
  | "" => [""]
  | String c s' =>
      if sep c then "" :: re_split sep s'
      else match re_split sep s' with
           | piece :: rest => String c piece :: rest
           | [] => [String c ""]
           end
  end.

(** [re.sub(r"[^…]+", rep, s)] for a negated character class whose
    members are given by [keep], and a one-character replacement:
    every maximal run of characters outside the class becomes one
    [rep].  [in_run] tells that the previous character was part of
    the run being replaced. *)
Fixpoint re_sub_runs (keep : ascii -> bool) (rep : ascii)
         (in_run : bool) (s : string) : string :=
  match s with
  | "" => ""
  | String c s' =>
      if keep c then String c (re_sub_runs keep rep false s')
      else if in_run then re_sub_runs keep rep true s'
      else String rep (re_sub_runs keep rep true s')
  end.


(** [all(p(c) for c in s)] *)
Fixpoint all_chars (p : ascii -> bool) (s : string) : bool :=
  match s with
  | "" => true
  | String c s' => p c && all_chars p s'
  end.

(** The text from the first character satisfying [p] on: [s[i:]]
    for the least such index [i], and the empty string without one. *)
Fixpoint from_first (p : ascii -> bool) (s : string) : string :=
  match s with
  | "" => ""
  | String c s' => if p c then s else from_first p s'
  end.

(** The text before the first character satisfying [p]: [s[:i]] for
    the least such index [i], and all of [s] without one. *)
Fixpoint before_first (p : ascii -> bool) (s : string) : string :=
  match s with
  | "" => ""
  | String c s' => if p c then "" else String c (before_first p s')
  end.

(** [s.rpartition(sep)] when the one-character separator occurs:
    the text before its last occurrence and the text after it. *)
Fixpoint rsplit1 (sep : ascii) (s : string) : option (string * string) :=
  match s with
  | "" => None
  | String c s' =>
      match rsplit1 sep s' with
      | Some (before, after) => Some (String c before, after)
      | None => if Ascii.eqb sep c then Some ("", s') else None
      end
  end.

(** [[c for c in s if not p(c)]] joined. *)
Fixpoint remove_chars (p : ascii -> bool) (s : string) : string :=
  match s with
  | "" => ""
  | String c s' =>
      if p c then remove_chars p s' else String c (remove_chars p s')
  end.

End PyStr.

Import PyStr.

(** ** [urllib.parse.urlparse] and [pathlib.Path], as the scripts use them *)

Module PyLib.

Definition ascii_alpha (c : ascii) : bool :=
  in_range 65 90 c || in_range 97 122 c.

(** [scheme_chars]: letters, digits, [+], [-] and [.]. *)
Definition scheme_char (c : ascii) : bool :=
  ascii_alpha c || in_range 48 57 c
  || Ascii.eqb c "+" || Ascii.eqb c "-" || Ascii.eqb c ".".

(** [uses_params] *)
Definition uses_params : list string :=
  [""; "ftp"; "hdl"; "prospero"; "http"; "imap"; "https"; "shttp";
   "rtsp"; "rtspu"; "sip"; "sips"; "mms"; "sftp"; "tel"].

(** The scheme of a URL and the text after its colon, when the text
    before the first colon is a scheme name. *)
Definition split_scheme (url : string) : string * string :=
  match split1 ":" url with
  | [before; after] =>
      match before with
      | String c _ =>
          if ascii_alpha c && all_chars scheme_char before
          then (lower before, after)
          else ("", url)
      | "" => ("", url)
      end
  | _ => ("", url)
  end.

(** [_splitparams(url)[0]]: the path up to the first [;] of its last
    segment. *)
Definition drop_params (url : string) : string :=
  match rsplit1 "/" url with
  | Some (before, segment) =>
      before +:+ "/" +:+ item (split1 ";" segment) 0
  | None => item (split1 ";" url) 0
  end.

(** The characters that end the network location of a URL. *)
Definition delimiter (c : ascii) : bool :=
  Ascii.eqb c "/" || Ascii.eqb c "?" || Ascii.eqb c "#".

(** [urlparse(url).path]: leading control characters and spaces are
    stripped, TAB, CR and LF removed, then the scheme, the network
    location after [//], the fragment, the query and the parameters
    of the last segment are cut off.  The result is [None] where
    [urlparse] raises [ValueError]: for a network location with one
    of the brackets [[] and []] but not the other, and for one with
    both that the library does not accept.  What the library accepts
    between brackets differs from one release of Python to the next,
    so [accepts_host] is taken from the environment.  (The other
    [ValueError] of [urlsplit], for a network location that
    normalises under NFKC to a text with a delimiter, does not arise
    below U+0100.) *)
Definition url_path (accepts_host : string -> bool) (url : string) : option string :=
  let url := lstrip_by (in_range 0 32) url in
  let url := remove_chars
               (fun c => Ascii.eqb c "009" || Ascii.eqb c "013" || Ascii.eqb c "010")
               url in
  let '(scheme, url) := split_scheme url in
  let after_netloc :=
    match url with
    | String "/" (String "/" rest) =>
        let netloc := before_first delimiter rest in
        if xorb (char_in "[" netloc) (char_in "]" netloc) then None
        else if char_in "[" netloc && negb (accepts_host netloc) then None
        else Some (from_first delimiter rest)
    | _ => Some url
    end in
  match after_netloc with
  | Some url =>
      let url := item (split1 "#" url) 0 in
      let url := item (split1 "?" url) 0 in
      Some (if bool_decide (scheme ∈ uses_params) && char_in ";" url
            then drop_params url
            else url)
  | None => None
  end.

(** [Path(p).name] for a POSIX path: the last component, where empty
    components and [.] do not count. *)
Definition path_name (p : string) : string :=
  List.last
    (List.filter (fun part => truthy part && negb (String.eqb part "."))
                 (re_split (Ascii.eqb "/") p))
    "".

(** [Path(name).suffix] for a single component: the text from the
    last dot on, unless that dot is the first or the last character
    of the name. *)
Definition path_suffix (name : string) : string :=
  match rsplit1 "." name with
  | Some (before, after) =>
      if truthy before && truthy after then String "." after else ""
  | None => ""
  end.

(** [Path(name).stem]: the name without its suffix. *)
Definition path_stem (name : string) : string :=
  match rsplit1 "." name with
  | Some (before, after) =>
      if truthy before && truthy after then before else name
  | None => name
  end.

(** A relative path, as the list of its components; [[]] is the
    working directory.  A component [..] is kept as it stands, as
    [pathlib] keeps it. *)
Definition path : Type := list string.

(** [p / name] for a [name] without a slash: an empty [name] and the
    name [.] leave [p] as it is. *)
Definition joinpath (p : path) (name : string) : path :=
  if truthy name && negb (String.eqb name ".") then p ++ [name] else p.

(** [p.parent] *)
Definition parent (p : path) : path := removelast p.

(** The directories [mkdir(parents=True)] makes sure exist: the path
    and each of its ancestors below the working directory. *)
Fixpoint with_ancestors (p : path) : list path :=
  match p with
  | [] => []
  | c :: p' => [c] :: List.map (cons c) (with_ancestors p')
  end.

End PyLib.

Import PyLib.

(** ** Exceptions, results and the state of a run *)

(** The exceptions of a run, by the [except] clauses they meet.
    [HTTPError] and [URLError] are the classes of [urllib.error] that
    the download loops catch.  [TimeoutError] stands for the
    exceptions of a request that are not a [URLError], such as the
    timeout of [response.read()] after [REQUEST_TIMEOUT] seconds.
    [OSError] stands for the exceptions of a call on the file system
    ([FileExistsError], [NotADirectoryError], [IsADirectoryError],
    [PermissionError] and the like, and the [ValueError] for a name
    with a null character), none of which is a [URLError].
    [ValueError] is the exception of [urlparse], and [TypeError] the
    one of a comparison with [None]. *)
Inductive exn := HTTPError | URLError | TimeoutError | OSError | ValueError | TypeError.

(** The outcome of a computation: a value, an exception, or a loop
    that is still running when the fuel is spent. *)
Inductive res (A : Type) :=
| Ret (a : A)
| Raise (e : exn)
| OutOfFuel.

Arguments Ret {A} a.
Arguments Raise {A} e.
Arguments OutOfFuel {A}.

#[global] Instance res_ret : MRet res := @Ret.

#[global] Instance res_bind : MBind res := λ A B f m,
  match m with
  | Ret a => f a
  | Raise e => Raise e
  | OutOfFuel => OutOfFuel
  end.

Definition bytes : Type := list Byte.byte.

(** The lines the scripts print. *)
Inductive event :=
| Processing (species : string)
| UnableToResolve (species : string)
| ResolvedTo (name : string)
| NoImagesFound
| Saved (destination : path)
| FailedToDownload (url : string)
| ErrorDownloading (url : string)
| OnlyAvailable (n : nat)
| CouldNotBeResolved (failures : list string)
| Done.

(** The calls of the scripts on the file system. *)
Inductive fs_call :=
| Mkdir (p : path)
| MkdirParents (p : path)
| WriteBytes (p : path).

(** What a run changes: the directories and files below the working
    directory, and the console.  An entry is known by the list of the
    components of its path: the tree has no symbolic links. *)
Record state := State {
  dirs : gset path;
  files : gmap path bytes;
  console : list event;
}.

(** Computations on the state.  An exception leaves the state as it
    is at the raise. *)
Definition M (A : Type) : Type := state → res A * state.

#[global] Instance M_ret : MRet M := λ A a st, (Ret a, st).

#[global] Instance M_bind : MBind M := λ A B f m st,
  match m st with
  | (Ret a, st') => f a st'
  | (Raise e, st') => (Raise e, st')
  | (OutOfFuel, st') => (OutOfFuel, st')
  end.

Definition lift {A} (r : res A) : M A := λ st, (r, st).

(** [try: body except …: handler]; [handler e] is [None] for an
    exception no clause matches. *)
Definition try_except {A} (body : M A) (handler : exn → option (M A)) : M A :=
  λ st,
    match body st with
    | (Raise e, st') =>
        match handler e with
        | Some h => h st'
        | None => (Raise e, st')
        end
    | other => other
    end.

Definition print (ev : event) : M unit := λ st,
  (Ret tt, State (dirs st) (files st) (console st ++ [ev])).

(** [p] names a directory: the working directory or one of [dirs]. *)
Definition is_dir (st : state) (p : path) : bool :=
  bool_decide (p = []) || bool_decide (p ∈ dirs st).

(** [p] names a file. *)
Definition is_file (st : state) (p : path) : bool :=
  bool_decide (is_Some (files st !! p)).

(** The calls on the file system raise [OSError] when the operating
    system refuses them, for a reason outside the tree of directories
    and files (permissions, space, a name it does not take), which
    [refuses] tells, or for a reason inside it.  A call that raises
    is taken to leave the tree as it is; what a call that fails
    half-way leaves behind lies where the call would have written. *)

(** [p.mkdir(exist_ok=True)]: a directory that exists is left as it
    is; the call raises when [p] names a file and when the parent of
    [p] is not a directory. *)
Definition mkdir (refuses : fs_call → bool) (p : path) : M unit := λ st,
  if refuses (Mkdir p) || is_file st p || negb (is_dir st (parent p))
  then (Raise OSError, st)
  else (Ret tt, State ({[p]} ∪ dirs st) (files st) (console st)).

(** [p.mkdir(parents=True, exist_ok=True)]: the call raises when [p]
    or one of its ancestors names a file. *)
Definition mkdir_parents (refuses : fs_call → bool) (p : path) : M unit := λ st,
  if refuses (MkdirParents p) || existsb (is_file st) (with_ancestors p)
  then (Raise OSError, st)
  else (Ret tt, State (list_to_set (with_ancestors p) ∪ dirs st) (files st) (console st)).

(** [p.write_bytes(data)]: a file that exists is overwritten; the
    call raises when [p] names a directory, as a path that ends in
    [..] does, and when the parent of [p] is not a directory. *)
Definition write_bytes (refuses : fs_call → bool) (p : path) (data : bytes) : M unit :=
  λ st,
    if refuses (WriteBytes p) || is_dir st p || bool_decide (last p = Some "..")
       || negb (is_dir st (parent p))
    then (Raise OSError, st)
    else (Ret tt, State (dirs st) (<[p := data]> (files st)) (console st)).

(** [a or b] on optional strings and integers: [None], the empty
    string and zero are false. *)
Definition or_str (a b : option string) : option string :=
  match a with
  | Some s => if truthy s then a else b
  | None => b
  end.

Definition or_int (a b : option Z) : option Z :=
  match a with
  | Some n => if (n =? 0)%Z then b else a
  | None => b
  end.

Definition len {A} (l : list A) : Z := Z.of_nat (List.length l).

(** The pattern [^[a-z0-9]+(_[a-z0-9]+)*$] is stated with these
    regular expressions; [matches r s] says that [r] matches the whole
    of [s].  A text the body of the pattern matches as a whole is
    matched by the anchored pattern, under [re.match] and under
    [re.fullmatch] alike. *)
Inductive regex :=
| Class (p : ascii → bool)
| Cat (r1 r2 : regex)
| Star (r : regex).

Definition Plus (r : regex) : regex := Cat r (Star r).

Inductive matches : regex → string → Prop :=
| matches_class p c :
    p c = true → matches (Class p) (String c "")
| matches_cat r1 r2 s1 s2 :
    matches r1 s1 → matches r2 s2 → matches (Cat r1 r2) (s1 +:+ s2)
| matches_star_nil r :
    matches (Star r) ""
| matches_star_more r s1 s2 :
    matches r s1 → matches (Star r) s2 → matches (Star r) (s1 +:+ s2).

(** The character class [[a-z0-9]]. *)
Definition slug_char (c : ascii) : bool :=
  in_range 97 122 c || in_range 48 57 c.

Definition slug_pattern : regex :=
  Cat (Plus (Class slug_char))
      (Star (Cat (Class (Ascii.eqb "_")) (Plus (Class slug_char)))).

(** The separators of [r",|/|;"]. *)
Definition synonym_sep (c : ascii) : bool :=
  Ascii.eqb c "," || Ascii.eqb c "/" || Ascii.eqb c ";".

(** ** [download_gbif_mushroom_images.py] *)

Module Gbif.

Definition IMAGES_PER_SPECIES : Z := 25.
Definition OUTPUT_ROOT : path := ["gbif_images"].

Definition SPECIES_NAMES : list string :=
  [ "Psilocybe semilanceata";
    "Psilocybe cyanescens";
    "Panaeolus cinctulus";
    "Amanita pantherina";
    "Amanita muscaria";
    "Psilocybe strictipes";
    "Panaeolina foenisecii";
    "Panaeolus papilionaceus";
    "Panaeolus semiovatus";
    "Panaeolus acuminatus";
    "Panaeolus subfirmus";
    "Amanita excelsa (syn. Amanita spissa)";
    "Amanita rubescens";
    "Amanita caesarea";
    "Amanita regalis" ].

Record SpeciesMatch := {
  key : Z;
  scientific_name : string;
}.

(** The JSON objects of the API, by the keys the script reads.  A
    field is [None] when the key is absent or [null]. *)
Record MatchPayload := {
  acceptedUsageKey : option Z;
  usageKey : option Z;
  matchType : option string;
  scientificName : option string;
}.

Record Media := {
  identifier : option string;
  references : option string;
}.

Record Occurrence := {
  media : option (list Media);
}.

(** The key [count], which the script reads without an [or]: absent,
    [null], or an integer. *)
Inductive Count := CountAbsent | CountNull | CountIs (n : Z).

Record SearchPayload := {
  results : option (list Occurrence);
  count : Count;
}.

(** [payload.get("count", 0)]: [None] for [null]. *)
Definition get_count (payload : SearchPayload) : option Z :=
  match count payload with
  | CountAbsent => Some 0%Z
  | CountNull => None
  | CountIs n => Some n
  end.

(** The environment of a run.  The answers of the network:
    [species/match] by name, [occurrence/search] by taxon key and
    offset, and the GET of a media URL.  The bracketed hosts that
    [urlparse] accepts, and the calls that the operating system
    refuses. *)
Record World := {
  species_match : string → res MatchPayload;
  occurrence_search : Z → Z → res SearchPayload;
  fetch_bytes : string → res bytes;
  accepts_host : string → bool;
  os_refuses : fs_call → bool;
}.

(** [slugify], lines 54-57. *)
Definition slugify (name : string) : string :=
  strip_char "_" (re_sub_runs slug_char "_" false (lower name)).

(** Lines 74-77: [for part in re.split(…): part = part.strip();
    if part: candidates.append(part)]. *)
Fixpoint append_parts (candidates parts : list string) : list string :=
  match parts with
  | [] => candidates
  | part :: rest =>
      let part := strip part in
      if truthy part then append_parts (candidates ++ [part]) rest
      else append_parts candidates rest
  end.

(** Lines 84-90: the loop over [candidates] that keeps a candidate
    whose lower-cased form is not yet in [seen]. *)
Fixpoint dedupe (seen : gset string) (candidates : list string) : list string :=
  match candidates with
  | [] => []
  | candidate :: rest =>
      let key := lower candidate in
      if decide (key ∈ seen) then dedupe seen rest
      else candidate :: dedupe ({[key]} ∪ seen) rest
  end.

(** [parse_candidate_names], lines 60-91. *)
Definition parse_candidate_names (raw_name : string) : list string :=
  let raw_name := strip raw_name in
  let base := raw_name in
  let candidates :=
    if char_in "(" raw_name && char_in ")" raw_name then
      let base := strip (item (split1 "(" raw_name) 0) in
      let candidates := if truthy base then [base] else [] in
      let inside := item (split1 ")" (item (split1 "(" raw_name) 1)) 0 in
      let cleaned := replace "syn." "" inside in
      append_parts candidates (re_split synonym_sep cleaned)
    else [base] in
  let candidates :=
    if decide (raw_name ∈ candidates) then candidates
    else candidates ++ [raw_name] in
  dedupe ∅ candidates.

(** The loop of [match_species], lines 117-127. *)
Fixpoint match_candidates (w : World) (candidates : list string)
  : res (option SpeciesMatch) :=
  match candidates with
  | [] => Ret None
  | candidate :: rest =>
      payload ← species_match w candidate;
      let key := or_int (acceptedUsageKey payload) (usageKey payload) in
      let match_type := matchType payload in
      match key, match_type with
      | Some k, Some t =>
          if negb (k =? 0)%Z && truthy t && negb (String.eqb (upper t) "NONE")
          then
            let scientific :=
              default candidate (or_str (scientificName payload) (Some candidate)) in
            Ret (Some {| key := k; scientific_name := scientific |})
          else match_candidates w rest
      | _, _ => match_candidates w rest
      end
  end.

(** [match_species], lines 113-127. *)
Definition match_species (w : World) (name : string) : res (option SpeciesMatch) :=
  match_candidates w (parse_candidate_names name).

(** [media.get("identifier") or media.get("references")] *)
Definition media_url (m : Media) : option string :=
  or_str (identifier m) (references m).

(** The loop over the media of one record, lines 150-159.  It ends
    at the first append that brings [urls] to [limit]. *)
Fixpoint scan_media (limit : Z) (medias : list Media)
         (urls : list string) (seen : gset string)
  : list string * gset string :=
  match medias with
  | [] => (urls, seen)
  | m :: rest =>
      match media_url m with
      | Some url =>
          if negb (truthy url) then scan_media limit rest urls seen
          else if decide (url ∈ seen) then scan_media limit rest urls seen
          else
            let seen := {[url]} ∪ seen in
            let urls := urls ++ [url] in
            if (len urls >=? limit)%Z then (urls, seen)
            else scan_media limit rest urls seen
      | None => scan_media limit rest urls seen
      end
  end.

(** The loop over the records of one page, lines 149-161. *)
Fixpoint scan_records (limit : Z) (records : list Occurrence)
         (urls : list string) (seen : gset string)
  : list string * gset string :=
  match records with
  | [] => (urls, seen)
  | record :: rest =>
      let '(urls, seen) :=
        scan_media limit (default [] (media record)) urls seen in
      if (len urls >=? limit)%Z then (urls, seen)
      else scan_records limit rest urls seen
  end.

(** The [while] loop of [fetch_media_urls], lines 137-165; each
    iteration makes one request and spends one unit of fuel.  The
    comparison of line 164 is reached after every page with records,
    also when the scan of the page ended on a [break]; it raises
    [TypeError] for a [count] of [null]. *)
Fixpoint fetch_media_urls_loop (fuel : nat) (w : World) (taxon_key limit : Z)
         (urls : list string) (seen : gset string) (offset : Z)
  : res (list string) :=
  if (len urls <? limit)%Z then
    match fuel with
    | O => OutOfFuel
    | S fuel' =>
        payload ← occurrence_search w taxon_key offset;
        let results := default [] (results payload) in
        match results with
        | [] => Ret urls
        | _ :: _ =>
            let '(urls, seen) := scan_records limit results urls seen in
            let offset := (offset + len results)%Z in
            match get_count payload with
            | Some total =>
                if (offset >=? total)%Z then Ret urls
                else fetch_media_urls_loop fuel' w taxon_key limit urls seen offset
            | None => Raise TypeError
            end
        end
    end
  else Ret urls.

(** [fetch_media_urls], lines 130-167. *)
Definition fetch_media_urls (fuel : nat) (w : World) (taxon_key limit : Z)
  : res (list string) :=
  fetch_media_urls_loop fuel w taxon_key limit [] ∅ 0.

(** [filename_from_url], lines 170-175. *)
Definition filename_from_url (w : World) (url : string) (index : nat) : res string :=
  match url_path (accepts_host w) url with
  | Some parsed_path =>
      let name := path_name parsed_path in
      Ret (if truthy name then name else "image_" +:+ pretty index +:+ ".jpg")
  | None => Raise ValueError
  end.

(** [download_image], lines 178-181. *)
Definition download_image (w : World) (url : string) (destination : path) : M unit :=
  mkdir_parents (os_refuses w) (parent destination);;
  data ← lift (fetch_bytes w url);
  write_bytes (os_refuses w) destination data.

(** Lines 200-204: the name under which the [index]-th URL is
    saved. *)
Definition choose_filename (w : World) (url : string) (index : nat)
           (used_names : gset string) : res string :=
  filename ← filename_from_url w url index;
  if decide (filename ∈ used_names) then
    let stem := path_stem filename in
    let suffix :=
      let suffix := path_suffix filename in
      if truthy suffix then suffix else ".jpg" in
    Ret (stem +:+ "_" +:+ pretty index +:+ suffix)
  else Ret filename.

(** The download loop of [save_images_for_species], lines 199-215. *)
Fixpoint save_loop (w : World) (target_dir : path) (index : nat)
         (urls : list string) (used_names : gset string) : M unit :=
  match urls with
  | [] => mret tt
  | url :: rest =>
      filename ← lift (choose_filename w url index used_names);
      let used_names := {[filename]} ∪ used_names in
      let destination := joinpath target_dir filename in
      saved ← try_except
                (download_image w url destination;; mret true)
                (λ exc,
                   match exc with
                   | HTTPError => Some (print (FailedToDownload url);; mret false)
                   | URLError => Some (print (ErrorDownloading url);; mret false)
                   | _ => None
                   end);
      (if saved : bool then print (Saved destination) else mret tt);;
      save_loop w target_dir (S index) rest used_names
  end.

(** [save_images_for_species], lines 184-221. *)
Definition save_images_for_species (fuel : nat) (w : World) (species : string)
  : M bool :=
  print (Processing species);;
  found ← lift (match_species w species);
  match found with
  | None => print (UnableToResolve species);; mret false
  | Some match_ =>
      print (ResolvedTo (scientific_name match_));;
      urls ← lift (fetch_media_urls fuel w (key match_) IMAGES_PER_SPECIES);
      match urls with
      | [] => print NoImagesFound;; mret true
      | _ :: _ =>
          let target_dir := joinpath OUTPUT_ROOT (slugify (scientific_name match_)) in
          save_loop w target_dir 1 urls ∅;;
          (if (len urls <? IMAGES_PER_SPECIES)%Z
           then print (OnlyAvailable (List.length urls))
           else mret tt);;
          mret true
      end
  end.

(** The loop of [main] over the species, lines 228-231. *)
Fixpoint main_loop (fuel : nat) (w : World) (species_names failures : list string)
  : M (list string) :=
  match species_names with
  | [] => mret failures
  | species :: rest =>
      success ← save_images_for_species fuel w species;
      main_loop fuel w rest
                (if success : bool then failures else failures ++ [species])
  end.

(** [main], lines 224-240, over a list of species. *)
Definition main_on (species_names : list string) (fuel : nat) (w : World) : M Z :=
  mkdir (os_refuses w) OUTPUT_ROOT;;
  failures ← main_loop fuel w species_names [];
  match failures with
  | _ :: _ => print (CouldNotBeResolved failures);; mret 1%Z
  | [] => print Done;; mret 0%Z
  end.

Definition main : nat → World → M Z := main_on SPECIES_NAMES.

End Gbif.

(** ** [download_species_images.py] *)

Module Checklist.

Definition OUTPUT_ROOT : path := ["species_images"].

Definition SPECIES_NAMES : list string :=
  [ "Psilocybe semilanceata";
    "Psilocybe cyanescens";
    "Panaeolus cinctulus";
    "Amanita pantherina";
    "Amanita muscaria";
    "Psilocybe strictipes";
    "Panaeolina foenisecii";
    "Panaeolus papilionaceus";
    "Panaeolus semiovatus";
    "Panaeolus acuminatus";
    "Panaeolus subfirmus";
    "Amanita excelsa (syn. Amanita spissa)";
    "Amanita rubescens";
    "Amanita caesarea";
    "Amanita regalis" ].

Record TaxonMatch := {
  id : option Z;
  full_name : string;
  accepted_id : option Z;
}.

(** The property [effective_id], lines 57-59. *)
Definition effective_id (t : TaxonMatch) : option Z :=
  or_int (accepted_id t) (id t).

(** One entry of the [taxa] answer, by the keys [_id], [FullName]
    and [accepted_id]; a field is [None] when the key is absent, and
    an id also when it is [null].  A [FullName] that is present is a
    string. *)
Record TaxonItem := {
  item_id : option Z;
  item_FullName : option string;
  item_accepted_id : option Z;
}.

(** One entry of [images], by its key [uri]. *)
Record TaxonImage := {
  uri : option string;
}.

(** The [where] clause of a [taxa] query, for [RankID] 10000: an
    exact [FullName] or a [like] pattern. *)
Inductive where_clause :=
| FullNameIs (name : string)
| FullNameLike (pattern : string).

(** The environment of a run.  The answers of the network: the
    [taxa] query, the [images] of [taxa/<id>] (absent as [None]), and
    the GET of an image URI.  The bracketed hosts that [urlparse]
    accepts, and the calls that the operating system refuses. *)
Record World := {
  taxa : where_clause → res (list TaxonItem);
  taxon_images : option Z → res (option (list TaxonImage));
  fetch_bytes : string → res bytes;
  accepts_host : string → bool;
  os_refuses : fs_call → bool;
}.

(** [slugify], lines 62-65. *)
Definition slugify (name : string) : string :=
  strip_char "_" (re_sub_runs slug_char "_" false (lower name)).

(** Lines 82-85. *)
Fixpoint append_parts (candidates parts : list string) : list string :=
  match parts with
  | [] => candidates
  | part :: rest =>
      let part := strip part in
      if truthy part then append_parts (candidates ++ [part]) rest
      else append_parts candidates rest
  end.

(** Lines 93-99: deduplicate while preserving order. *)
Fixpoint dedupe (seen : gset string) (candidates : list string) : list string :=
  match candidates with
  | [] => []
  | name :: rest =>
      let key := lower name in
      if decide (key ∈ seen) then dedupe seen rest
      else name :: dedupe ({[key]} ∪ seen) rest
  end.

(** [parse_candidate_names], lines 68-100. *)
Definition parse_candidate_names (raw_name : string) : list string :=
  let raw_name := strip raw_name in
  let base := raw_name in
  let candidates :=
    if char_in "(" raw_name && char_in ")" raw_name then
      let base := strip (item (split1 "(" raw_name) 0) in
      let candidates := if truthy base then [base] else [] in
      let inside := item (split1 ")" (item (split1 "(" raw_name) 1)) 0 in
      let cleaned := replace "syn." "" inside in
      append_parts candidates (re_split synonym_sep cleaned)
    else [base] in
  let candidates :=
    if decide (raw_name ∈ candidates) then candidates
    else candidates ++ [raw_name] in
  let ordered := dedupe ∅ candidates in
  ordered.

(** The loop of [_select_best_match], lines 136-147. *)
Fixpoint select_loop (candidate_lower : string) (results : list TaxonItem)
         (best : option TaxonMatch) : option TaxonMatch :=
  match results with
  | [] => best
  | entry :: rest =>
      let full_name := default "" (item_FullName entry) in
      let match_ :=
        {| id := item_id entry;
           full_name := full_name;
           accepted_id := or_int (item_accepted_id entry) (item_id entry) |} in
      if String.eqb (lower full_name) candidate_lower then Some match_
      else select_loop candidate_lower rest
                       (match best with None => Some match_ | Some _ => best end)
  end.

(** [_select_best_match], lines 132-147. *)
Definition _select_best_match (results : list TaxonItem) (candidate : string)
  : option TaxonMatch :=
  select_loop (lower candidate) results None.

(** One of the two loops of [resolve_taxon], lines 115-120 and
    122-127; [clause] builds the [where] clause of a candidate. *)
Fixpoint resolve_pass (w : World) (clause : string → where_clause)
         (candidates : list string) : res (option TaxonMatch) :=
  match candidates with
  | [] => Ret None
  | candidate :: rest =>
      results ← taxa w (clause candidate);
      match _select_best_match results candidate with
      | Some match_ => Ret (Some match_)
      | None => resolve_pass w clause rest
      end
  end.

(** [resolve_taxon], lines 111-129. *)
Definition resolve_taxon (w : World) (name : string) : res (option TaxonMatch) :=
  let candidates := parse_candidate_names name in
  exact ← resolve_pass w FullNameIs candidates;
  match exact with
  | Some match_ => Ret (Some match_)
  | None =>
      resolve_pass w (λ candidate, FullNameLike ("%" +:+ candidate +:+ "%"))
                   candidates
  end.

(** [fetch_taxon_images], lines 150-155. *)
Definition fetch_taxon_images (w : World) (taxon_id : option Z)
  : res (list TaxonImage) :=
  images ← taxon_images w taxon_id;
  Ret (default [] images).

(** [download_image], lines 158-161. *)
Definition download_image (w : World) (url : string) (destination : path) : M unit :=
  mkdir_parents (os_refuses w) (parent destination);;
  data ← lift (fetch_bytes w url);
  write_bytes (os_refuses w) destination data.

(** [filename_from_url], lines 164-169. *)
Definition filename_from_url (w : World) (url : string) (index : nat) : res string :=
  match url_path (accepts_host w) url with
  | Some parsed_path =>
      let name := path_name parsed_path in
      Ret (if truthy name then name else "image_" +:+ pretty index)
  | None => Raise ValueError
  end.

(** Lines 215-219: the name under which the [index]-th image is
    saved. *)
Definition choose_filename (w : World) (url : string) (index : nat)
           (existing_names : gset string) : res string :=
  filename ← filename_from_url w url index;
  if decide (filename ∈ existing_names) then
    let stem := path_stem filename in
    let suffix := path_suffix filename in
    Ret (stem +:+ "_" +:+ pretty index +:+ suffix)
  else Ret filename.

(** The download loop of [main], lines 211-230. *)
Fixpoint save_loop (w : World) (target_dir : path) (index : nat)
         (images : list TaxonImage) (existing_names : gset string) : M unit :=
  match images with
  | [] => mret tt
  | image :: rest =>
      match uri image with
      | Some url =>
          if negb (truthy url)
          then save_loop w target_dir (S index) rest existing_names
          else
            filename ← lift (choose_filename w url index existing_names);
            let existing_names := {[filename]} ∪ existing_names in
            let destination := joinpath target_dir filename in
            saved ← try_except
                      (download_image w url destination;; mret true)
                      (λ exc,
                         match exc with
                         | HTTPError => Some (print (FailedToDownload url);; mret false)
                         | URLError => Some (print (ErrorDownloading url);; mret false)
                         | _ => None
                         end);
            (if saved : bool then print (Saved destination) else mret tt);;
            save_loop w target_dir (S index) rest existing_names
      | None => save_loop w target_dir (S index) rest existing_names
      end
  end.

(** The loop of [main] over the species, lines 195-230. *)
Fixpoint main_loop (w : World) (species_names failures : list string)
  : M (list string) :=
  match species_names with
  | [] => mret failures
  | species :: rest =>
      print (Processing species);;
      taxon ← lift (resolve_taxon w species);
      match taxon with
      | None =>
          print (UnableToResolve species);;
          main_loop w rest (failures ++ [species])
      | Some taxon =>
          print (ResolvedTo (full_name taxon));;
          images ← lift (fetch_taxon_images w (effective_id taxon));
          match images with
          | [] => print NoImagesFound;; main_loop w rest failures
          | _ :: _ =>
              let target_dir := joinpath OUTPUT_ROOT (slugify (full_name taxon)) in
              save_loop w target_dir 1 images ∅;;
              main_loop w rest failures
          end
      end
  end.

(** [main], lines 191-239, over a list of species. *)
Definition main_on (species_names : list string) (w : World) : M Z :=
  mkdir (os_refuses w) OUTPUT_ROOT;;
  failures ← main_loop w species_names [];
  match failures with
  | _ :: _ => print (CouldNotBeResolved failures);; mret 1%Z
  | [] => print Done;; mret 0%Z
  end.

Definition main : World → M Z := main_on SPECIES_NAMES.

End Checklist.

(** ** Observations on a run *)

(** The destinations of the [Saved] lines of a console, in order. *)
Fixpoint saved_destinations (out : list event) : list path :=
  match out with
  | [] => []
  | Saved destination :: rest => destination :: saved_destinations rest
  | _ :: rest => saved_destinations rest
  end.

Definition initial_state : state := State ∅ ∅ [].

(** A network on which every image request succeeds and answers with
    the text of the URL itself. *)
Definition echo (url : string) : res bytes := Ret (list_byte_of_string url).

(** A library that accepts every bracketed host, and an operating
    system that refuses no call. *)
Definition any_host (netloc : string) : bool := true.

Definition no_call (call : fs_call) : bool := false.

Definition gbif_echo_world : Gbif.World :=
  {| Gbif.species_match := λ _, Raise URLError;
     Gbif.occurrence_search := λ _ _, Raise URLError;
     Gbif.fetch_bytes := echo;
     Gbif.accepts_host := any_host;
     Gbif.os_refuses := no_call |}.

Definition checklist_echo_world : Checklist.World :=
  {| Checklist.taxa := λ _, Raise URLError;
     Checklist.taxon_images := λ _, Raise URLError;
     Checklist.fetch_bytes := echo;
     Checklist.accepts_host := any_host;
     Checklist.os_refuses := no_call |}.

(** Three distinct URLs whose last segments are [a_3.jpg], [a.jpg]
    and [a.jpg]. *)
Definition clashing_urls : list string :=
  [ "https://img.example/a_3.jpg";
    "https://img.example/1/a.jpg";
    "https://img.example/2/a.jpg" ].

(** ** The shape of a slug *)

(** [runs after s]: [s] continues a slug, that is, it consists of
    characters of [[a-z0-9]] and underscores, every underscore stands
    between two characters of the class, and the text ends on a
    character of the class.  [after] tells that the character before
    [s] belongs to the class. *)
Fixpoint runs (after : bool) (s : string) : bool :=
  match s with
  | "" => after
  | String c s' =>
      if slug_char c then runs true s'
      else Ascii.eqb "_" c && after && runs false s'
  end.

(** [loose after s]: as [runs], but the text may end on an
    underscore. *)
Fixpoint loose (after : bool) (s : string) : bool :=
  match s with
  | "" => true
  | String c s' =>
      if slug_char c then loose true s'
      else Ascii.eqb "_" c && after && loose false s'
  end.

(** ** The URLs a backend lists *)

(** The non-empty URLs of the media of a record, and of the records
    of a page, in the order in which the loops of [fetch_media_urls]
    visit them. *)
Fixpoint media_urls (medias : list Gbif.Media) : list string :=
  match medias with
  | [] => []
  | m :: rest =>
      match Gbif.media_url m with
      | Some url => if truthy url then url :: media_urls rest else media_urls rest
      | None => media_urls rest
      end
  end.

Fixpoint page_urls (records : list Gbif.Occurrence) : list string :=
  match records with
  | [] => []
  | record :: rest =>
      media_urls (default [] (Gbif.media record)) ++ page_urls rest
  end.

(** The URLs of the pages the backend answers from [offset] on, each
    page found at the offset after the records of the one before,
    until a request fails, a page is empty or without a count to
    compare with, or the offset reaches the reported count; at most
    [fuel] pages. *)
Fixpoint listed_urls (fuel : nat) (w : Gbif.World) (taxon_key offset : Z)
  : list string :=
  match fuel with
  | O => []
  | S fuel' =>
      match Gbif.occurrence_search w taxon_key offset with
      | Ret payload =>
          let results := default [] (Gbif.results payload) in
          match results, Gbif.get_count payload with
          | _ :: _, Some total =>
              let offset := (offset + len results)%Z in
              page_urls results
              ++ (if (offset >=? total)%Z then []
                  else listed_urls fuel' w taxon_key offset)
          | _, _ => []
          end
      | _ => []
      end
  end.

(** The offsets of the requests for those pages, the request that
    ends the listing included. *)
Fixpoint page_offsets (fuel : nat) (w : Gbif.World) (taxon_key offset : Z)
  : list Z :=
  match fuel with
  | O => []
  | S fuel' =>
      offset ::
      match Gbif.occurrence_search w taxon_key offset with
      | Ret payload =>
          let results := default [] (Gbif.results payload) in
          match results, Gbif.get_count payload with
          | _ :: _, Some total =>
              let offset := (offset + len results)%Z in
              if (offset >=? total)%Z then []
              else page_offsets fuel' w taxon_key offset
          | _, _ => []
          end
      | _ => []
      end
  end.

(** The request at [offset] makes the lister raise [e]: the request
    itself raises it, or it is answered with records and a [count] of
    [null], on which the comparison of line 164 raises [TypeError]. *)
Definition page_fails (w : Gbif.World) (taxon_key offset : Z) (e : exn) : Prop :=
  Gbif.occurrence_search w taxon_key offset = Raise e
  ∨ (e = TypeError
     ∧ ∃ payload, Gbif.occurrence_search w taxon_key offset = Ret payload
                  ∧ default [] (Gbif.results payload) ≠ []
                  ∧ Gbif.count payload = Gbif.CountNull).

(** The elements of a list that are neither in [seen] nor earlier in
    the list. *)
Fixpoint first_occurrences (seen : gset string) (l : list string) : list string :=
  match l with
  | [] => []
  | x :: rest =>
      if decide (x ∈ seen) then first_occurrences seen rest
      else x :: first_occurrences ({[x]} ∪ seen) rest
  end.

(** [urls] extended by the new URLs of [l], up to [limit] in all. *)
Definition collect (limit : Z) (urls l : list string) : list string :=
  urls ++ take (Z.to_nat (limit - len urls)) (first_occurrences (list_to_set urls) l).

(** ** A sample network *)

Definition image (url : string) : Gbif.Media :=
  {| Gbif.identifier := Some url; Gbif.references := None |}.

(** Every name matches taxon 7.  The occurrences come in two pages,
    of two records and of one, for a reported count of three; the
    first record lists [a.jpg] twice.  The images [b.jpg] and [c.jpg]
    cannot be downloaded. *)
Definition sample_world : Gbif.World :=
  {| Gbif.species_match := λ name,
       Ret {| Gbif.acceptedUsageKey := None;
              Gbif.usageKey := Some 7%Z;
              Gbif.matchType := Some "EXACT";
              Gbif.scientificName := Some name |};
     Gbif.occurrence_search := λ _ offset,
       if (offset =? 0)%Z then
         Ret {| Gbif.results :=
                  Some [ {| Gbif.media :=
                              Some [ image "https://img.example/a.jpg";
                                     image "https://img.example/b.jpg";
                                     image "https://img.example/a.jpg" ] |};
                         {| Gbif.media := Some [ image "https://img.example/c.jpg" ] |} ];
                Gbif.count := Gbif.CountIs 3 |}
       else if (offset =? 2)%Z then
         Ret {| Gbif.results :=
                  Some [ {| Gbif.media := Some [ image "https://img.example/d.jpg" ] |} ];
                Gbif.count := Gbif.CountIs 3 |}
       else Ret {| Gbif.results := None; Gbif.count := Gbif.CountIs 3 |};
     Gbif.fetch_bytes := λ url,
       if String.eqb url "https://img.example/b.jpg" then Raise HTTPError
       else if String.eqb url "https://img.example/c.jpg" then Raise URLError
       else echo url;
     Gbif.accepts_host := any_host;
     Gbif.os_refuses := no_call |}.

(** A network on which the image [a.jpg] stalls until the request
    times out, while [b.jpg] can be downloaded. *)
Definition stalling_world : Gbif.World :=
  {| Gbif.species_match := Gbif.species_match sample_world;
     Gbif.occurrence_search := Gbif.occurrence_search sample_world;
     Gbif.fetch_bytes := λ url,
       if String.eqb url "https://img.example/a.jpg" then Raise TimeoutError
       else echo url;
     Gbif.accepts_host := any_host;
     Gbif.os_refuses := no_call |}.

(** The sample network with its first page only: every request at
    another offset fails. *)
Definition first_page_world : Gbif.World :=
  {| Gbif.species_match := Gbif.species_match sample_world;
     Gbif.occurrence_search := λ taxon_key offset,
       if (offset =? 0)%Z then Gbif.occurrence_search sample_world taxon_key offset
       else Raise URLError;
     Gbif.fetch_bytes := Gbif.fetch_bytes sample_world;
     Gbif.accepts_host := any_host;
     Gbif.os_refuses := no_call |}.

(** The state after [download_image] has made sure that the parent of
    [destination] exists, and the one after it has written the file. *)
Definition with_parent_of (destination : path) (st : state) : state :=
  State (list_to_set (with_ancestors (parent destination)) ∪ dirs st)
        (files st) (console st).

Definition with_file (destination : path) (data : bytes) (st : state) : state :=
  State (dirs st) (<[destination := data]> (files st)) (console st).

Definition with_line (ev : event) (st : state) : state :=
  State (dirs st) (files st) (console st ++ [ev]).

(** A network of the checklist on which every name is found as taxon
    5, with three image entries: [a.jpg], one without [uri], and
    [b.jpg], which cannot be downloaded. *)
Definition checklist_sample_world : Checklist.World :=
  {| Checklist.taxa := λ clause,
       match clause with
       | Checklist.FullNameIs name =>
           Ret [ {| Checklist.item_id := Some 5%Z;
                    Checklist.item_FullName := Some name;
                    Checklist.item_accepted_id := None |} ]
       | Checklist.FullNameLike _ => Ret []
       end;
     Checklist.taxon_images := λ _,
       Ret (Some [ {| Checklist.uri := Some "https://img.example/a.jpg" |};
                   {| Checklist.uri := None |};
                   {| Checklist.uri := Some "https://img.example/b.jpg" |} ]);
     Checklist.fetch_bytes := Gbif.fetch_bytes sample_world;
     Checklist.accepts_host := any_host;
     Checklist.os_refuses := no_call |}.

(** The sample network, except that it has no match for the name
    [missing]. *)
Definition sample_world_without (missing : string) : Gbif.World :=
  {| Gbif.species_match := λ name,
       if String.eqb name missing
       then Ret {| Gbif.acceptedUsageKey := None;
                   Gbif.usageKey := None;
                   Gbif.matchType := Some "NONE";
                   Gbif.scientificName := None |}
       else Gbif.species_match sample_world name;
     Gbif.occurrence_search := Gbif.occurrence_search sample_world;
     Gbif.fetch_bytes := Gbif.fetch_bytes sample_world;
     Gbif.accepts_host := any_host;
     Gbif.os_refuses := no_call |}.

(** ** Payloads the resolver accepts *)

(** The test of line 124 on a payload of [species/match]: a non-zero
    key, and a match type that is present, non-empty and not [NONE]
    in any case. *)
Definition gbif_usable (payload : Gbif.MatchPayload) : bool :=
  match or_int (Gbif.acceptedUsageKey payload) (Gbif.usageKey payload),
        Gbif.matchType payload with
  | Some k, Some t =>
      negb (k =? 0)%Z && truthy t && negb (String.eqb (upper t) "NONE")
  | _, _ => false
  end.

(** The backend answered the lookup of [candidate] with a payload the
    resolver does not accept. *)
Definition gbif_rejected (w : Gbif.World) (candidate : string) : Prop :=
  ∃ payload, Gbif.species_match w candidate = Ret payload
             ∧ gbif_usable payload = false.

(** ** Resolution of a species, and networks that answer *)

(** A species resolves when the resolver returns a match, and fails
    to resolve when it returns none. *)
Definition gbif_resolves (w : Gbif.World) (species : string) : bool :=
  match Gbif.match_species w species with
  | Ret (Some _) => true
  | _ => false
  end.

Definition gbif_unresolved (w : Gbif.World) (species : string) : bool :=
  match Gbif.match_species w species with
  | Ret None => true
  | _ => false
  end.

Definition checklist_resolves (w : Checklist.World) (species : string) : bool :=
  match Checklist.resolve_taxon w species with
  | Ret (Some _) => true
  | _ => false
  end.

Definition checklist_unresolved (w : Checklist.World) (species : string) : bool :=
  match Checklist.resolve_taxon w species with
  | Ret None => true
  | _ => false
  end.

(** The request for an image succeeds or fails with one of the
    exceptions of [urllib.error]. *)
Definition image_answer (r : res bytes) : Prop :=
  (∃ data, r = Ret data) ∨ r = Raise HTTPError ∨ r = Raise URLError.

(** A name under which [write_bytes] can save a file: [urlparse]
    took the URL, and the name is not [..]. *)
Definition file_name (r : res string) : Prop :=
  ∃ name, r = Ret name ∧ name ≠ "..".

(** The backend lists [url] among the media of some page. *)
Definition gbif_lists (w : Gbif.World) (url : string) : Prop :=
  ∃ taxon_key offset payload record,
    Gbif.occurrence_search w taxon_key offset = Ret payload
    ∧ record ∈ default [] (Gbif.results payload)
    ∧ url ∈ media_urls (default [] (Gbif.media record)).

(** A network that answers every query of the GBIF script, with
    reported counts of at most [bound], and whose URLs yield file
    names. *)
Record gbif_answers (w : Gbif.World) (bound : Z) : Prop := {
  match_answers : ∀ name, ∃ payload, Gbif.species_match w name = Ret payload;
  search_answers : ∀ taxon_key offset, ∃ payload total,
      Gbif.occurrence_search w taxon_key offset = Ret payload
      ∧ Gbif.get_count payload = Some total ∧ (total ≤ bound)%Z;
  gbif_image_answers : ∀ url, image_answer (Gbif.fetch_bytes w url);
  gbif_urls_name : ∀ url index,
      gbif_lists w url → file_name (Gbif.filename_from_url w url index);
}.

(** The species resolves, if at all, to a name with a slug, so that
    its images have a directory of their own. *)
Definition gbif_named (w : Gbif.World) (species : string) : Prop :=
  ∀ m, Gbif.match_species w species = Ret (Some m) →
       Gbif.slugify (Gbif.scientific_name m) ≠ "".

Definition checklist_named (w : Checklist.World) (species : string) : Prop :=
  ∀ taxon, Checklist.resolve_taxon w species = Ret (Some taxon) →
           Checklist.slugify (Checklist.full_name taxon) ≠ "".

(** The checklist lists [url] among the images of some taxon. *)
Definition checklist_lists (w : Checklist.World) (url : string) : Prop :=
  ∃ taxon_id images image,
    Checklist.taxon_images w taxon_id = Ret (Some images)
    ∧ image ∈ images
    ∧ Checklist.uri image = Some url.

(** A network that answers every query of the checklist script, and
    whose URLs yield file names. *)
Record checklist_answers (w : Checklist.World) : Prop := {
  taxa_answers : ∀ clause, ∃ entries, Checklist.taxa w clause = Ret entries;
  images_answers : ∀ taxon_id, ∃ images, Checklist.taxon_images w taxon_id = Ret images;
  checklist_image_answers : ∀ url, image_answer (Checklist.fetch_bytes w url);
  checklist_urls_name : ∀ url index,
      checklist_lists w url → file_name (Checklist.filename_from_url w url index);
}.

(** An operating system that refuses no call. *)
Definition obliging (refuses : fs_call → bool) : Prop :=
  ∀ call, refuses call = false.

(** A tree in which the scripts meet no file where they make a
    directory and no directory where they write a file: below [root],
    the directories are [root] and its children, and the files lie in
    those children. *)
Definition tidy (root : string) (st : state) : Prop :=
  (∀ p, is_Some (files st !! p) → head p = Some root → List.length p = 3)
  ∧ (∀ d, d ∈ dirs st → head d = Some root → (List.length d ≤ 2)%nat).

(** A computation that returns a value from every tidy state, and
    leaves the state tidy. *)
Definition returns (root : string) {A} (m : M A) : Prop :=
  ∀ st, tidy root st → ∃ a st', m st = (Ret a, st') ∧ tidy root st'.

(** ** States that only grow *)

(** A name of a file or directory in its own right: not empty, not
    [.] or [..], and without a slash. *)
Definition plain (name : string) : bool :=
  truthy name && negb (String.eqb name ".") && negb (String.eqb name "..")
  && negb (char_in "/" name).

(** A text that [pathlib] takes as one component of a path, the name
    of an entry of a directory or [..]. *)
Definition component (name : string) : Prop :=
  truthy name = true ∧ name ≠ "." ∧ char_in "/" name = false.

(** [p] is the directory [root] of the working directory or lies
    inside it: no component leads out again. *)
Definition below (root : string) (p : path) : Prop :=
  ∃ rest, p = root :: rest ∧ Forall (λ name, plain name = true) rest.

(** [st'] extends [st] below the directory [root]: no directory and
    no file is gone, every new directory is [root] or lies inside it,
    every file with a new content lies inside it, and the console is
    continued. *)
Definition grows_below (root : string) (st st' : state) : Prop :=
  dirs st ⊆ dirs st'
  ∧ (∀ d, d ∈ dirs st' → d ∈ dirs st ∨ below root d)
  ∧ (∀ p, is_Some (files st !! p) → is_Some (files st' !! p))
  ∧ (∀ p, ¬ (below root p ∧ p ≠ [root]) → files st' !! p = files st !! p)
  ∧ console st `prefix_of` console st'.

(** A computation whose final state, whatever its outcome, is related
    by [R] to the state it starts from. *)
Definition keeps {A} (R : state → state → Prop) (m : M A) : Prop :=
  ∀ st, R st (m st).2.

(** ** Entries of the checklist *)

(** The match that [_select_best_match] builds from an entry, lines
    137-142. *)
Definition taxon_of (entry : Checklist.TaxonItem) : Checklist.TaxonMatch :=
  {| Checklist.id := Checklist.item_id entry;
     Checklist.full_name := default "" (Checklist.item_FullName entry);
     Checklist.accepted_id :=
       or_int (Checklist.item_accepted_id entry) (Checklist.item_id entry) |}.

(** The entry bears the name of the candidate, up to case. *)
Definition named_like (candidate : string) (entry : Checklist.TaxonItem) : bool :=
  String.eqb (lower (default "" (Checklist.item_FullName entry))) (lower candidate).

(** The [like] clause of a candidate, line 123. *)
Definition like_clause (candidate : string) : Checklist.where_clause :=
  Checklist.FullNameLike ("%" +:+ candidate +:+ "%").

(** ** The candidate expander on the label with a synonym *)

(** C5: the label "Amanita excelsa (syn. Amanita spissa)" expands to
    the primary name, the synonym and the label itself, in that order
    and without duplicates, in both scripts. *)
Theorem parse_candidate_names_amanita_excelsa :
  Gbif.parse_candidate_names "Amanita excelsa (syn. Amanita spissa)"
  = ["Amanita excelsa"; "Amanita spissa"; "Amanita excelsa (syn. Amanita spissa)"]
  ∧ Checklist.parse_candidate_names "Amanita excelsa (syn. Amanita spissa)"
    = ["Amanita excelsa"; "Amanita spissa"; "Amanita excelsa (syn. Amanita spissa)"].
Proof. split; vm_compute; reflexivity. Qed.

(** ** The two scripts share their candidate expander *)

Lemma append_parts_agree parts : ∀ candidates,
  Gbif.append_parts candidates parts = Checklist.append_parts candidates parts.
Proof.
  induction parts as [|part rest IH]; intros candidates; simpl; [done|].
  destruct (truthy (strip part)); apply IH.
Qed.

Lemma dedupe_agree candidates : ∀ seen,
  Gbif.dedupe seen candidates = Checklist.dedupe seen candidates.
Proof.
  induction candidates as [|c rest IH]; intros seen; simpl; [done|].
  destruct (decide (lower c ∈ seen)); [apply IH | f_equal; apply IH].
Qed.

Lemma parse_candidate_names_agree raw_name :
  Checklist.parse_candidate_names raw_name = Gbif.parse_candidate_names raw_name.
Proof.
  unfold Gbif.parse_candidate_names, Checklist.parse_candidate_names; cbv zeta.
  etrans; [symmetry; apply dedupe_agree|].
  destruct (char_in "(" (strip raw_name) && char_in ")" (strip raw_name)); [|done].
  do 2 f_equal; symmetry; apply append_parts_agree.
Qed.

(** C10: on every input string the candidate expander of the GBIF
    script and that of the checklist script return the same list. *)
Theorem parse_candidate_names_same_in_both_scripts (raw_name : string) :
  Gbif.parse_candidate_names raw_name = Checklist.parse_candidate_names raw_name.
Proof. symmetry. apply parse_candidate_names_agree. Qed.

(** ** Filenames of one species run *)

(** C1 (the code reuses a name): with the three distinct URLs of
    [clashing_urls], all downloaded successfully, the third image is
    saved as [a_3.jpg], the name of the first: the run prints the same
    destination twice and leaves two files for three images, the
    first image overwritten by the third.  Both scripts do so. *)
Theorem save_loop_reuses_a_filename :
  NoDup clashing_urls
  ∧ (let st := (Gbif.save_loop gbif_echo_world ["gbif_images"; "amanita"] 1
                               clashing_urls ∅ initial_state).2 in
     saved_destinations (console st)
     = [ ["gbif_images"; "amanita"; "a_3.jpg"];
         ["gbif_images"; "amanita"; "a.jpg"];
         ["gbif_images"; "amanita"; "a_3.jpg"] ]
     ∧ size (files st) = 2
     ∧ files st !! ["gbif_images"; "amanita"; "a_3.jpg"]
       = Some (list_byte_of_string "https://img.example/2/a.jpg"))
  ∧ (let st := (Checklist.save_loop checklist_echo_world ["species_images"; "amanita"] 1
                  (List.map (λ url, {| Checklist.uri := Some url |}) clashing_urls)
                  ∅ initial_state).2 in
     saved_destinations (console st)
     = [ ["species_images"; "amanita"; "a_3.jpg"];
         ["species_images"; "amanita"; "a.jpg"];
         ["species_images"; "amanita"; "a_3.jpg"] ]
     ∧ size (files st) = 2).
Proof.
  split; [|split].
  - by apply (bool_decide_unpack _).
  - vm_compute. done.
  - vm_compute. done.
Qed.

(** ** Slugs *)

#[local] Arguments Ascii.eqb : simpl never.
#[local] Arguments String.eqb : simpl never.

Lemma slug_char_not_underscore c : slug_char c = true → Ascii.eqb "_" c = false.
Proof. destruct c as [[] [] [] [] [] [] [] []]; by vm_compute. Qed.

Lemma slug_char_lower c : slug_char c = true → lower_char c = c.
Proof. destruct c as [[] [] [] [] [] [] [] []]; by vm_compute. Qed.

Lemma underscore_eqb c : Ascii.eqb "_" c = true → c = "_"%char.
Proof. intros H. symmetry. by apply Ascii.eqb_eq. Qed.

Ltac slug_cases c :=
  let Hc := fresh "Hc" in
  let Hu := fresh "Hu" in
  destruct (slug_char c) eqn:Hc;
  [ pose proof (slug_char_not_underscore c Hc) as Hu
  | destruct (Ascii.eqb "_" c) eqn:Hu;
    [ apply underscore_eqb in Hu; subst c | ] ].

(** The substitution leaves single underscores between the characters
    it keeps. *)
Lemma re_sub_runs_loose s : ∀ in_run,
  loose (negb in_run) (re_sub_runs slug_char "_" in_run s) = true.
Proof.
  induction s as [|c s IH]; intros in_run; simpl; [done|].
  destruct (slug_char c) eqn:Hc; simpl.
  - rewrite Hc. apply (IH false).
  - destruct in_run; simpl; [apply (IH true)|]. apply (IH true).
Qed.

Lemma lstrip_loose s : ∀ after,
  loose after s = true → loose false (lstrip_by (Ascii.eqb "_") s) = true.
Proof.
  induction s as [|c s IH]; intros after; simpl; [done|].
  slug_cases c; simpl.
  - rewrite Hu. simpl. by rewrite Hc.
  - destruct after; simpl; [|done]. apply IH.
  - done.
Qed.

Lemma rstrip_runs s : ∀ after,
  loose after s = true →
  rstrip_by (Ascii.eqb "_") s = "" ∨ runs after (rstrip_by (Ascii.eqb "_") s) = true.
Proof.
  induction s as [|c s IH]; intros after; simpl; [by left|].
  slug_cases c; simpl.
  - intros H. right. rewrite Hu. simpl. rewrite Hc.
    destruct (IH true H) as [-> | Hr]; done.
  - destruct after; simpl; [|done]. intros H.
    destruct (IH false H) as [-> | Hr]; [by left|]. right.
    destruct (rstrip_by (Ascii.eqb "_") s) eqn:Hs; [done|]. simpl in *. by rewrite Hr.
  - done.
Qed.

Lemma slugify_shape name :
  Gbif.slugify name = "" ∨ runs false (Gbif.slugify name) = true.
Proof.
  unfold Gbif.slugify, strip_char, strip_by.
  apply rstrip_runs, (lstrip_loose _ true), (re_sub_runs_loose _ false).
Qed.

(** A text of the shape of a slug is a fixed point of each step of
    [slugify]. *)
Lemma runs_lower s : ∀ after, runs after s = true → lower s = s.
Proof.
  induction s as [|c s IH]; intros after; simpl; [done|].
  slug_cases c; simpl.
  - intros H. by rewrite (slug_char_lower _ Hc), (IH true H).
  - destruct after; simpl; [|done]. intros H. by rewrite (IH false H).
  - done.
Qed.

Lemma runs_re_sub_runs s :
  (runs true s = true → re_sub_runs slug_char "_" false s = s)
  ∧ (runs false s = true → ∀ in_run, re_sub_runs slug_char "_" in_run s = s).
Proof.
  induction s as [|c s [IHt IHf]]; simpl; [done|].
  slug_cases c; simpl.
  - split; intros H; [|intros _]; by rewrite (IHt H).
  - split; [|done]. intros H. by rewrite (IHf H true).
  - done.
Qed.

Lemma runs_lstrip s : runs false s = true → lstrip_by (Ascii.eqb "_") s = s.
Proof.
  destruct s as [|c s]; simpl; [done|].
  slug_cases c; simpl; [by rewrite Hu | done | done].
Qed.

Lemma runs_rstrip s : ∀ after,
  runs after s = true → rstrip_by (Ascii.eqb "_") s = s.
Proof.
  induction s as [|c s IH]; intros after; simpl; [done|].
  slug_cases c; simpl.
  - intros H. by rewrite Hu, (IH true H).
  - destruct after; simpl; [|done]. intros H.
    rewrite (IH false H). by destruct s.
  - done.
Qed.

Lemma slugify_fixed s : runs false s = true → Gbif.slugify s = s.
Proof.
  intros H. unfold Gbif.slugify, strip_char, strip_by.
  rewrite (runs_lower _ _ H).
  rewrite (proj2 (runs_re_sub_runs s) H false).
  by rewrite (runs_lstrip _ H), (runs_rstrip _ _ H).
Qed.

Lemma slugify_idem name : Gbif.slugify (Gbif.slugify name) = Gbif.slugify name.
Proof.
  destruct (slugify_shape name) as [-> | H]; [done|]. by apply slugify_fixed.
Qed.

(** The shape is the one of the pattern. *)
Lemma runs_matches s :
  (runs true s = true →
   matches (Cat (Star (Class slug_char))
                (Star (Cat (Class (Ascii.eqb "_")) (Plus (Class slug_char))))) s)
  ∧ (runs false s = true → matches slug_pattern s).
Proof.
  induction s as [|c s [IHt IHf]]; simpl.
  - split; [|done]. intros _. apply (matches_cat _ _ "" ""); constructor.
  - slug_cases c; simpl.
    + assert (∀ r, matches (Cat (Star (Class slug_char)) r) s →
                   matches (Cat (Star (Class slug_char)) r) (String c s)
                   ∧ matches (Cat (Plus (Class slug_char)) r) (String c s)) as Hstep.
      { intros r Hm. inversion Hm as [|? ? s1 s2 H1 H2| |]; subst. split.
        - apply (matches_cat _ _ (String c s1) s2); [|done].
          apply (matches_star_more _ (String c "") s1); [by constructor|done].
        - apply (matches_cat _ _ (String c s1) s2); [|done].
          apply (matches_cat _ _ (String c "") s1); [by constructor|done]. }
      split; intros H; by apply Hstep, IHt.
    + split; [|done]. intros H. specialize (IHf H).
      inversion IHf as [|? ? s1 s2 H1 H2| |]; subst.
      apply (matches_cat _ _ "" (String "_" (s1 +:+ s2))); [constructor|].
      apply (matches_star_more _ (String "_" s1) s2); [|done].
      apply (matches_cat _ _ (String "_" "") s1); [by constructor|done].
    + done.
Qed.

(** C7: [slugify] is idempotent, and its result matches
    [^[a-z0-9]+(_[a-z0-9]+)*$] or is empty; so in both scripts. *)
Theorem slugify_idempotent_and_well_formed (x : string) :
  Gbif.slugify (Gbif.slugify x) = Gbif.slugify x
  ∧ (matches slug_pattern (Gbif.slugify x) ∨ Gbif.slugify x = "")
  ∧ Checklist.slugify (Checklist.slugify x) = Checklist.slugify x
  ∧ (matches slug_pattern (Checklist.slugify x) ∨ Checklist.slugify x = "").
Proof.
  change Checklist.slugify with Gbif.slugify.
  assert (matches slug_pattern (Gbif.slugify x) ∨ Gbif.slugify x = "") as Hshape.
  { destruct (slugify_shape x) as [-> | H]; [by right|].
    left. by apply runs_matches. }
  by rewrite slugify_idem.
Qed.

(** ** Characters of the pieces of a label *)

Lemma char_in_lstrip c p s :
  char_in c (lstrip_by p s) = true → char_in c s = true.
Proof.
  induction s as [|d s IH]; simpl; [done|].
  destruct (p d); [|done]. intros H. rewrite (IH H). apply orb_true_r.
Qed.

Lemma char_in_rstrip c p s :
  char_in c (rstrip_by p s) = true → char_in c s = true.
Proof.
  induction s as [|d s IH]; simpl; [done|].
  destruct (p d && negb (truthy (rstrip_by p s))); simpl; [done|].
  destruct (Ascii.eqb c d); [done|]. apply IH.
Qed.

Lemma char_in_strip c s : char_in c (strip s) = true → char_in c s = true.
Proof. intros H. by apply char_in_rstrip, char_in_lstrip in H. Qed.

Lemma char_in_truthy c s : char_in c s = true → truthy s = true.
Proof. by destruct s. Qed.

Lemma lstrip_keeps c p s :
  p c = false → char_in c s = true → char_in c (lstrip_by p s) = true.
Proof.
  intros Hc. induction s as [|d s IH]; simpl; [done|].
  destruct (p d) eqn:Hd; [|done].
  destruct (Ascii.eqb c d) eqn:Hcd; [|done].
  apply Ascii.eqb_eq in Hcd. congruence.
Qed.

Lemma rstrip_keeps c p s :
  p c = false → char_in c s = true → char_in c (rstrip_by p s) = true.
Proof.
  intros Hc. induction s as [|d s IH]; simpl; [done|].
  destruct (Ascii.eqb c d) eqn:Hcd; simpl.
  - apply Ascii.eqb_eq in Hcd. subst d. rewrite Hc. simpl.
    by rewrite Ascii.eqb_refl.
  - intros H. specialize (IH H). rewrite (char_in_truthy _ _ IH), andb_false_r.
    simpl. by rewrite Hcd.
Qed.

Lemma strip_keeps c s :
  isspace c = false → char_in c s = true → char_in c (strip s) = true.
Proof. intros Hc H. by apply rstrip_keeps, lstrip_keeps. Qed.

Lemma split1_head c d s :
  item (split1 c (String d s)) 0
  = if Ascii.eqb c d then "" else String d (item (split1 c s) 0).
Proof.
  simpl. destruct (Ascii.eqb c d); [done|]. by destruct (split1 c s).
Qed.

(** The two pieces of [split1] exist when the separator occurs. *)
Lemma split1_length c s :
  List.length (split1 c s) = if char_in c s then 2 else 1.
Proof.
  induction s as [|d s IH]; simpl; [done|].
  destruct (Ascii.eqb c d); simpl; [done|].
  destruct (split1 c s); simpl in *; [by destruct (char_in c s)|done].
Qed.

Lemma char_in_split1_head c s : char_in c (item (split1 c s) 0) = false.
Proof.
  induction s as [|d s IH]; [done|]. rewrite split1_head.
  destruct (Ascii.eqb c d) eqn:Hcd; [done|]. simpl. by rewrite Hcd.
Qed.

Lemma char_in_replace c old s : ∀ skip,
  char_in c (replace_from old "" skip s) = true → char_in c s = true.
Proof.
  induction s as [|d s IH]; intros skip; [done|].
  cbn [replace_from char_in]. destruct skip as [|k].
  - destruct (startswith old (String d s)); cbn [String.app char_in].
    + intros H. rewrite (IH _ H). apply orb_true_r.
    + destruct (Ascii.eqb c d); [done|]. apply IH.
  - intros H. rewrite (IH _ H). apply orb_true_r.
Qed.

Lemma char_in_re_split c sep s : ∀ piece,
  piece ∈ re_split sep s → char_in c piece = true → char_in c s = true.
Proof.
  induction s as [|d s IH]; intros piece; simpl.
  - intros ->%list_elem_of_singleton. done.
  - destruct (sep d).
    + intros [->|Hin]%elem_of_cons; [done|]. intros H.
      rewrite (IH _ Hin H). apply orb_true_r.
    + destruct (re_split sep s) as [|first rest] eqn:Hs.
      * intros ->%list_elem_of_singleton. simpl. rewrite orb_false_r. by intros ->.
      * intros [->|Hin]%elem_of_cons; simpl.
        -- destruct (Ascii.eqb c d); [done|]. apply IH. by left.
        -- intros H. rewrite (IH piece); [apply orb_true_r| by right | done].
Qed.

Lemma lower_char_paren d :
  Ascii.eqb "(" (lower_char d) = Ascii.eqb "(" d
  ∧ Ascii.eqb ")" (lower_char d) = Ascii.eqb ")" d.
Proof. destruct d as [[] [] [] [] [] [] [] []]; by vm_compute. Qed.

Lemma char_in_lower_paren s :
  char_in "(" (lower s) = char_in "(" s ∧ char_in ")" (lower s) = char_in ")" s.
Proof.
  induction s as [|d s [IH1 IH2]]; simpl; [done|].
  destruct (lower_char_paren d) as [-> ->]. by rewrite IH1, IH2.
Qed.

(** ** The loops of the candidate expander *)

Lemma append_parts_app parts : ∀ candidates,
  Gbif.append_parts candidates parts = candidates ++ Gbif.append_parts [] parts.
Proof.
  induction parts as [|part rest IH]; intros candidates; simpl.
  - by rewrite app_nil_r.
  - destruct (truthy (strip part)); [|apply IH].
    rewrite (IH (candidates ++ _)), (IH [_]). by rewrite <- app_assoc.
Qed.

Lemma append_parts_elem parts : ∀ e,
  e ∈ Gbif.append_parts [] parts → ∃ part, part ∈ parts ∧ e = strip part.
Proof.
  induction parts as [|part rest IH]; intros e; simpl.
  - by intros ?%elem_of_nil.
  - destruct (truthy (strip part)).
    + rewrite append_parts_app. intros [->%list_elem_of_singleton|Hin]%elem_of_app.
      * exists part. split; [by left|done].
      * destruct (IH _ Hin) as (p & ? & ?). exists p. split; [by right|done].
    + intros Hin. destruct (IH _ Hin) as (p & ? & ?). exists p. split; [by right|done].
Qed.

Lemma dedupe_first c rest :
  Gbif.dedupe ∅ (c :: rest) = c :: Gbif.dedupe {[lower c]} rest.
Proof.
  simpl. destruct (decide (lower c ∈ (∅ : gset string))) as [Hin|_].
  { by apply not_elem_of_empty in Hin. }
  by rewrite (right_id_L ∅ (∪)).
Qed.

Lemma dedupe_snoc l x : ∀ seen,
  lower x ∉ seen → (∀ e, e ∈ l → lower e ≠ lower x) →
  Gbif.dedupe seen (l ++ [x]) = Gbif.dedupe seen l ++ [x].
Proof.
  induction l as [|c l IH]; intros seen Hx Hl; simpl.
  - by destruct (decide (lower x ∈ seen)).
  - assert (lower c ≠ lower x) as Hc by (apply Hl; by left).
    assert (∀ e, e ∈ l → lower e ≠ lower x) as Hl' by (intros e He; apply Hl; by right).
    destruct (decide (lower c ∈ seen)); [by apply IH|].
    simpl. f_equal. apply IH; [|done].
    rewrite elem_of_union, elem_of_singleton. intros [?|?]; [congruence|done].
Qed.

(** In a label with parentheses, no derived candidate has the
    lower-cased form of the label: the prefix has no opening
    parenthesis and the pieces of the clause have no closing one. *)
Lemma derived_candidates_differ raw e :
  char_in "(" raw = true → char_in ")" raw = true →
  e ∈ Gbif.append_parts
        (if truthy (strip (item (split1 "(" raw) 0))
         then [strip (item (split1 "(" raw) 0)] else [])
        (re_split synonym_sep
           (replace "syn." "" (item (split1 ")" (item (split1 "(" raw) 1)) 0))) →
  lower e ≠ lower raw.
Proof.
  intros Hopen Hclose Hin Heq.
  destruct (char_in_lower_paren e) as [Ho Hc].
  destruct (char_in_lower_paren raw) as [Ho' Hc'].
  rewrite Heq, Ho', Hopen in Ho. rewrite Heq, Hc', Hclose in Hc.
  rewrite append_parts_app in Hin. apply elem_of_app in Hin as [Hin|Hin].
  - destruct (truthy _); [|by apply elem_of_nil in Hin].
    apply list_elem_of_singleton in Hin. subst e. symmetry in Ho.
    apply char_in_strip in Ho. by rewrite char_in_split1_head in Ho.
  - apply append_parts_elem in Hin as (part & Hpart & ->). symmetry in Hc.
    apply char_in_strip in Hc. apply (char_in_re_split _ _ _ _ Hpart) in Hc.
    apply char_in_replace in Hc. by rewrite char_in_split1_head in Hc.
Qed.

(** The list before the order-preserving deduplication: the derived
    candidates, then the stripped label unless it is among them. *)
Lemma parse_candidate_names_last label :
  last (Gbif.parse_candidate_names label) = Some (strip label).
Proof.
  unfold Gbif.parse_candidate_names. cbv zeta.
  set (raw := strip label).
  destruct (char_in "(" raw && char_in ")" raw) eqn:Hparen.
  - apply andb_prop in Hparen as [Hopen Hclose].
    pose proof (derived_candidates_differ raw) as Hdiff.
    specialize (λ e, Hdiff e Hopen Hclose).
    destruct (decide (raw ∈ _)) as [Hin|_]; [by destruct (Hdiff _ Hin)|].
    rewrite dedupe_snoc; [apply last_snoc| |done].
    apply not_elem_of_empty.
  - destruct (decide (raw ∈ [raw])) as [_|Hout]; [|by destruct Hout; left].
    by rewrite dedupe_first.
Qed.

(** C3 (as written it fails): the label [" a"], with a leading space,
    is not among its own candidates, which are just ["a"]. *)
Lemma raw_label_missing_from_candidates :
  Gbif.parse_candidate_names " a" = ["a"]
  ∧ (" a" ∉ Gbif.parse_candidate_names " a")
  ∧ (" a" ∉ Checklist.parse_candidate_names " a").
Proof.
  assert (Gbif.parse_candidate_names " a" = ["a"]) as H by (by vm_compute).
  pose proof (parse_candidate_names_agree " a") as Hsame.
  split; [done|]. split; [|rewrite Hsame]; rewrite H;
    by intros ?%list_elem_of_singleton.
Qed.

(** C3 (amended): for every label, the label stripped of its leading
    and trailing white space is the last element of the candidate
    list, hence one of the candidates; so in both scripts. *)
Theorem stripped_label_is_last_candidate (label : string) :
  last (Gbif.parse_candidate_names label) = Some (strip label)
  ∧ strip label ∈ Gbif.parse_candidate_names label
  ∧ last (Checklist.parse_candidate_names label) = Some (strip label)
  ∧ strip label ∈ Checklist.parse_candidate_names label.
Proof.
  pose proof (parse_candidate_names_last label) as Hlast.
  assert (strip label ∈ Gbif.parse_candidate_names label) as Hin.
  { apply last_Some in Hlast as [l' ->]. apply elem_of_app. right. by left. }
  pose proof (parse_candidate_names_agree label) as Hsame.
  repeat split; try done; by rewrite Hsame.
Qed.

(** C8 (as written it fails): the label [" ()"], whose prefix and
    clause are both empty, has a candidate list that is not empty,
    but the label itself is not in it: the one candidate is ["()"],
    the label without its leading space. *)
Lemma fallback_is_not_the_raw_label :
  Gbif.parse_candidate_names " ()" = ["()"]
  ∧ Gbif.parse_candidate_names " ()" ≠ []
  ∧ " ()" ∉ Gbif.parse_candidate_names " ()".
Proof.
  assert (Gbif.parse_candidate_names " ()" = ["()"]) as H by (by vm_compute).
  rewrite H. split; [done|]. split; [done|]. by intros ?%list_elem_of_singleton.
Qed.

(** C8 (amended): the candidate list of every label is non-empty,
    because the label stripped of its leading and trailing white
    space is always in it, as the fallback candidate; the empty label
    yields the empty string as its only candidate, and ["()"], whose
    prefix and clause are both empty, yields itself. *)
Theorem parse_candidate_names_nonempty :
  (∀ label, Gbif.parse_candidate_names label ≠ []
            ∧ strip label ∈ Gbif.parse_candidate_names label)
  ∧ Gbif.parse_candidate_names "" = [""]
  ∧ Gbif.parse_candidate_names "()" = ["()"].
Proof.
  split; [|split; by vm_compute].
  intros label. pose proof (parse_candidate_names_last label) as Hlast. split.
  - intros Hnil. by rewrite Hnil in Hlast.
  - apply last_Some in Hlast as [l' ->]. apply elem_of_app. right. by left.
Qed.

(** ** The text before the first parenthesis *)

Lemma split1_head_lstrip c p s :
  p c = false →
  item (split1 c (lstrip_by p s)) 0 = lstrip_by p (item (split1 c s) 0).
Proof.
  intros Hc. induction s as [|d s IH]; [done|].
  rewrite split1_head. cbn [lstrip_by].
  destruct (p d) eqn:Hd.
  - destruct (Ascii.eqb c d) eqn:Hcd.
    + apply Ascii.eqb_eq in Hcd. congruence.
    + cbn [lstrip_by]. by rewrite Hd.
  - rewrite split1_head. destruct (Ascii.eqb c d); [done|].
    cbn [lstrip_by]. by rewrite Hd.
Qed.

Lemma split1_head_rstrip c p s :
  p c = false → char_in c s = true →
  item (split1 c (rstrip_by p s)) 0 = item (split1 c s) 0.
Proof.
  intros Hc. induction s as [|d s IH]; [done|].
  cbn [rstrip_by char_in]. rewrite split1_head.
  destruct (Ascii.eqb c d) eqn:Hcd.
  - apply Ascii.eqb_eq in Hcd. subst d. intros _. rewrite Hc. cbn [andb].
    rewrite split1_head. by rewrite Ascii.eqb_refl.
  - cbn [orb]. intros Hin.
    rewrite (char_in_truthy _ _ (rstrip_keeps c p s Hc Hin)), andb_false_r.
    rewrite split1_head, Hcd. by rewrite IH.
Qed.

Lemma lstrip_idem p s : lstrip_by p (lstrip_by p s) = lstrip_by p s.
Proof.
  induction s as [|d s IH]; [done|]. cbn [lstrip_by].
  destruct (p d) eqn:Hd; [done|]. cbn [lstrip_by]. by rewrite Hd.
Qed.

(** Stripping the label first does not change the stripped text
    before its first parenthesis. *)
Lemma stripped_prefix label :
  char_in "(" label = true →
  strip (item (split1 "(" (strip label)) 0) = strip (item (split1 "(" label) 0).
Proof.
  intros Hopen. unfold strip at 2. unfold strip_by.
  rewrite split1_head_rstrip; [|done|by apply lstrip_keeps].
  rewrite split1_head_lstrip; [|done].
  unfold strip, strip_by. by rewrite lstrip_idem.
Qed.

(** C2 (as written it fails): the label ["(a)"] has a parenthetical
    clause, the trimmed text before its parenthesis is empty, and its
    first candidate is ["a"]. *)
Lemma first_candidate_not_the_empty_prefix :
  char_in "(" "(a)" = true ∧ char_in ")" "(a)" = true
  ∧ strip (item (split1 "(" "(a)") 0) = ""
  ∧ head (Gbif.parse_candidate_names "(a)") = Some "a"
  ∧ head (Gbif.parse_candidate_names "(a)")
    ≠ Some (strip (item (split1 "(" "(a)") 0)).
Proof. vm_compute. done. Qed.

(** C2 (amended): for every label with both parentheses whose trimmed
    text before the first opening parenthesis is not empty, that text
    is the first candidate. *)
Theorem first_candidate_is_trimmed_prefix (label : string) :
  char_in "(" label = true → char_in ")" label = true →
  truthy (strip (item (split1 "(" label) 0)) = true →
  head (Gbif.parse_candidate_names label)
  = Some (strip (item (split1 "(" label) 0)).
Proof.
  intros Hopen Hclose Hbase.
  unfold Gbif.parse_candidate_names. cbv zeta.
  rewrite (strip_keeps "(" label), (strip_keeps ")" label) by done.
  rewrite (stripped_prefix label Hopen), Hbase. cbn [andb].
  rewrite append_parts_app.
  destruct (decide (strip label ∈ _)); cbn [app]; by rewrite dedupe_first.
Qed.

Lemma first_candidate_is_trimmed_prefix_witness :
  head (Gbif.parse_candidate_names " Amanita excelsa (syn. Amanita spissa) ")
  = Some "Amanita excelsa".
Proof.
  apply (first_candidate_is_trimmed_prefix
           " Amanita excelsa (syn. Amanita spissa) "); reflexivity.
Defined.

(** ** The media lister *)

Lemma len_snoc (urls : list string) x : len (urls ++ [x]) = (len urls + 1)%Z.
Proof. unfold len. rewrite length_app. simpl. lia. Qed.

Lemma collect_nil limit urls : collect limit urls [] = urls.
Proof. unfold collect. simpl. by rewrite take_nil, app_nil_r. Qed.

Lemma collect_full limit urls l : (limit ≤ len urls)%Z → collect limit urls l = urls.
Proof.
  intros H. unfold collect. replace (Z.to_nat (limit - len urls)) with 0 by lia.
  by rewrite take_0, app_nil_r.
Qed.

Lemma collect_seen limit urls x l :
  x ∈ urls → collect limit urls (x :: l) = collect limit urls l.
Proof.
  intros Hx. unfold collect. simpl.
  destruct (decide (x ∈ list_to_set urls)) as [_|Hout]; [done|].
  destruct Hout. by apply elem_of_list_to_set.
Qed.

Lemma collect_new limit urls x l :
  x ∉ urls → (len urls < limit)%Z →
  collect limit urls (x :: l) = collect limit (urls ++ [x]) l.
Proof.
  intros Hx Hlen. unfold collect. simpl.
  destruct (decide (x ∈ list_to_set urls)) as [Hin|_].
  { destruct Hx. by apply elem_of_list_to_set in Hin. }
  rewrite len_snoc.
  replace (Z.to_nat (limit - len urls)) with (S (Z.to_nat (limit - (len urls + 1)))) by lia.
  rewrite list_to_set_snoc_L, (comm_L (∪)). simpl. by rewrite <- app_assoc.
Qed.

Lemma collect_app limit a : ∀ urls b,
  collect limit urls (a ++ b) = collect limit (collect limit urls a) b.
Proof.
  induction a as [|x a IH]; intros urls b; simpl.
  - by rewrite collect_nil.
  - destruct (Z.le_gt_cases limit (len urls)) as [Hfull|Hroom].
    + by rewrite !(collect_full limit urls).
    + destruct (decide (x ∈ urls)).
      * by rewrite !collect_seen.
      * by rewrite !collect_new by (done || lia).
Qed.

Lemma first_occurrences_NoDup l : ∀ seen,
  NoDup (first_occurrences seen l) ∧ ∀ x, x ∈ first_occurrences seen l → x ∉ seen.
Proof.
  induction l as [|y l IH]; intros seen; simpl.
  - split; [constructor|]. by intros x ?%elem_of_nil.
  - destruct (decide (y ∈ seen)); [apply IH|].
    destruct (IH ({[y]} ∪ seen)) as [Hnd Hout]. split.
    + constructor; [|done]. intros Hin. apply (Hout _ Hin).
      apply elem_of_union. left. by apply elem_of_singleton.
    + intros x [->|Hin]%elem_of_cons; [done|]. intros Hx. apply (Hout _ Hin).
      apply elem_of_union. by right.
Qed.

Lemma scan_media_collect limit medias : ∀ urls,
  (len urls < limit)%Z →
  Gbif.scan_media limit medias urls (list_to_set urls)
  = (collect limit urls (media_urls medias),
     list_to_set (collect limit urls (media_urls medias))).
Proof.
  induction medias as [|m rest IH]; intros urls Hroom; simpl.
  - by rewrite collect_nil.
  - destruct (Gbif.media_url m) as [url|]; [|by apply IH].
    destruct (truthy url); simpl; [|by apply IH].
    destruct (decide (url ∈ list_to_set urls)) as [Hin|Hout].
    + apply elem_of_list_to_set in Hin. rewrite collect_seen by done. by apply IH.
    + rewrite elem_of_list_to_set in Hout. rewrite collect_new by done.
      replace ({[url]} ∪ list_to_set urls : gset string)
        with (list_to_set (urls ++ [url]) : gset string)
        by (by rewrite list_to_set_snoc_L, (comm_L (∪))).
      destruct (len (urls ++ [url]) >=? limit)%Z eqn:Hfull.
      * rewrite collect_full by lia. done.
      * apply IH. lia.
Qed.

Lemma scan_records_collect limit records : ∀ urls,
  (len urls < limit)%Z →
  Gbif.scan_records limit records urls (list_to_set urls)
  = (collect limit urls (page_urls records),
     list_to_set (collect limit urls (page_urls records))).
Proof.
  induction records as [|record rest IH]; intros urls Hroom; simpl.
  - by rewrite collect_nil.
  - rewrite scan_media_collect by done. rewrite collect_app.
    destruct (len (collect limit urls _) >=? limit)%Z eqn:Hfull.
    + rewrite (collect_full _ (collect _ _ _)) by lia. done.
    + apply IH. lia.
Qed.

#[local] Arguments Gbif.get_count : simpl never.

Lemma fetch_media_urls_loop_full fuel w taxon_key limit urls seen offset :
  (limit ≤ len urls)%Z →
  Gbif.fetch_media_urls_loop fuel w taxon_key limit urls seen offset = Ret urls.
Proof.
  intros Hfull. destruct fuel; simpl;
    by destruct (Z.ltb_spec (len urls) limit) as [Hlt|_]; [lia|].
Qed.

Lemma fetch_media_urls_loop_collect w taxon_key limit fuel : ∀ urls offset found,
  Gbif.fetch_media_urls_loop fuel w taxon_key limit urls (list_to_set urls) offset
  = Ret found →
  found = collect limit urls (listed_urls fuel w taxon_key offset).
Proof.
  induction fuel as [|fuel IH]; intros urls offset found; simpl.
  - destruct (len urls <? limit)%Z eqn:Hroom; [done|].
    intros [= <-]. by rewrite collect_nil.
  - destruct (len urls <? limit)%Z eqn:Hroom.
    2:{ intros [= <-]. rewrite collect_full; [done|lia]. }
    destruct (Gbif.occurrence_search w taxon_key offset) as [payload| |]; simpl; [|done..].
    destruct (default [] (Gbif.results payload)) as [|record rest] eqn:Hres.
    { intros [= <-]. by rewrite collect_nil. }
    rewrite scan_records_collect by lia.
    destruct (Gbif.get_count payload) as [total|]; [|done].
    rewrite collect_app.
    destruct (_ >=? _)%Z.
    + intros [= <-]. by rewrite collect_nil.
    + apply IH.
Qed.

(** The loop returns as soon as it holds [limit] URLs: when the first
    [k] pages list that many, [k] requests are enough. *)
Lemma fetch_media_urls_loop_stops w taxon_key limit k : ∀ fuel urls offset,
  (k ≤ fuel)%nat →
  (limit ≤ len (collect limit urls (listed_urls k w taxon_key offset)))%Z →
  Gbif.fetch_media_urls_loop fuel w taxon_key limit urls (list_to_set urls) offset
  = Ret (collect limit urls (listed_urls k w taxon_key offset)).
Proof.
  induction k as [|k IH]; intros fuel urls offset Hfuel Hfull.
  { simpl in *. rewrite collect_nil in *. by apply fetch_media_urls_loop_full. }
  destruct (Z.le_gt_cases limit (len urls)) as [Hdone|Hroom].
  { rewrite collect_full by done. by apply fetch_media_urls_loop_full. }
  destruct fuel as [|fuel]; [lia|].
  cbn [Gbif.fetch_media_urls_loop listed_urls] in *.
  destruct (Z.ltb_spec (len urls) limit) as [_|?]; [|lia].
  destruct (Gbif.occurrence_search w taxon_key offset) as [payload| |]; simpl in *;
    [|rewrite collect_nil in Hfull; lia..].
  destruct (default [] (Gbif.results payload)) as [|record rest] eqn:Hres.
  { rewrite collect_nil in Hfull. lia. }
  rewrite scan_records_collect by lia.
  destruct (Gbif.get_count payload) as [total|]; [|rewrite collect_nil in Hfull; lia].
  rewrite collect_app in *.
  destruct (_ >=? _)%Z.
  - by rewrite collect_nil.
  - apply IH; [lia|done].
Qed.

(** The pages listed depend on the answers to the requests for them
    and on no other. *)
Lemma listed_urls_agree w w' taxon_key k : ∀ offset,
  (∀ o, o ∈ page_offsets k w taxon_key offset →
        Gbif.occurrence_search w' taxon_key o = Gbif.occurrence_search w taxon_key o) →
  listed_urls k w' taxon_key offset = listed_urls k w taxon_key offset.
Proof.
  induction k as [|k IH]; intros offset Hsame; [done|].
  cbn [listed_urls page_offsets] in *.
  rewrite (Hsame offset) by (by left).
  destruct (Gbif.occurrence_search w taxon_key offset) as [payload| |]; [|done..].
  cbv zeta in *.
  destruct (default [] (Gbif.results payload)) as [|record rest]; [done|].
  destruct (Gbif.get_count payload) as [total|]; [|done].
  destruct (_ >=? _)%Z; [done|]. f_equal. apply IH.
  intros o Ho. apply Hsame. by right.
Qed.

(** The scan of a record, and of a page, ends with the URL that
    brings the list to [limit]: what follows is not looked at. *)
Lemma scan_media_stops limit medias more : ∀ urls seen,
  (len urls < limit)%Z →
  (limit ≤ len (Gbif.scan_media limit medias urls seen).1)%Z →
  Gbif.scan_media limit (medias ++ more) urls seen
  = Gbif.scan_media limit medias urls seen.
Proof.
  induction medias as [|m rest IH]; intros urls seen Hroom Hfull; simpl in *; [lia|].
  destruct (Gbif.media_url m) as [url|]; [|by apply IH].
  destruct (truthy url); simpl in *; [|by apply IH].
  destruct (decide (url ∈ seen)); [by apply IH|].
  destruct (len (urls ++ [url]) >=? limit)%Z eqn:Hnow; [done|].
  apply IH; [lia|done].
Qed.

Lemma scan_records_stops limit records more : ∀ urls seen,
  (len urls < limit)%Z →
  (limit ≤ len (Gbif.scan_records limit records urls seen).1)%Z →
  Gbif.scan_records limit (records ++ more) urls seen
  = Gbif.scan_records limit records urls seen.
Proof.
  induction records as [|record rest IH]; intros urls seen Hroom Hfull; simpl in *; [lia|].
  destruct (Gbif.scan_media limit _ urls seen) as [urls1 seen1].
  destruct (len urls1 >=? limit)%Z eqn:Hnow; [done|].
  apply IH; [lia|done].
Qed.

(** The loop ends when the backend answers every request and reports
    counts of at most [bound]: every further page moves the offset by
    at least one. *)
Lemma fetch_media_urls_loop_returns w taxon_key limit bound fuel :
  (∀ offset, ∃ payload total,
      Gbif.occurrence_search w taxon_key offset = Ret payload
      ∧ Gbif.get_count payload = Some total ∧ (total ≤ bound)%Z) →
  ∀ urls seen offset,
    (Z.max 0 (bound - offset) < Z.of_nat fuel)%Z →
    ∃ found,
      Gbif.fetch_media_urls_loop fuel w taxon_key limit urls seen offset = Ret found.
Proof.
  intros Hw. induction fuel as [|fuel IH]; intros urls seen offset Hfuel; [lia|].
  simpl. destruct (len urls <? limit)%Z; [|by eexists].
  destruct (Hw offset) as (payload & total & -> & Htotal & Hcount). simpl.
  destruct (default [] (Gbif.results payload)) as [|record rest]; [by eexists|].
  destruct (Gbif.scan_records _ _ _ _) as [urls' seen']. rewrite Htotal.
  destruct (_ >=? _)%Z eqn:Hmore; [by eexists|].
  apply IH. rewrite Z.geb_leb in Hmore. apply Z.leb_gt in Hmore.
  assert (1 ≤ len (record :: rest))%Z by (unfold len; cbn [List.length]; lia).
  lia.
Qed.

(** C4: for every taxon key, target count [N >= 0] and backend, the
    list [fetch_media_urls] returns has at most [N] elements, no
    element twice, and is the first [N] (or all, if fewer) of the
    distinct URLs in the order in which the backend lists them page
    after page.  Collection stops as soon as [N] URLs are held: when
    the first [k] pages list [N] distinct URLs, the list is returned
    after the requests for these pages, at most [k], whatever the
    backend would answer to any other request, an exception
    included; and within a page the scan ends with the [N]-th URL,
    the records and the media after it not being looked at. *)
Theorem fetch_media_urls_bounded_and_distinct
        (w : Gbif.World) (taxon_key N : Z) :
  (0 ≤ N)%Z →
  (∀ fuel urls,
      Gbif.fetch_media_urls fuel w taxon_key N = Ret urls →
      (len urls ≤ N)%Z
      ∧ NoDup urls
      ∧ urls = take (Z.to_nat N) (first_occurrences ∅ (listed_urls fuel w taxon_key 0)))
  ∧ (∀ k w' fuel,
        (N ≤ len (first_occurrences ∅ (listed_urls k w taxon_key 0)))%Z →
        (∀ offset, offset ∈ page_offsets k w taxon_key 0 →
                   Gbif.occurrence_search w' taxon_key offset
                   = Gbif.occurrence_search w taxon_key offset) →
        (k ≤ fuel)%nat →
        Gbif.fetch_media_urls fuel w' taxon_key N
        = Ret (take (Z.to_nat N) (first_occurrences ∅ (listed_urls k w taxon_key 0))))
  ∧ (∀ records more urls seen,
        (len urls < N)%Z →
        (N ≤ len (Gbif.scan_records N records urls seen).1)%Z →
        Gbif.scan_records N (records ++ more) urls seen
        = Gbif.scan_records N records urls seen)
  ∧ (∀ medias more urls seen,
        (len urls < N)%Z →
        (N ≤ len (Gbif.scan_media N medias urls seen).1)%Z →
        Gbif.scan_media N (medias ++ more) urls seen
        = Gbif.scan_media N medias urls seen).
Proof.
  intros HN. split_and!.
  - intros fuel urls Hret. unfold Gbif.fetch_media_urls in Hret.
    apply (fetch_media_urls_loop_collect _ _ _ _ []) in Hret.
    unfold collect in Hret. simpl in Hret. rewrite Z.sub_0_r in Hret. subst urls.
    split; [|split; [|done]].
    + unfold len. rewrite length_take. lia.
    + eapply sublist_NoDup; [|apply sublist_take].
      apply first_occurrences_NoDup.
  - intros k w' fuel Hfull Hsame Hfuel. unfold Gbif.fetch_media_urls.
    rewrite <- (listed_urls_agree w w' taxon_key k 0 Hsame) in *.
    assert (collect N [] (listed_urls k w' taxon_key 0)
            = take (Z.to_nat N) (first_occurrences ∅ (listed_urls k w' taxon_key 0)))
      as Hcollect.
    { unfold collect. simpl. by rewrite Z.sub_0_r. }
    rewrite <- Hcollect.
    apply (fetch_media_urls_loop_stops w' taxon_key N k fuel [] 0%Z Hfuel).
    rewrite Hcollect. unfold len in *. rewrite length_take. lia.
  - intros records more urls seen. apply scan_records_stops.
  - intros medias more urls seen. apply scan_media_stops.
Qed.

Lemma fetch_media_urls_bounded_and_distinct_witness :
  Gbif.fetch_media_urls 1 first_page_world 7 2
  = Ret (take (Z.to_nat 2) (first_occurrences ∅ (listed_urls 1 sample_world 7 0))).
Proof.
  destruct (fetch_media_urls_bounded_and_distinct sample_world 7 2) as (_ & Hstop & _);
    [lia|].
  apply (Hstop 1%nat first_page_world 1%nat).
  - by vm_compute.
  - intros offset ->%list_elem_of_singleton. reflexivity.
  - lia.
Defined.

(** With room for all, the lister returns the four distinct URLs of
    the two pages; asked for two, it returns them from the first page
    alone. *)
Example fetch_media_urls_sample_all :
  Gbif.fetch_media_urls 2 sample_world 7 25
  = Ret [ "https://img.example/a.jpg"; "https://img.example/b.jpg";
          "https://img.example/c.jpg"; "https://img.example/d.jpg" ]
  ∧ Gbif.fetch_media_urls 1 first_page_world 7 2
    = Ret [ "https://img.example/a.jpg"; "https://img.example/b.jpg" ]
  ∧ Gbif.fetch_media_urls 2 first_page_world 7 25 = Raise URLError.
Proof. by vm_compute. Qed.

(** ** Names of the saved files *)

Lemma string_app_cons c s t : String c s +:+ t = String c (s +:+ t).
Proof. reflexivity. Qed.

Lemma string_app_empty s : s +:+ "" = s.
Proof. induction s as [|c s IH]; [done|]. by rewrite string_app_cons, IH. Qed.

Lemma length_app_string s t :
  String.length (s +:+ t) = String.length s + String.length t.
Proof.
  induction s as [|c s IH]; [done|]. rewrite string_app_cons. simpl. by rewrite IH.
Qed.

Lemma truthy_app s t : truthy (s +:+ t) = truthy s || truthy t.
Proof. by destruct s. Qed.

Lemma char_in_app c s t : char_in c (s +:+ t) = char_in c s || char_in c t.
Proof.
  induction s as [|d s IH]; [done|]. rewrite string_app_cons. simpl.
  by rewrite IH, orb_assoc.
Qed.

Lemma rsplit1_join c s before after :
  rsplit1 c s = Some (before, after) → s = before +:+ String c after.
Proof.
  revert before after. induction s as [|d s IH]; intros before after; simpl; [done|].
  destruct (rsplit1 c s) as [[b a]|].
  - intros [= <- <-]. rewrite (IH b a eq_refl) at 1. reflexivity.
  - destruct (Ascii.eqb c d) eqn:Hcd; [|done].
    apply Ascii.eqb_eq in Hcd. by intros [= <- <-]; subst.
Qed.

(** A name is its stem followed by its suffix. *)
Lemma path_stem_suffix name : path_stem name +:+ path_suffix name = name.
Proof.
  unfold path_stem, path_suffix.
  destruct (rsplit1 "." name) as [[before after]|] eqn:Hsplit.
  - destruct (truthy before && truthy after).
    + symmetry. by apply rsplit1_join.
    + apply string_app_empty.
  - apply string_app_empty.
Qed.

Lemma pretty_N_go_no_slash x : ∀ s,
  char_in "/" s = false → char_in "/" (pretty_N_go x s) = false.
Proof.
  induction (N.lt_wf_0 x) as [x _ IH]; intros s Hs.
  assert (x = 0 ∨ 0 < x)%N as [->|Hpos] by lia.
  - by rewrite pretty_N_go_0.
  - rewrite pretty_N_go_step by done. apply IH; [by apply N.div_lt|].
    simpl. rewrite Hs. unfold pretty_N_char. by repeat case_match.
Qed.

Lemma pretty_nat_no_slash (n : nat) : char_in "/" (pretty n) = false.
Proof.
  unfold pretty, pretty_nat, pretty, pretty_N.
  destruct (decide _); [done|]. by apply pretty_N_go_no_slash.
Qed.

Lemma re_split_no_sep sep s : ∀ piece c,
  piece ∈ re_split sep s → sep c = true → char_in c piece = false.
Proof.
  induction s as [|d s IH]; intros piece c; simpl.
  - by intros ->%list_elem_of_singleton.
  - destruct (sep d) eqn:Hd.
    + intros [->|Hin]%elem_of_cons; [done|]. by apply IH.
    + destruct (re_split sep s) as [|first rest] eqn:Hs.
      * intros ->%list_elem_of_singleton Hc. simpl.
        destruct (Ascii.eqb c d) eqn:Hcd; [|done].
        apply Ascii.eqb_eq in Hcd. congruence.
      * intros [->|Hin]%elem_of_cons Hc; [|apply IH; [by right|done]].
        simpl. rewrite (IH first c); [|by left|done].
        destruct (Ascii.eqb c d) eqn:Hcd; [|done].
        apply Ascii.eqb_eq in Hcd. congruence.
Qed.

Lemma last_default_or_elem (l : list string) d :
  (l = [] ∧ List.last l d = d) ∨ List.last l d ∈ l.
Proof.
  induction l as [|x l IH]; [by left|]. right.
  destruct l as [|y l]; [by left|].
  destruct IH as [[? _]|Hin]; [done|]. by right.
Qed.

(** The last component of a path is empty, when the path has no
    component, or a text other than [.] without a slash. *)
Lemma path_name_cases p :
  path_name p = ""
  ∨ (truthy (path_name p) = true ∧ path_name p ≠ "."
     ∧ char_in "/" (path_name p) = false).
Proof.
  unfold path_name.
  destruct (last_default_or_elem
              (List.filter (λ part, truthy part && negb (String.eqb part "."))
                 (re_split (Ascii.eqb "/") p)) "") as [[_ ->]|Hin]; [by left|].
  right. apply list_elem_of_In, filter_In in Hin as [Hin Hkeep].
  apply andb_prop in Hkeep as [Ht Hdot]. split; [done|]. split.
  - intros Heq. rewrite Heq in Hdot. by vm_compute in Hdot.
  - apply (re_split_no_sep (Ascii.eqb "/") p); [by apply list_elem_of_In|done].
Qed.

Lemma stem_suffix_no_slash name :
  char_in "/" name = false →
  char_in "/" (path_stem name) = false ∧ char_in "/" (path_suffix name) = false.
Proof.
  intros Hname. rewrite <- (path_stem_suffix name), char_in_app in Hname.
  by apply orb_false_elim in Hname.
Qed.

Lemma component_joinpath dir name :
  component name → joinpath dir name = dir ++ [name].
Proof.
  intros (Ht & Hdot & _). unfold joinpath. rewrite Ht.
  destruct (String.eqb_spec name "."); done.
Qed.

Lemma component_plain name : component name → name ≠ ".." → plain name = true.
Proof.
  intros (Ht & Hdot & Hslash) Hup. unfold plain. rewrite Ht, Hslash.
  destruct (String.eqb_spec name "."); [done|].
  destruct (String.eqb_spec name ".."); done.
Qed.

(** A name that was taken is replaced by one with an underscore. *)
Lemma renamed_component stem (index : nat) suffix :
  char_in "/" stem = false → char_in "/" suffix = false →
  component (stem +:+ "_" +:+ pretty index +:+ suffix)
  ∧ stem +:+ "_" +:+ pretty index +:+ suffix ≠ "..".
Proof.
  intros Hstem Hsuffix.
  assert (char_in "_" (stem +:+ "_" +:+ pretty index +:+ suffix) = true) as Hu.
  { rewrite !char_in_app. simpl. by rewrite orb_true_r. }
  split; [split; [|split]|].
  - rewrite !truthy_app. simpl. apply orb_true_r.
  - intros Heq. rewrite Heq in Hu. by vm_compute in Hu.
  - by rewrite !char_in_app, Hstem, pretty_nat_no_slash, Hsuffix.
  - intros Heq. rewrite Heq in Hu. by vm_compute in Hu.
Qed.

Lemma gbif_filename_component w url index name :
  Gbif.filename_from_url w url index = Ret name → component name.
Proof.
  unfold Gbif.filename_from_url.
  destruct (url_path _ url) as [parsed_path|]; [|done]. cbv zeta.
  destruct (path_name_cases parsed_path) as [-> | (Ht & Hdot & Hslash)].
  - intros [= <-]. simpl. split; [done|]. split; [done|].
    rewrite !char_in_app, pretty_nat_no_slash. done.
  - rewrite Ht. by intros [= <-].
Qed.

Lemma checklist_filename_component w url index name :
  Checklist.filename_from_url w url index = Ret name → component name.
Proof.
  unfold Checklist.filename_from_url.
  destruct (url_path _ url) as [parsed_path|]; [|done]. cbv zeta.
  destruct (path_name_cases parsed_path) as [-> | (Ht & Hdot & Hslash)].
  - intros [= <-]. simpl. split; [done|]. split; [done|].
    rewrite !char_in_app, pretty_nat_no_slash. done.
  - rewrite Ht. by intros [= <-].
Qed.

(** The name [choose_filename] returns: the one of the URL, or the
    one that replaces it. *)
Lemma gbif_choose_filename_inv w url index used_names name :
  Gbif.choose_filename w url index used_names = Ret name →
  ∃ filename,
    Gbif.filename_from_url w url index = Ret filename
    ∧ (((filename ∉ used_names) ∧ name = filename)
       ∨ (filename ∈ used_names
          ∧ name = path_stem filename +:+ "_" +:+ pretty index
                   +:+ (if truthy (path_suffix filename)
                        then path_suffix filename else ".jpg"))).
Proof.
  unfold Gbif.choose_filename.
  destruct (Gbif.filename_from_url w url index) as [filename| |]; simpl; [|done..].
  destruct (decide (filename ∈ used_names)); intros [= <-]; exists filename;
    (split; [done|]); [by right|by left].
Qed.

Lemma checklist_choose_filename_inv w url index existing_names name :
  Checklist.choose_filename w url index existing_names = Ret name →
  ∃ filename,
    Checklist.filename_from_url w url index = Ret filename
    ∧ (((filename ∉ existing_names) ∧ name = filename)
       ∨ (filename ∈ existing_names
          ∧ name = path_stem filename +:+ "_" +:+ pretty index
                   +:+ path_suffix filename)).
Proof.
  unfold Checklist.choose_filename.
  destruct (Checklist.filename_from_url w url index) as [filename| |]; simpl; [|done..].
  destruct (decide (filename ∈ existing_names)); intros [= <-]; exists filename;
    (split; [done|]); [by right|by left].
Qed.

Lemma gbif_choose_filename_component w url index used_names name :
  Gbif.choose_filename w url index used_names = Ret name →
  component name
  ∧ (name = ".." → Gbif.filename_from_url w url index = Ret "..").
Proof.
  intros (filename & Hname & [[_ ->] | [_ ->]])%gbif_choose_filename_inv.
  - split; [by apply gbif_filename_component in Hname|]. by intros <-.
  - apply gbif_filename_component in Hname as (_ & _ & Hslash).
    destruct (stem_suffix_no_slash _ Hslash) as [Hstem Hsuffix].
    destruct (renamed_component (path_stem filename) index
                (if truthy (path_suffix filename) then path_suffix filename else ".jpg"))
      as [Hc Hup]; [done|by destruct (truthy _)|].
    split; [done|]. by intros Heq.
Qed.

Lemma checklist_choose_filename_component w url index existing_names name :
  Checklist.choose_filename w url index existing_names = Ret name →
  component name
  ∧ (name = ".." → Checklist.filename_from_url w url index = Ret "..").
Proof.
  intros (filename & Hname & [[_ ->] | [_ ->]])%checklist_choose_filename_inv.
  - split; [by apply checklist_filename_component in Hname|]. by intros <-.
  - apply checklist_filename_component in Hname as (_ & _ & Hslash).
    destruct (stem_suffix_no_slash _ Hslash) as [Hstem Hsuffix].
    destruct (renamed_component (path_stem filename) index (path_suffix filename))
      as [Hc Hup]; [done..|].
    split; [done|]. by intros Heq.
Qed.

(** A URL that yields a file name yields one under every set of names
    in use. *)
Lemma gbif_choose_filename_returns w url index used_names :
  file_name (Gbif.filename_from_url w url index) →
  ∃ name, Gbif.choose_filename w url index used_names = Ret name
          ∧ component name ∧ name ≠ "..".
Proof.
  intros (filename & Hname & Hup).
  destruct (Gbif.choose_filename w url index used_names) as [name| |] eqn:Hchoose.
  - exists name. split; [done|].
    destruct (gbif_choose_filename_component _ _ _ _ _ Hchoose) as [Hc Hdots].
    split; [done|]. intros Heq. specialize (Hdots Heq). congruence.
  - unfold Gbif.choose_filename in Hchoose. rewrite Hname in Hchoose. simpl in Hchoose.
    by destruct (decide _).
  - unfold Gbif.choose_filename in Hchoose. rewrite Hname in Hchoose. simpl in Hchoose.
    by destruct (decide _).
Qed.

Lemma checklist_choose_filename_returns w url index existing_names :
  file_name (Checklist.filename_from_url w url index) →
  ∃ name, Checklist.choose_filename w url index existing_names = Ret name
          ∧ component name ∧ name ≠ "..".
Proof.
  intros (filename & Hname & Hup).
  destruct (Checklist.choose_filename w url index existing_names) as [name| |] eqn:Hchoose.
  - exists name. split; [done|].
    destruct (checklist_choose_filename_component _ _ _ _ _ Hchoose) as [Hc Hdots].
    split; [done|]. intros Heq. specialize (Hdots Heq). congruence.
  - unfold Checklist.choose_filename in Hchoose. rewrite Hname in Hchoose.
    simpl in Hchoose. by destruct (decide _).
  - unfold Checklist.choose_filename in Hchoose. rewrite Hname in Hchoose.
    simpl in Hchoose. by destruct (decide _).
Qed.

(** The name that replaces a name in use is longer than it. *)
Lemma gbif_renamed_longer name (index : nat) :
  String.length name
  < String.length (path_stem name +:+ "_" +:+ pretty index
                   +:+ (if truthy (path_suffix name) then path_suffix name else ".jpg")).
Proof.
  rewrite <- (path_stem_suffix name) at 1.
  rewrite !length_app_string.
  destruct (truthy (path_suffix name)) eqn:Hs; simpl; [lia|].
  destruct (path_suffix name); [simpl; lia|done].
Qed.

Lemma checklist_renamed_longer name (index : nat) :
  String.length name
  < String.length (path_stem name +:+ "_" +:+ pretty index +:+ path_suffix name).
Proof.
  rewrite <- (path_stem_suffix name) at 1.
  rewrite !length_app_string. simpl. lia.
Qed.

(** The first two images of a run never share a name, whatever their
    URLs and positions: a name that is taken is replaced by a longer
    one.  (A third image can take the name of the first.)  So in both
    scripts. *)
Theorem first_two_filenames_differ (url1 url2 : string) (i j : nat) :
  (∀ w first second,
      Gbif.choose_filename w url1 i ∅ = Ret first →
      Gbif.choose_filename w url2 j {[first]} = Ret second →
      second ≠ first)
  ∧ (∀ w first second,
        Checklist.choose_filename w url1 i ∅ = Ret first →
        Checklist.choose_filename w url2 j {[first]} = Ret second →
        second ≠ first).
Proof.
  split; intros w first second _.
  - intros (filename & _ & [[Hout ->] | [Hin ->]])%gbif_choose_filename_inv.
    + intros <-. apply Hout. by apply elem_of_singleton.
    + apply elem_of_singleton in Hin. subst filename. intros Heq.
      pose proof (gbif_renamed_longer first j) as Hlen. rewrite Heq in Hlen. lia.
  - intros (filename & _ & [[Hout ->] | [Hin ->]])%checklist_choose_filename_inv.
    + intros <-. apply Hout. by apply elem_of_singleton.
    + apply elem_of_singleton in Hin. subst filename. intros Heq.
      pose proof (checklist_renamed_longer first j) as Hlen. rewrite Heq in Hlen. lia.
Qed.

Lemma first_two_filenames_differ_witness :
  "photo_2.jpg" ≠ "photo.jpg".
Proof.
  destruct (first_two_filenames_differ
              "https://img.example/1/photo.jpg" "https://img.example/2/photo.jpg" 1 2)
    as [Hgbif _].
  apply (Hgbif gbif_echo_world "photo.jpg" "photo_2.jpg"); reflexivity.
Defined.

(** ** The calls on the file system *)

Lemma with_ancestors_self (p : path) : p ≠ [] → p ∈ with_ancestors p.
Proof.
  induction p as [|c p IH]; [done|]. intros _. simpl.
  destruct p as [|d p]; [by left|]. right.
  apply list_elem_of_fmap. exists (d :: p). split; [done|]. by apply IH.
Qed.

Lemma mkdir_outcome refuses p st :
  mkdir refuses p st = (Ret (), State ({[p]} ∪ dirs st) (files st) (console st))
  ∨ mkdir refuses p st = (Raise OSError, st).
Proof. unfold mkdir. destruct (_ || _); [by right|by left]. Qed.

Lemma mkdir_parents_outcome refuses p st :
  mkdir_parents refuses p st
  = (Ret (), State (list_to_set (with_ancestors p) ∪ dirs st) (files st) (console st))
  ∨ mkdir_parents refuses p st = (Raise OSError, st).
Proof. unfold mkdir_parents. destruct (_ || _); [by right|by left]. Qed.

Lemma write_bytes_outcome refuses p data st :
  (write_bytes refuses p data st = (Ret (), with_file p data st)
   ∧ last p ≠ Some "..")
  ∨ write_bytes refuses p data st = (Raise OSError, st).
Proof.
  unfold write_bytes.
  destruct (refuses _); simpl; [by right|].
  destruct (is_dir st p); simpl; [by right|].
  destruct (bool_decide (last p = Some "..")) eqn:Hup; simpl; [by right|].
  apply bool_decide_eq_false in Hup.
  destruct (negb _); [by right|]. by left.
Qed.

(** A file cannot be written under the name [..]. *)
Lemma write_bytes_dot_dot refuses dir data st :
  write_bytes refuses (dir ++ [".."]) data st = (Raise OSError, st).
Proof.
  destruct (write_bytes_outcome refuses (dir ++ [".."]) data st) as [[_ Hup]|H]; [|done].
  destruct Hup. apply last_snoc.
Qed.

Lemma download_image_unfold w url destination st :
  Gbif.download_image w url destination st
  = match mkdir_parents (Gbif.os_refuses w) (parent destination) st with
    | (Ret _, st1) =>
        match Gbif.fetch_bytes w url with
        | Ret data => write_bytes (Gbif.os_refuses w) destination data st1
        | Raise e => (Raise e, st1)
        | OutOfFuel => (OutOfFuel, st1)
        end
    | (Raise e, st1) => (Raise e, st1)
    | (OutOfFuel, st1) => (OutOfFuel, st1)
    end.
Proof.
  unfold Gbif.download_image, mbind, M_bind, lift.
  destruct (mkdir_parents _ _ st) as [[[]|e|] st1]; [|done..].
  by destruct (Gbif.fetch_bytes w url).
Qed.

Lemma checklist_download_image_unfold w url destination st :
  Checklist.download_image w url destination st
  = match mkdir_parents (Checklist.os_refuses w) (parent destination) st with
    | (Ret _, st1) =>
        match Checklist.fetch_bytes w url with
        | Ret data => write_bytes (Checklist.os_refuses w) destination data st1
        | Raise e => (Raise e, st1)
        | OutOfFuel => (OutOfFuel, st1)
        end
    | (Raise e, st1) => (Raise e, st1)
    | (OutOfFuel, st1) => (OutOfFuel, st1)
    end.
Proof.
  unfold Checklist.download_image, mbind, M_bind, lift.
  destruct (mkdir_parents _ _ st) as [[[]|e|] st1]; [|done..].
  by destruct (Checklist.fetch_bytes w url).
Qed.

(** The outcomes of [download_image]: the file is written in the
    directory made for it, or an exception is raised and no file has
    changed. *)
Lemma download_image_outcome w url destination st :
  (∃ data, Gbif.fetch_bytes w url = Ret data
           ∧ last destination ≠ Some ".."
           ∧ Gbif.download_image w url destination st
             = (Ret (), with_file destination data (with_parent_of destination st)))
  ∨ (∃ e, Gbif.download_image w url destination st = (Raise e, st)
          ∨ Gbif.download_image w url destination st
            = (Raise e, with_parent_of destination st))
  ∨ Gbif.download_image w url destination st
    = (OutOfFuel, with_parent_of destination st).
Proof.
  rewrite download_image_unfold.
  destruct (mkdir_parents_outcome (Gbif.os_refuses w) (parent destination) st)
    as [-> | ->]; [|right; left; exists OSError; by left].
  fold (with_parent_of destination st).
  destruct (Gbif.fetch_bytes w url) as [data|e|].
  - destruct (write_bytes_outcome (Gbif.os_refuses w) destination data
                (with_parent_of destination st)) as [[-> Hup] | ->].
    + left. by exists data.
    + right. left. exists OSError. by right.
  - right. left. exists e. by right.
  - by right; right.
Qed.

Lemma checklist_download_image_outcome w url destination st :
  (∃ data, Checklist.fetch_bytes w url = Ret data
           ∧ last destination ≠ Some ".."
           ∧ Checklist.download_image w url destination st
             = (Ret (), with_file destination data (with_parent_of destination st)))
  ∨ (∃ e, Checklist.download_image w url destination st = (Raise e, st)
          ∨ Checklist.download_image w url destination st
            = (Raise e, with_parent_of destination st))
  ∨ Checklist.download_image w url destination st
    = (OutOfFuel, with_parent_of destination st).
Proof.
  rewrite checklist_download_image_unfold.
  destruct (mkdir_parents_outcome (Checklist.os_refuses w) (parent destination) st)
    as [-> | ->]; [|right; left; exists OSError; by left].
  fold (with_parent_of destination st).
  destruct (Checklist.fetch_bytes w url) as [data|e|].
  - destruct (write_bytes_outcome (Checklist.os_refuses w) destination data
                (with_parent_of destination st)) as [[-> Hup] | ->].
    + left. by exists data.
    + right. left. exists OSError. by right.
  - right. left. exists e. by right.
  - by right; right.
Qed.

(** ** A download that fails *)

Lemma download_image_raises w url destination st e :
  Gbif.fetch_bytes w url = Raise e →
  files (Gbif.download_image w url destination st).2 = files st
  ∧ ((mkdir_parents (Gbif.os_refuses w) (parent destination) st).1 = Ret () →
     Gbif.download_image w url destination st
     = (Raise e, with_parent_of destination st)).
Proof.
  intros Hfetch. rewrite download_image_unfold, Hfetch.
  by destruct (mkdir_parents_outcome (Gbif.os_refuses w) (parent destination) st)
    as [-> | ->].
Qed.

Lemma checklist_download_image_raises w url destination st e :
  Checklist.fetch_bytes w url = Raise e →
  files (Checklist.download_image w url destination st).2 = files st
  ∧ ((mkdir_parents (Checklist.os_refuses w) (parent destination) st).1 = Ret () →
     Checklist.download_image w url destination st
     = (Raise e, with_parent_of destination st)).
Proof.
  intros Hfetch. rewrite checklist_download_image_unfold, Hfetch.
  by destruct (mkdir_parents_outcome (Checklist.os_refuses w) (parent destination) st)
    as [-> | ->].
Qed.

(** One round of the download loop, by the name of the file and the
    outcome of [download_image]. *)
Lemma save_loop_step w target_dir index url rest used_names st :
  Gbif.save_loop w target_dir index (url :: rest) used_names st
  = match Gbif.choose_filename w url index used_names with
    | Ret filename =>
        let destination := joinpath target_dir filename in
        let go_on line st' :=
          Gbif.save_loop w target_dir (S index) rest ({[filename]} ∪ used_names)
                         (with_line line st') in
        match Gbif.download_image w url destination st with
        | (Ret _, st') => go_on (Saved destination) st'
        | (Raise HTTPError, st') => go_on (FailedToDownload url) st'
        | (Raise URLError, st') => go_on (ErrorDownloading url) st'
        | (Raise e, st') => (Raise e, st')
        | (OutOfFuel, st') => (OutOfFuel, st')
        end
    | Raise e => (Raise e, st)
    | OutOfFuel => (OutOfFuel, st)
    end.
Proof.
  cbn [Gbif.save_loop].
  unfold mbind at 1, M_bind at 1, lift.
  destruct (Gbif.choose_filename w url index used_names) as [filename| |]; [|done..].
  cbv zeta. unfold mbind, M_bind, try_except, print, mret, M_ret, with_line.
  by destruct (Gbif.download_image _ _ _ _) as [[[]|[]|] st'].
Qed.

(** C9 (as written it fails): when the request for the first of two
    images times out, the loop of [save_images_for_species] ends with
    that exception; the second image, which could be downloaded, is
    never requested, and nothing is printed. *)
Lemma timeout_is_not_caught :
  Gbif.fetch_bytes stalling_world "https://img.example/a.jpg" = Raise TimeoutError
  ∧ Gbif.fetch_bytes stalling_world "https://img.example/b.jpg"
    = Ret (list_byte_of_string "https://img.example/b.jpg")
  ∧ (let run := Gbif.save_loop stalling_world ["gbif_images"; "amanita"] 1
                  ["https://img.example/a.jpg"; "https://img.example/b.jpg"]
                  ∅ initial_state in
     run.1 = Raise TimeoutError
     ∧ files run.2 = ∅
     ∧ console run.2 = []).
Proof. vm_compute. done. Qed.

(** C9 (amended): when the request inside [download_image] raises an
    exception, no file is created or modified, in both scripts.  The
    request is made once the parent directory of the destination is
    in place, and then [download_image] raises the exception of the
    request; when that is an [HTTPError] or a [URLError], the loop of
    [save_images_for_species] prints the failure and goes on with the
    next URL, and every other exception ends the loop. *)
Theorem failed_download_leaves_no_file
        (w : Gbif.World) (url : string) (destination : path) (st : state) (e : exn) :
  Gbif.fetch_bytes w url = Raise e →
  files (Gbif.download_image w url destination st).2 = files st
  ∧ ((mkdir_parents (Gbif.os_refuses w) (parent destination) st).1 = Ret () →
     Gbif.download_image w url destination st
     = (Raise e, with_parent_of destination st)
     ∧ (parent destination ≠ [] →
        parent destination ∈ dirs (with_parent_of destination st))
     ∧ (∀ target_dir index rest used_names filename,
          Gbif.choose_filename w url index used_names = Ret filename →
          destination = joinpath target_dir filename →
          let go_on line :=
            Gbif.save_loop w target_dir (S index) rest ({[filename]} ∪ used_names)
              (with_line line (with_parent_of destination st)) in
          match e with
          | HTTPError =>
              Gbif.save_loop w target_dir index (url :: rest) used_names st
              = go_on (FailedToDownload url)
          | URLError =>
              Gbif.save_loop w target_dir index (url :: rest) used_names st
              = go_on (ErrorDownloading url)
          | _ =>
              Gbif.save_loop w target_dir index (url :: rest) used_names st
              = (Raise e, with_parent_of destination st)
          end))
  ∧ (∀ w', Checklist.fetch_bytes w' url = Raise e →
           files (Checklist.download_image w' url destination st).2 = files st
           ∧ ((mkdir_parents (Checklist.os_refuses w') (parent destination) st).1
              = Ret () →
              Checklist.download_image w' url destination st
              = (Raise e, with_parent_of destination st))).
Proof.
  intros Hfetch.
  destruct (download_image_raises w url destination st e Hfetch) as [Hfiles Hraise].
  split; [done|]. split; [|intros w'; apply checklist_download_image_raises].
  intros Hmade. specialize (Hraise Hmade). split; [done|]. split.
  { intros Hp. simpl. apply elem_of_union. left.
    by apply elem_of_list_to_set, with_ancestors_self. }
  intros target_dir index rest used_names filename Hname ->. cbv zeta.
  destruct e; rewrite save_loop_step, Hname; cbv zeta; by rewrite Hraise.
Qed.

Lemma failed_download_leaves_no_file_witness :
  Gbif.download_image sample_world "https://img.example/b.jpg"
                      ["gbif_images"; "amanita"; "b.jpg"] initial_state
  = (Raise HTTPError,
     with_parent_of ["gbif_images"; "amanita"; "b.jpg"] initial_state).
Proof.
  destruct (failed_download_leaves_no_file
              sample_world "https://img.example/b.jpg"
              ["gbif_images"; "amanita"; "b.jpg"] initial_state HTTPError)
    as (_ & Hreached & _); [reflexivity|].
  apply Hreached. reflexivity.
Defined.

(** ** More on the candidate expander *)

Lemma dedupe_keys candidates : ∀ seen,
  NoDup (lower <$> Gbif.dedupe seen candidates)
  ∧ (∀ c, c ∈ Gbif.dedupe seen candidates → (lower c ∉ seen) ∧ c ∈ candidates).
Proof.
  induction candidates as [|c rest IH]; intros seen; simpl.
  - split; [constructor|]. by intros c ?%elem_of_nil.
  - destruct (decide (lower c ∈ seen)) as [Hin|Hout].
    + destruct (IH seen) as [Hnd Hel]. split; [done|].
      intros d Hd. destruct (Hel d Hd). split; [done|by right].
    + destruct (IH ({[lower c]} ∪ seen)) as [Hnd Hel]. split.
      * rewrite fmap_cons. constructor; [|done].
        intros (d & Heq & Hd)%list_elem_of_fmap. destruct (Hel d Hd) as [Hnot _].
        apply Hnot, elem_of_union. left. by apply elem_of_singleton.
      * intros d [->|Hd]%elem_of_cons; [split; [done|by left]|].
        destruct (Hel d Hd) as [Hnot ?]. split; [|by right].
        intros Hs. apply Hnot, elem_of_union. by right.
Qed.

(** No two candidates of a label are equal up to case, in both
    scripts. *)
Theorem candidates_unique_up_to_case (label : string) :
  NoDup (lower <$> Gbif.parse_candidate_names label)
  ∧ NoDup (lower <$> Checklist.parse_candidate_names label).
Proof.
  pose proof (parse_candidate_names_agree label) as Hsame.
  assert (NoDup (lower <$> Gbif.parse_candidate_names label)) as H
    by apply dedupe_keys.
  split; [done|]. by rewrite Hsame.
Qed.

Lemma lstrip_head p s c t : lstrip_by p s = String c t → p c = false.
Proof.
  induction s as [|d s IH]; simpl; [done|].
  destruct (p d) eqn:Hd; [done|]. by intros [= <- _].
Qed.

Lemma lstrip_clean p s :
  match s with "" => True | String c _ => p c = false end → lstrip_by p s = s.
Proof. destruct s as [|c s]; simpl; [done|]. by intros ->. Qed.

Lemma rstrip_idem p s : rstrip_by p (rstrip_by p s) = rstrip_by p s.
Proof.
  induction s as [|c s IH]; simpl; [done|].
  destruct (p c && negb (truthy (rstrip_by p s))) eqn:Hc; [done|].
  simpl. by rewrite IH, Hc.
Qed.

Lemma strip_by_idem p s : strip_by p (strip_by p s) = strip_by p s.
Proof.
  unfold strip_by. rewrite (lstrip_clean p (rstrip_by p _)).
  - apply rstrip_idem.
  - destruct (lstrip_by p s) as [|c t] eqn:Hs; simpl; [done|].
    apply lstrip_head in Hs. by rewrite Hs.
Qed.

Lemma strip_idem s : strip (strip s) = strip s.
Proof. apply strip_by_idem. Qed.

(** White space around a label does not matter. *)
Theorem parse_candidate_names_ignores_outer_space (label : string) :
  Gbif.parse_candidate_names (strip label) = Gbif.parse_candidate_names label.
Proof. unfold Gbif.parse_candidate_names. by rewrite strip_idem. Qed.

(** A label that lacks one of the two parentheses has one candidate,
    the stripped label. *)
Theorem parse_candidate_names_without_clause (label : string) :
  char_in "(" label && char_in ")" label = false →
  Gbif.parse_candidate_names label = [strip label].
Proof.
  intros Hno. unfold Gbif.parse_candidate_names. cbv zeta.
  assert (char_in "(" (strip label) && char_in ")" (strip label) = false) as ->.
  { apply andb_false_iff. apply andb_false_iff in Hno as [H|H]; [left|right];
      apply not_true_is_false; intros Hin%char_in_strip; congruence. }
  destruct (decide (strip label ∈ [strip label])) as [_|Hout]; [|by destruct Hout; left].
  by rewrite dedupe_first.
Qed.

Lemma parse_candidate_names_without_clause_witness :
  Gbif.parse_candidate_names "  Amanita muscaria) " = ["Amanita muscaria)"].
Proof.
  apply (parse_candidate_names_without_clause "  Amanita muscaria) "). reflexivity.
Defined.

Lemma append_parts_truthy parts : ∀ e,
  e ∈ Gbif.append_parts [] parts → ∃ part, e = strip part ∧ truthy e = true.
Proof.
  induction parts as [|part rest IH]; intros e; simpl.
  - by intros ?%elem_of_nil.
  - destruct (truthy (strip part)) eqn:Ht; [|apply IH].
    rewrite append_parts_app. intros [->%list_elem_of_singleton|Hin]%elem_of_app.
    + by exists part.
    + by apply IH.
Qed.

(** Every candidate is free of outer white space, and none is empty
    unless the label is blank. *)
Theorem candidates_are_stripped (label c : string) :
  c ∈ Gbif.parse_candidate_names label →
  strip c = c ∧ (truthy (strip label) = true → truthy c = true).
Proof.
  unfold Gbif.parse_candidate_names. cbv zeta. set (raw := strip label).
  intros Hc. apply dedupe_keys in Hc as [_ Hc].
  assert (strip raw = raw) as Hraw by apply strip_idem.
  assert (c = raw
          ∨ (c = strip (item (split1 "(" raw) 0) ∧ truthy c = true)
          ∨ (∃ part, c = strip part ∧ truthy c = true)) as Hcases.
  { destruct (char_in "(" raw && char_in ")" raw).
    - assert (c ∈ Gbif.append_parts
                  (if truthy (strip (item (split1 "(" raw) 0))
                   then [strip (item (split1 "(" raw) 0)] else [])
                  (re_split synonym_sep
                     (replace "syn." ""
                        (item (split1 ")" (item (split1 "(" raw) 1)) 0)))
              ∨ c = raw) as Hor.
      { destruct (decide (raw ∈ _)); [by left|].
        apply elem_of_app in Hc as [?|Hr]; [by left|].
        apply list_elem_of_singleton in Hr. by right. }
      destruct Hor as [Hin| ->]; [|by left].
      rewrite append_parts_app in Hin. apply elem_of_app in Hin as [Hin|Hin].
      + destruct (truthy (strip (item (split1 "(" raw) 0))) eqn:Hb;
          [|by apply elem_of_nil in Hin].
        apply list_elem_of_singleton in Hin. subst c. right. by left.
      + right. right. apply append_parts_truthy in Hin as (part & -> & Ht). by exists part.
    - left. destruct (decide (raw ∈ [raw])) as [_|Hout]; [|by destruct Hout; left].
      by apply list_elem_of_singleton in Hc. }
  destruct Hcases as [-> | [[-> Ht] | (part & -> & Ht)]];
    split; try done; apply strip_idem.
Qed.

Lemma candidates_are_stripped_witness :
  strip "Amanita spissa" = "Amanita spissa"
  ∧ (truthy (strip " Amanita excelsa (syn. Amanita spissa)") = true →
     truthy "Amanita spissa" = true).
Proof.
  apply (candidates_are_stripped " Amanita excelsa (syn. Amanita spissa)").
  vm_compute. apply list_elem_of_In. right. left. reflexivity.
Defined.

(** ** Names without a slug *)

Lemma re_sub_runs_keeps c s : ∀ in_run,
  slug_char c = true → char_in c s = true →
  char_in c (re_sub_runs slug_char "_" in_run s) = true.
Proof.
  intros in_run Hc. revert in_run.
  induction s as [|d s IH]; intros in_run; simpl; [done|].
  destruct (Ascii.eqb c d) eqn:Hcd; simpl.
  - apply Ascii.eqb_eq in Hcd. subst d. rewrite Hc. simpl. by rewrite Ascii.eqb_refl.
  - intros Hin. destruct (slug_char d); simpl.
    + rewrite (IH false Hin). apply orb_true_r.
    + destruct in_run; simpl; rewrite (IH true Hin); [done|apply orb_true_r].
Qed.

Lemma re_sub_runs_no_slug_char s :
  all_chars (λ c, negb (slug_char c)) s = true →
  re_sub_runs slug_char "_" true s = ""
  ∧ (re_sub_runs slug_char "_" false s = ""
     ∨ re_sub_runs slug_char "_" false s = "_").
Proof.
  induction s as [|d s IH]; simpl; [by intros; split; [|left]|].
  destruct (slug_char d); simpl; [done|]. intros [Ht _]%IH. rewrite Ht.
  split; [done|by right].
Qed.

Lemma some_slug_char s :
  all_chars (λ c, negb (slug_char c)) s = false →
  ∃ c, slug_char c = true ∧ char_in c s = true.
Proof.
  induction s as [|d s IH]; simpl; [done|].
  destruct (slug_char d) eqn:Hd; simpl.
  - intros _. exists d. by rewrite Ascii.eqb_refl.
  - intros (c & Hc & Hin)%IH. exists c. rewrite Hin. by rewrite orb_true_r.
Qed.

(** [slugify] returns the empty string exactly for the names whose
    lower-cased form has no character of [[a-z0-9]]; the images of
    such a species go to the output root itself. *)
Theorem slugify_empty_iff (name : string) :
  (Gbif.slugify name = ""
   ↔ all_chars (λ c, negb (slug_char c)) (lower name) = true)
  ∧ (Gbif.slugify name = "" →
     joinpath Gbif.OUTPUT_ROOT (Gbif.slugify name) = ["gbif_images"]).
Proof.
  split; [|by intros ->].
  unfold Gbif.slugify, strip_char, strip_by. split.
  - intros Hempty.
    destruct (all_chars _ (lower name)) eqn:Hall; [done|].
    apply some_slug_char in Hall as (c & Hc & Hin).
    apply (re_sub_runs_keeps _ _ false Hc) in Hin.
    pose proof (slug_char_not_underscore c Hc) as Hu.
    apply (lstrip_keeps _ _ _ Hu), (rstrip_keeps _ _ _ Hu) in Hin.
    by rewrite Hempty in Hin.
  - intros [_ [-> | ->]]%re_sub_runs_no_slug_char; reflexivity.
Qed.

(** A slug that is not empty is the name of a directory in its own
    right. *)
Lemma slug_char_not_sep c :
  slug_char c = true → Ascii.eqb "/" c = false ∧ Ascii.eqb "." c = false.
Proof. destruct c as [[] [] [] [] [] [] [] []]; by vm_compute. Qed.

Lemma runs_chars s : ∀ after,
  runs after s = true → char_in "/" s = false ∧ char_in "." s = false.
Proof.
  induction s as [|c s IH]; intros after; simpl; [done|].
  slug_cases c; simpl.
  - intros H. destruct (slug_char_not_sep c Hc) as [-> ->]. by apply (IH true).
  - destruct after; simpl; [|done]. intros H.
    replace (Ascii.eqb "/" "_") with false by reflexivity.
    replace (Ascii.eqb "." "_") with false by reflexivity.
    by apply (IH false).
  - done.
Qed.

Lemma slug_plain name :
  Gbif.slugify name ≠ "" → plain (Gbif.slugify name) = true.
Proof.
  intros Hslug. destruct (slugify_shape name) as [?|Hruns]; [done|].
  destruct (runs_chars _ _ Hruns) as [Hslash Hdot].
  unfold plain. rewrite Hslash.
  destruct (Gbif.slugify name) as [|c s] eqn:Hs; [done|].
  destruct (String.eqb_spec (String c s) ".") as [Heq|_].
  { rewrite Heq in Hdot. by vm_compute in Hdot. }
  destruct (String.eqb_spec (String c s) "..") as [Heq|_]; [|done].
  rewrite Heq in Hdot. by vm_compute in Hdot.
Qed.

Lemma joinpath_slug root name :
  Gbif.slugify name ≠ "" →
  joinpath [root] (Gbif.slugify name) = [root; Gbif.slugify name].
Proof.
  intros Hplain%slug_plain. unfold plain in Hplain. unfold joinpath.
  apply andb_prop in Hplain as [[[-> ->]%andb_prop _]%andb_prop _]. done.
Qed.

(** ** The resolver of the GBIF script *)

Lemma match_candidates_step w candidate rest :
  Gbif.match_candidates w (candidate :: rest)
  = match Gbif.species_match w candidate with
    | Ret payload =>
        if gbif_usable payload then
          match or_int (Gbif.acceptedUsageKey payload) (Gbif.usageKey payload) with
          | Some k =>
              Ret (Some {| Gbif.key := k;
                           Gbif.scientific_name :=
                             default candidate
                               (or_str (Gbif.scientificName payload) (Some candidate)) |})
          | None => Gbif.match_candidates w rest
          end
        else Gbif.match_candidates w rest
    | Raise e => Raise e
    | OutOfFuel => OutOfFuel
    end.
Proof.
  simpl. destruct (Gbif.species_match w candidate) as [payload| |]; simpl; [|done..].
  unfold gbif_usable.
  by destruct (or_int _ _) as [k|], (Gbif.matchType payload) as [t|].
Qed.

Lemma match_candidates_some w candidates m :
  Gbif.match_candidates w candidates = Ret (Some m) →
  ∃ before candidate after payload,
    candidates = before ++ candidate :: after
    ∧ Forall (gbif_rejected w) before
    ∧ Gbif.species_match w candidate = Ret payload
    ∧ gbif_usable payload = true
    ∧ or_int (Gbif.acceptedUsageKey payload) (Gbif.usageKey payload)
      = Some (Gbif.key m)
    ∧ Gbif.scientific_name m
      = default candidate (or_str (Gbif.scientificName payload) (Some candidate)).
Proof.
  induction candidates as [|candidate rest IH]; [done|].
  rewrite match_candidates_step.
  destruct (Gbif.species_match w candidate) as [payload| |] eqn:Hq; [|done..].
  destruct (gbif_usable payload) eqn:Hu.
  - destruct (or_int _ _) as [k|] eqn:Hk.
    + intros [= <-]. by exists [], candidate, rest, payload.
    + unfold gbif_usable in Hu. by rewrite Hk in Hu.
  - intros (before & c & after & p & -> & Hrej & ?)%IH.
    exists (candidate :: before), c, after, p. split; [done|]. split; [|done].
    constructor; [|done]. by exists payload.
Qed.

Lemma match_candidates_first_usable w before candidate after payload :
  Forall (gbif_rejected w) before →
  Gbif.species_match w candidate = Ret payload →
  gbif_usable payload = true →
  ∃ k, or_int (Gbif.acceptedUsageKey payload) (Gbif.usageKey payload) = Some k
       ∧ Gbif.match_candidates w (before ++ candidate :: after)
         = Ret (Some {| Gbif.key := k;
                        Gbif.scientific_name :=
                          default candidate
                            (or_str (Gbif.scientificName payload) (Some candidate)) |}).
Proof.
  intros Hrej Hq Hu. induction Hrej as [|c before (p & Hp & Hpu) _ IH]; simpl app.
  - rewrite match_candidates_step, Hq, Hu.
    destruct (or_int _ _) as [k|] eqn:Hk; [by exists k|].
    unfold gbif_usable in Hu. by rewrite Hk in Hu.
  - destruct IH as (k & Hk & IH). exists k. split; [done|].
    by rewrite match_candidates_step, Hp, Hpu.
Qed.

Lemma match_candidates_none w candidates :
  Gbif.match_candidates w candidates = Ret None ↔ Forall (gbif_rejected w) candidates.
Proof.
  induction candidates as [|candidate rest IH]; [by split|].
  rewrite match_candidates_step. split.
  - destruct (Gbif.species_match w candidate) as [payload| |] eqn:Hq; [|done..].
    destruct (gbif_usable payload) eqn:Hu.
    + destruct (or_int _ _) eqn:Hk; [done|].
      unfold gbif_usable in Hu. by rewrite Hk in Hu.
    + intros H%IH. constructor; [|done]. by exists payload.
  - intros Hall. inversion Hall as [|? ? (p & Hp & Hu) Hrest]; subst.
    rewrite Hp, Hu. by apply IH.
Qed.

Lemma match_candidates_raise w candidates e :
  Gbif.match_candidates w candidates = Raise e
  ↔ ∃ before candidate after,
      candidates = before ++ candidate :: after
      ∧ Forall (gbif_rejected w) before
      ∧ Gbif.species_match w candidate = Raise e.
Proof.
  induction candidates as [|candidate rest IH].
  - split; [done|]. intros (before & c & after & Heq & _). by destruct before.
  - rewrite match_candidates_step. split.
    + destruct (Gbif.species_match w candidate) as [payload|e'|] eqn:Hq; [| |done].
      * destruct (gbif_usable payload) eqn:Hu.
        { destruct (or_int _ _) eqn:Hk; [done|].
          unfold gbif_usable in Hu. by rewrite Hk in Hu. }
        intros (before & c & after & -> & Hrej & ?)%IH.
        exists (candidate :: before), c, after. split; [done|]. split; [|done].
        constructor; [|done]. by exists payload.
      * intros [= ->]. by exists [], candidate, rest.
    + intros (before & c & after & Heq & Hrej & Hc).
      destruct before as [|b before]; simplify_eq/=.
      * by rewrite Hc.
      * inversion Hrej as [|? ? (p & Hp & Hu) Hrest]; subst.
        rewrite Hp, Hu. apply IH. by exists before, c, after.
Qed.

Lemma or_int_some a b k :
  or_int a b = Some k →
  a = Some k ∨ ((a = None ∨ a = Some 0%Z) ∧ b = Some k).
Proof.
  destruct a as [n|]; simpl; [|by right; split; [left|]].
  destruct (Z.eqb_spec n 0) as [->|Hn]; [by right; split; [right|]|]. by left.
Qed.

Lemma or_str_candidate a candidate :
  (a = Some (default candidate (or_str a (Some candidate)))
   ∧ truthy (default candidate (or_str a (Some candidate))) = true)
  ∨ ((a = None ∨ a = Some "")
     ∧ default candidate (or_str a (Some candidate)) = candidate).
Proof.
  destruct a as [[|c s]|]; simpl.
  - right. split; [by right|done].
  - by left.
  - right. split; [by left|done].
Qed.

(** A match [match_species] returns has a non-zero key, which is the
    accepted usage key of the payload of one of the candidates or,
    when that is absent or zero, its usage key; the payload has a
    match type other than [NONE], and the name is the scientific name
    of the payload or, for lack of one, the candidate. *)
Theorem match_species_accepts (w : Gbif.World) (name : string) (m : Gbif.SpeciesMatch) :
  Gbif.match_species w name = Ret (Some m) →
  Gbif.key m ≠ 0%Z
  ∧ ∃ candidate payload match_type,
      candidate ∈ Gbif.parse_candidate_names name
      ∧ Gbif.species_match w candidate = Ret payload
      ∧ (Gbif.acceptedUsageKey payload = Some (Gbif.key m)
         ∨ ((Gbif.acceptedUsageKey payload = None
             ∨ Gbif.acceptedUsageKey payload = Some 0%Z)
            ∧ Gbif.usageKey payload = Some (Gbif.key m)))
      ∧ Gbif.matchType payload = Some match_type
      ∧ match_type ≠ ""
      ∧ upper match_type ≠ "NONE"
      ∧ ((Gbif.scientificName payload = Some (Gbif.scientific_name m)
          ∧ Gbif.scientific_name m ≠ "")
         ∨ ((Gbif.scientificName payload = None
             ∨ Gbif.scientificName payload = Some "")
            ∧ Gbif.scientific_name m = candidate)).
Proof.
  intros (before & candidate & after & payload & Hsplit & _ & Hq & Hu & Hk & Hname)
           %match_candidates_some.
  unfold gbif_usable in Hu. rewrite Hk in Hu.
  destruct (Gbif.matchType payload) as [t|] eqn:Ht; [|done].
  apply andb_prop in Hu as [[Hnz Htruthy]%andb_prop Hnone].
  split; [by destruct (Z.eqb_spec (Gbif.key m) 0)|].
  exists candidate, payload, t. split.
  { rewrite Hsplit. apply elem_of_app. right. by left. }
  split; [done|]. split; [by apply or_int_some|]. split; [done|].
  split; [by destruct t|]. split.
  { intros Heq. rewrite Heq in Hnone. by vm_compute in Hnone. }
  rewrite Hname.
  destruct (or_str_candidate (Gbif.scientificName payload) candidate) as [[H1 H2]|[H1 H2]].
  - left. split; [done|]. by destruct (default _ _).
  - by right.
Qed.

Lemma match_species_accepts_witness :
  Gbif.key {| Gbif.key := 7; Gbif.scientific_name := "Amanita muscaria" |} ≠ 0%Z.
Proof.
  apply (match_species_accepts sample_world "Amanita muscaria"). reflexivity.
Defined.

(** The first candidate with an acceptable payload decides: the
    candidates after it are not looked up, whatever the backend would
    answer for them. *)
Theorem match_species_first_usable_wins
        (w : Gbif.World) (name : string) (before after : list string)
        (candidate : string) (payload : Gbif.MatchPayload) :
  Gbif.parse_candidate_names name = before ++ candidate :: after →
  Forall (gbif_rejected w) before →
  Gbif.species_match w candidate = Ret payload →
  gbif_usable payload = true →
  ∃ m, Gbif.match_species w name = Ret (Some m)
       ∧ or_int (Gbif.acceptedUsageKey payload) (Gbif.usageKey payload)
         = Some (Gbif.key m)
       ∧ ∀ w', (∀ c, c ∈ before ++ [candidate] →
                     Gbif.species_match w' c = Gbif.species_match w c) →
               Gbif.match_species w' name = Ret (Some m).
Proof.
  intros Hsplit Hrej Hq Hu. unfold Gbif.match_species. rewrite Hsplit.
  destruct (match_candidates_first_usable w before candidate after payload Hrej Hq Hu)
    as (k & Hk & Hrun).
  eexists. split; [exact Hrun|]. split; [done|].
  intros w' Hsame.
  assert (Forall (gbif_rejected w') before) as Hrej'.
  { apply Forall_forall. intros c Hc. rewrite Forall_forall in Hrej.
    destruct (Hrej c Hc) as (p & Hp & Hpu). exists p. split; [|done].
    rewrite Hsame; [done|]. apply elem_of_app. by left. }
  assert (Gbif.species_match w' candidate = Ret payload) as Hq'.
  { rewrite Hsame; [done|]. apply elem_of_app. right. by left. }
  destruct (match_candidates_first_usable w' before candidate after payload Hrej' Hq' Hu)
    as (k' & Hk' & Hrun').
  rewrite Hrun'. congruence.
Qed.

Lemma match_species_first_usable_wins_witness :
  ∃ m, Gbif.match_species (sample_world_without "Amanita excelsa")
                          "Amanita excelsa (syn. Amanita spissa)" = Ret (Some m)
       ∧ Gbif.scientific_name m = "Amanita spissa".
Proof.
  destruct (match_species_first_usable_wins
              (sample_world_without "Amanita excelsa")
              "Amanita excelsa (syn. Amanita spissa)"
              ["Amanita excelsa"] ["Amanita excelsa (syn. Amanita spissa)"]
              "Amanita spissa"
              {| Gbif.acceptedUsageKey := None; Gbif.usageKey := Some 7%Z;
                 Gbif.matchType := Some "EXACT";
                 Gbif.scientificName := Some "Amanita spissa" |})
    as (m & Hm & _).
  - reflexivity.
  - constructor; [|constructor]. eexists. split; reflexivity.
  - reflexivity.
  - reflexivity.
  - exists m. split; [done|].
    assert (Some m = Some {| Gbif.key := 7; Gbif.scientific_name := "Amanita spissa" |})
      as [= ->]; [|done].
    assert (∀ A (x y : A), Ret x = Ret y → x = y) as Hinj by (by intros ? ? ? [=]).
    apply Hinj. rewrite <- Hm. reflexivity.
Defined.

(** The resolver reports no match exactly when the backend answered
    the lookup of every candidate with a payload that is not
    acceptable. *)
Theorem match_species_none_iff (w : Gbif.World) (name : string) :
  Gbif.match_species w name = Ret None
  ↔ Forall (gbif_rejected w) (Gbif.parse_candidate_names name).
Proof. apply match_candidates_none. Qed.

(** The resolver catches nothing: it raises an exception exactly when
    the lookup of a candidate raises it and every candidate before
    that one was answered with a payload that is not acceptable. *)
Theorem match_species_raises_iff (w : Gbif.World) (name : string) (e : exn) :
  Gbif.match_species w name = Raise e
  ↔ ∃ before candidate after,
      Gbif.parse_candidate_names name = before ++ candidate :: after
      ∧ Forall (gbif_rejected w) before
      ∧ Gbif.species_match w candidate = Raise e.
Proof. apply match_candidates_raise. Qed.

(** ** More on the media lister *)

(** A target count of zero or less yields the empty list without any
    request: the answers of the backend do not matter. *)
Theorem fetch_media_urls_nothing_wanted
        (fuel : nat) (w : Gbif.World) (taxon_key limit : Z) :
  (limit ≤ 0)%Z → Gbif.fetch_media_urls fuel w taxon_key limit = Ret [].
Proof.
  intros Hlimit. unfold Gbif.fetch_media_urls.
  destruct fuel; simpl; destruct (Z.ltb_spec (len (@nil string)) limit) as [Hlt|_];
    try done; unfold len in Hlt; simpl in Hlt; lia.
Qed.

Lemma fetch_media_urls_nothing_wanted_witness :
  Gbif.fetch_media_urls 0 stalling_world 7 0 = Ret [].
Proof. apply fetch_media_urls_nothing_wanted. lia. Defined.

Lemma len_collect_short limit urls l :
  (len (collect limit urls l) < limit)%Z →
  collect limit urls l = urls ++ first_occurrences (list_to_set urls) l.
Proof.
  unfold collect, len. rewrite length_app, length_take. intros Hshort.
  rewrite take_ge; [done|]. lia.
Qed.

Lemma collect_agree limit limit' urls l :
  (limit ≤ limit')%Z → (len (collect limit urls l) < limit)%Z →
  collect limit' urls l = collect limit urls l.
Proof.
  intros Hle Hshort. rewrite (len_collect_short limit) by done.
  revert Hshort. unfold collect, len. rewrite length_app, length_take. intros Hshort.
  rewrite take_ge; [done|]. lia.
Qed.

Lemma fetch_media_urls_loop_fewer w taxon_key limit limit' fuel :
  (limit ≤ limit')%Z →
  ∀ urls offset found,
    Gbif.fetch_media_urls_loop fuel w taxon_key limit' urls (list_to_set urls) offset
    = Ret found →
    ∃ fewer,
      Gbif.fetch_media_urls_loop fuel w taxon_key limit urls (list_to_set urls) offset
      = Ret fewer.
Proof.
  intros Hle. induction fuel as [|fuel IH]; intros urls offset found.
  - destruct (Z.le_gt_cases limit (len urls)) as [Hfull|Hroom].
    + intros _. eexists. by apply fetch_media_urls_loop_full.
    + simpl. by destruct (Z.ltb_spec (len urls) limit') as [_|?]; [|lia].
  - destruct (Z.le_gt_cases limit (len urls)) as [Hfull|Hroom].
    { intros _. eexists. by apply fetch_media_urls_loop_full. }
    simpl.
    destruct (Z.ltb_spec (len urls) limit') as [_|?]; [|lia].
    destruct (Z.ltb_spec (len urls) limit) as [_|?]; [|lia].
    destruct (Gbif.occurrence_search w taxon_key offset) as [payload| |]; simpl; [|done..].
    destruct (default [] (Gbif.results payload)) as [|record rest] eqn:Hres;
      [by eexists|].
    rewrite !scan_records_collect by lia.
    destruct (Gbif.get_count payload) as [total|]; [|done].
    destruct (_ >=? _)%Z; [by eexists|].
    destruct (Z.le_gt_cases limit (len (collect limit urls (page_urls (record :: rest)))))
      as [Hfull|Hshort].
    + intros _. eexists. by apply fetch_media_urls_loop_full.
    + rewrite (collect_agree limit limit') by done. apply IH.
Qed.

(** Asking for fewer URLs gives the first ones of the longer answer. *)
Theorem fetch_media_urls_fewer
        (fuel : nat) (w : Gbif.World) (taxon_key limit limit' : Z) (found : list string) :
  (0 ≤ limit ≤ limit')%Z →
  Gbif.fetch_media_urls fuel w taxon_key limit' = Ret found →
  Gbif.fetch_media_urls fuel w taxon_key limit = Ret (take (Z.to_nat limit) found).
Proof.
  intros [H0 Hle] Hmore. unfold Gbif.fetch_media_urls in *.
  destruct (fetch_media_urls_loop_fewer w taxon_key limit limit' fuel Hle [] 0%Z found Hmore)
    as [fewer Hfewer].
  transitivity (Ret fewer); [exact Hfewer|]. f_equal.
  apply (fetch_media_urls_loop_collect _ _ _ _ []) in Hmore, Hfewer.
  subst. unfold collect. simpl. rewrite !Z.sub_0_r, take_take. f_equal. lia.
Qed.

Lemma fetch_media_urls_fewer_witness :
  Gbif.fetch_media_urls 2 sample_world 7 3
  = Ret (take (Z.to_nat 3)
              [ "https://img.example/a.jpg"; "https://img.example/b.jpg";
                "https://img.example/c.jpg"; "https://img.example/d.jpg" ]).
Proof.
  apply (fetch_media_urls_fewer 2 sample_world 7 3 25); [lia|reflexivity].
Defined.

Lemma first_occurrences_elem l : ∀ seen x,
  x ∈ first_occurrences seen l → x ∈ l.
Proof.
  induction l as [|y l IH]; intros seen x; simpl; [done|].
  destruct (decide (y ∈ seen)).
  - intros H%IH. by right.
  - intros [->|H%IH]%elem_of_cons; [by left|by right].
Qed.

Lemma media_urls_elem medias url :
  url ∈ media_urls medias →
  ∃ m, m ∈ medias ∧ truthy url = true
       ∧ (Gbif.identifier m = Some url
          ∨ ((Gbif.identifier m = None ∨ Gbif.identifier m = Some "")
             ∧ Gbif.references m = Some url)).
Proof.
  induction medias as [|m rest IH]; simpl; [by intros ?%elem_of_nil|].
  assert (url ∈ media_urls rest → ∃ m0, m0 ∈ m :: rest ∧ truthy url = true
       ∧ (Gbif.identifier m0 = Some url
          ∨ ((Gbif.identifier m0 = None ∨ Gbif.identifier m0 = Some "")
             ∧ Gbif.references m0 = Some url))) as Hrest.
  { intros (m0 & ? & ?)%IH. exists m0. split; [by right|done]. }
  destruct (Gbif.media_url m) as [u|] eqn:Hu; [|done].
  destruct (truthy u) eqn:Ht; [|done].
  intros [->|Hin]%elem_of_cons; [|by apply Hrest].
  exists m. split; [by left|]. split; [done|].
  unfold Gbif.media_url, or_str in Hu.
  destruct (Gbif.identifier m) as [[|c s]|]; simpl in Hu.
  - right. split; [by right|done].
  - left. congruence.
  - right. split; [by left|done].
Qed.

Lemma page_urls_elem records url :
  url ∈ page_urls records →
  ∃ record, record ∈ records ∧ url ∈ media_urls (default [] (Gbif.media record)).
Proof.
  induction records as [|record rest IH]; simpl; [by intros ?%elem_of_nil|].
  intros [Hin|Hin]%elem_of_app.
  - exists record. split; [by left|done].
  - destruct (IH Hin) as (r & ? & ?). exists r. split; [by right|done].
Qed.

Lemma listed_urls_elem w taxon_key fuel : ∀ offset url,
  url ∈ listed_urls fuel w taxon_key offset →
  ∃ offset' payload record,
    Gbif.occurrence_search w taxon_key offset' = Ret payload
    ∧ record ∈ default [] (Gbif.results payload)
    ∧ url ∈ media_urls (default [] (Gbif.media record)).
Proof.
  induction fuel as [|fuel IH]; intros offset url; simpl; [by intros ?%elem_of_nil|].
  destruct (Gbif.occurrence_search w taxon_key offset) as [payload| |] eqn:Hq;
    [|by intros ?%elem_of_nil..].
  destruct (default [] (Gbif.results payload)) as [|record rest] eqn:Hres;
    [by intros ?%elem_of_nil|].
  destruct (Gbif.get_count payload) as [total|]; [|by intros ?%elem_of_nil].
  intros [Hin|Hin]%elem_of_app.
  - apply page_urls_elem in Hin as (r & Hr & Hin).
    exists offset, payload, r. by rewrite Hres.
  - destruct (_ >=? _)%Z; [by apply elem_of_nil in Hin|]. by apply IH in Hin.
Qed.

(** Every URL [fetch_media_urls] returns is a non-empty string that
    the backend gave, in answer to a request for this taxon, as the
    [identifier] of a media entry or, where the entry has no
    identifier, as its [references]. *)
Theorem fetch_media_urls_provenance
        (fuel : nat) (w : Gbif.World) (taxon_key limit : Z) (urls : list string)
        (url : string) :
  Gbif.fetch_media_urls fuel w taxon_key limit = Ret urls →
  url ∈ urls →
  url ≠ ""
  ∧ ∃ offset payload record m,
      Gbif.occurrence_search w taxon_key offset = Ret payload
      ∧ record ∈ default [] (Gbif.results payload)
      ∧ m ∈ default [] (Gbif.media record)
      ∧ (Gbif.identifier m = Some url
         ∨ ((Gbif.identifier m = None ∨ Gbif.identifier m = Some "")
            ∧ Gbif.references m = Some url)).
Proof.
  intros Hret Hin. unfold Gbif.fetch_media_urls in Hret.
  apply (fetch_media_urls_loop_collect _ _ _ _ []) in Hret. subst urls.
  unfold collect in Hin. simpl in Hin.
  apply elem_of_take in Hin as (i & Hin & _).
  apply list_elem_of_lookup_2, first_occurrences_elem, listed_urls_elem in Hin
    as (offset & payload & record & Hq & Hrec & Hin).
  apply media_urls_elem in Hin as (m & Hm & Ht & Hid).
  split; [by destruct url|]. by exists offset, payload, record, m.
Qed.

Lemma fetch_media_urls_provenance_witness :
  "https://img.example/c.jpg" ≠ "".
Proof.
  apply (fetch_media_urls_provenance 2 sample_world 7 25
           [ "https://img.example/a.jpg"; "https://img.example/b.jpg";
             "https://img.example/c.jpg"; "https://img.example/d.jpg" ]
           "https://img.example/c.jpg"); [reflexivity|].
  apply list_elem_of_In. right. right. left. reflexivity.
Defined.

Lemma get_count_null payload :
  Gbif.get_count payload = None ↔ Gbif.count payload = Gbif.CountNull.
Proof. unfold Gbif.get_count. by destruct (Gbif.count payload). Qed.

Lemma fetch_media_urls_loop_raises w taxon_key limit e fuel : ∀ urls offset,
  Gbif.fetch_media_urls_loop fuel w taxon_key limit urls (list_to_set urls) offset
  = Raise e
  ↔ ∃ k failing,
      (k < fuel)%nat
      ∧ page_offsets (S k) w taxon_key offset !! k = Some failing
      ∧ (len (collect limit urls (listed_urls k w taxon_key offset)) < limit)%Z
      ∧ page_fails w taxon_key failing e.
Proof.
  induction fuel as [|fuel IH]; intros urls offset.
  { split.
    - simpl. by destruct (_ <? _)%Z.
    - intros (k & ? & ? & _). lia. }
  destruct (Z.le_gt_cases limit (len urls)) as [Hdone|Hroom].
  { rewrite fetch_media_urls_loop_full by done. split; [done|].
    intros (k & o & _ & _ & Hshort & _). rewrite collect_full in Hshort by done. lia. }
  cbn [Gbif.fetch_media_urls_loop].
  destruct (Z.ltb_spec (len urls) limit) as [_|?]; [|lia].
  assert (∀ k failing,
            page_offsets (S k) w taxon_key offset !! k = Some failing →
            page_fails w taxon_key failing e →
            k = 0 ∧ failing = offset
            ∨ ∃ k' payload record rest total,
                k = S k'
                ∧ Gbif.occurrence_search w taxon_key offset = Ret payload
                ∧ default [] (Gbif.results payload) = record :: rest
                ∧ Gbif.get_count payload = Some total
                ∧ (offset + len (record :: rest) >=? total)%Z = false
                ∧ page_offsets (S k') w taxon_key (offset + len (record :: rest)) !! k'
                  = Some failing
                ∧ listed_urls k w taxon_key offset
                  = page_urls (record :: rest)
                    ++ listed_urls k' w taxon_key (offset + len (record :: rest)))
    as Hcases.
  { intros [|k'] failing Hk _.
    - left. split; [done|]. cbn in Hk. congruence.
    - right. cbn [page_offsets listed_urls lookup list_lookup] in Hk |- *.
      destruct (Gbif.occurrence_search w taxon_key offset) as [payload| |] eqn:Hq;
        [|done..].
      cbv zeta in Hk |- *.
      destruct (default [] (Gbif.results payload)) as [|record rest] eqn:Hres; [done|].
      destruct (Gbif.get_count payload) as [total|] eqn:Hcount; [|done].
      destruct (_ >=? _)%Z eqn:Hmore; [done|].
      by exists k', payload, record, rest, total. }
  assert (page_fails w taxon_key offset e →
          ∃ k failing,
            (k < S fuel)%nat
            ∧ page_offsets (S k) w taxon_key offset !! k = Some failing
            ∧ (len (collect limit urls (listed_urls k w taxon_key offset)) < limit)%Z
            ∧ page_fails w taxon_key failing e) as Hfirst.
  { intros Hfail. exists 0, offset. split; [lia|]. split; [done|].
    split; [|done]. simpl. rewrite collect_nil. lia. }
  destruct (Gbif.occurrence_search w taxon_key offset) as [payload|e'|] eqn:Hq; simpl.
  - destruct (default [] (Gbif.results payload)) as [|record rest] eqn:Hres.
    { split; [done|]. intros (k & failing & _ & Hk & _ & Hfail).
      destruct (Hcases k failing Hk Hfail)
        as [[-> ->] | (k' & p & r & rs & t & -> & Hp & Hr & _)]; [|congruence].
      destruct Hfail as [?|(_ & p & Hp & Hne & _)]; congruence. }
    rewrite scan_records_collect by lia.
    destruct (Gbif.get_count payload) as [total|] eqn:Hcount.
    + destruct (_ >=? _)%Z eqn:Hmore.
      { split; [done|]. intros (k & failing & _ & Hk & _ & Hfail).
        destruct (Hcases k failing Hk Hfail)
          as [[-> ->] | (k' & p & r & rs & t & -> & Hp & Hr & Ht & Hlt & _)].
        - destruct Hfail as [?|(_ & p & Hp & _ & Hnull%get_count_null)]; congruence.
        - assert (p = payload) as -> by congruence.
          rewrite Hres in Hr. injection Hr as <- <-. congruence. }
      rewrite IH. split.
      * intros (k & failing & Hlt & Hk & Hshort & Hfail).
        exists (S k), failing. split; [lia|]. split.
        { cbn [page_offsets]. rewrite Hq. cbv zeta. by rewrite Hres, Hcount, Hmore. }
        split; [|done]. cbn [listed_urls]. rewrite Hq. cbv zeta.
        by rewrite Hres, Hcount, Hmore, collect_app.
      * intros (k & failing & Hlt & Hk & Hshort & Hfail).
        destruct (Hcases k failing Hk Hfail)
          as [[-> ->] | (k' & p & r & rs & t & -> & Hp & Hr & Ht & _ & Hk' & Hl)].
        { destruct Hfail as [?|(_ & p & Hp & _ & Hnull%get_count_null)]; congruence. }
        assert (p = payload) as -> by congruence.
        rewrite Hres in Hr. injection Hr as <- <-.
        exists k', failing. split; [lia|]. split; [done|]. split; [|done].
        by rewrite Hl, collect_app in Hshort.
    + split.
      * intros [= <-]. apply Hfirst. right. split; [done|]. exists payload.
        split; [done|]. split; [by rewrite Hres|]. by apply get_count_null.
      * intros (k & failing & _ & Hk & _ & Hfail).
        destruct (Hcases k failing Hk Hfail)
          as [[-> ->] | (k' & p & r & rs & t & -> & Hp & _ & Ht & _)]; [|congruence].
        destruct Hfail as [?|[-> _]]; [congruence|done].
  - split.
    + intros [= ->]. apply Hfirst. by left.
    + intros (k & failing & _ & Hk & _ & Hfail).
      destruct (Hcases k failing Hk Hfail)
        as [[-> ->] | (k' & p & r & rs & t & -> & ? & _)]; [|done].
      destruct Hfail as [?|(_ & p & ? & _)]; congruence.
  - split; [done|]. intros (k & failing & _ & Hk & _ & Hfail).
    destruct (Hcases k failing Hk Hfail)
      as [[-> ->] | (k' & p & r & rs & t & -> & ? & _)]; [|done].
    destruct Hfail as [?|(_ & p & ? & _)]; congruence.
Qed.


(** A first page with records and a [count] of [null] makes the
    lister raise [TypeError], although the page holds the two URLs
    asked for; a first request that fails makes it raise the
    exception of the request. *)
Example fetch_media_urls_raises_sample :
  Gbif.fetch_media_urls 1
    {| Gbif.species_match := Gbif.species_match sample_world;
       Gbif.occurrence_search := λ _ _,
         Ret {| Gbif.results :=
                  Some [ {| Gbif.media :=
                              Some [ image "https://img.example/a.jpg";
                                     image "https://img.example/b.jpg" ] |} ];
                Gbif.count := Gbif.CountNull |};
       Gbif.fetch_bytes := echo;
       Gbif.accepts_host := any_host;
       Gbif.os_refuses := no_call |} 7 2
  = Raise TypeError
  ∧ Gbif.fetch_media_urls 1 gbif_echo_world 7 25 = Raise URLError.
Proof. by vm_compute. Qed.

(** ** The resolver of the checklist script *)

Lemma select_loop_spec candidate results : ∀ best,
  Checklist.select_loop (lower candidate) results best
  = match List.find (named_like candidate) results with
    | Some entry => Some (taxon_of entry)
    | None =>
        match best with
        | Some b => Some b
        | None => taxon_of <$> head results
        end
    end.
Proof.
  induction results as [|entry rest IH]; intros best; simpl; [by destruct best|].
  unfold named_like at 1.
  destruct (String.eqb _ _); [done|]. rewrite IH.
  destruct (List.find _ rest); [done|]. by destruct best.
Qed.

Lemma select_best_match_none results candidate :
  Checklist._select_best_match results candidate = None ↔ results = [].
Proof.
  unfold Checklist._select_best_match. rewrite select_loop_spec.
  destruct results as [|entry rest]; [done|].
  destruct (List.find _ _); done.
Qed.

(** [_select_best_match] returns the first entry that bears the name
    of the candidate up to case and, if there is none, the first
    entry; it returns nothing only for an empty answer. *)
Theorem select_best_match_spec
        (results : list Checklist.TaxonItem) (candidate : string) :
  Checklist._select_best_match results candidate
  = match List.find (named_like candidate) results with
    | Some entry => Some (taxon_of entry)
    | None => taxon_of <$> head results
    end
  ∧ (Checklist._select_best_match results candidate = None ↔ results = []).
Proof.
  split; [|apply select_best_match_none].
  unfold Checklist._select_best_match. by rewrite select_loop_spec.
Qed.

Lemma select_best_match_elem results candidate m :
  Checklist._select_best_match results candidate = Some m →
  ∃ entry, entry ∈ results ∧ m = taxon_of entry.
Proof.
  unfold Checklist._select_best_match. rewrite select_loop_spec.
  destruct (List.find _ _) as [entry|] eqn:Hfind.
  - intros [= <-]. exists entry. split; [|done].
    apply find_some in Hfind as [Hin _]. by apply list_elem_of_In.
  - destruct results as [|entry rest]; [done|]. intros [= <-].
    exists entry. split; [by left|done].
Qed.

(** The identifier under which the images of a selected taxon are
    requested is the [accepted_id] of its entry when that is present
    and not zero, and the [_id] of the entry otherwise. *)
Theorem selected_taxon_effective_id
        (results : list Checklist.TaxonItem) (candidate : string)
        (m : Checklist.TaxonMatch) :
  Checklist._select_best_match results candidate = Some m →
  ∃ entry, entry ∈ results
    ∧ Checklist.full_name m = default "" (Checklist.item_FullName entry)
    ∧ ((∃ n, Checklist.item_accepted_id entry = Some n ∧ n ≠ 0%Z
             ∧ Checklist.effective_id m = Some n)
       ∨ ((Checklist.item_accepted_id entry = None
           ∨ Checklist.item_accepted_id entry = Some 0%Z)
          ∧ Checklist.effective_id m = Checklist.item_id entry)).
Proof.
  intros (entry & Hin & ->)%select_best_match_elem.
  exists entry. split; [done|]. split; [done|].
  unfold Checklist.effective_id, taxon_of. simpl.
  destruct (Checklist.item_accepted_id entry) as [n|]; simpl.
  - destruct (Z.eqb_spec n 0) as [->|Hn].
    + right. split; [by right|].
      destruct (Checklist.item_id entry) as [i|]; simpl; [|done].
      by destruct (i =? 0)%Z.
    + left. exists n. split; [done|]. split; [done|]. simpl.
      by destruct (Z.eqb_spec n 0).
  - right. split; [by left|].
    destruct (Checklist.item_id entry) as [i|]; simpl; [|done].
    by destruct (i =? 0)%Z.
Qed.

Lemma selected_taxon_effective_id_witness :
  ∃ entry,
    entry ∈ [ {| Checklist.item_id := Some 5%Z;
                 Checklist.item_FullName := Some "Amanita spissa";
                 Checklist.item_accepted_id := Some 9%Z |} ]
    ∧ Checklist.full_name (taxon_of {| Checklist.item_id := Some 5%Z;
                 Checklist.item_FullName := Some "Amanita spissa";
                 Checklist.item_accepted_id := Some 9%Z |})
      = default "" (Checklist.item_FullName entry)
    ∧ ((∃ n, Checklist.item_accepted_id entry = Some n ∧ n ≠ 0%Z
             ∧ Checklist.effective_id
                 (taxon_of {| Checklist.item_id := Some 5%Z;
                              Checklist.item_FullName := Some "Amanita spissa";
                              Checklist.item_accepted_id := Some 9%Z |}) = Some n)
       ∨ ((Checklist.item_accepted_id entry = None
           ∨ Checklist.item_accepted_id entry = Some 0%Z)
          ∧ Checklist.effective_id
              (taxon_of {| Checklist.item_id := Some 5%Z;
                           Checklist.item_FullName := Some "Amanita spissa";
                           Checklist.item_accepted_id := Some 9%Z |})
            = Checklist.item_id entry)).
Proof.
  apply (selected_taxon_effective_id _ "amanita SPISSA"). reflexivity.
Defined.

Lemma resolve_pass_none w clause candidates :
  Checklist.resolve_pass w clause candidates = Ret None
  ↔ Forall (λ candidate, Checklist.taxa w (clause candidate) = Ret []) candidates.
Proof.
  induction candidates as [|candidate rest IH]; simpl; [by split|]. split.
  - destruct (Checklist.taxa w (clause candidate)) as [entries| |] eqn:Hq; [|done..].
    simpl. destruct (Checklist._select_best_match entries candidate) eqn:Hsel; [done|].
    apply select_best_match_none in Hsel. subst entries.
    intros H%IH. by constructor.
  - intros Hall. inversion Hall as [|? ? Hq Hrest]; subst.
    rewrite Hq. simpl. by apply IH.
Qed.

Lemma resolve_pass_some w clause candidates m :
  Checklist.resolve_pass w clause candidates = Ret (Some m) →
  ∃ candidate entries entry,
    candidate ∈ candidates
    ∧ Checklist.taxa w (clause candidate) = Ret entries
    ∧ entry ∈ entries
    ∧ m = taxon_of entry.
Proof.
  induction candidates as [|candidate rest IH]; simpl; [done|].
  destruct (Checklist.taxa w (clause candidate)) as [entries| |] eqn:Hq; [|done..].
  simpl. destruct (Checklist._select_best_match entries candidate) as [m'|] eqn:Hsel.
  - intros [= <-]. apply select_best_match_elem in Hsel as (entry & Hin & ->).
    exists candidate, entries, entry. split; [by left|done].
  - intros (c & es & e & Hc & ?)%IH. exists c, es, e. split; [by right|done].
Qed.

Lemma resolve_taxon_entry w name m :
  Checklist.resolve_taxon w name = Ret (Some m) →
  ∃ clause entries entry,
    Checklist.taxa w clause = Ret entries ∧ entry ∈ entries ∧ m = taxon_of entry.
Proof.
  unfold Checklist.resolve_taxon. cbv zeta.
  destruct (Checklist.resolve_pass w Checklist.FullNameIs _) as [[m'|]| |] eqn:Hexact;
    simpl; [| |done..].
  - intros [= <-]. apply resolve_pass_some in Hexact as (c & es & e & _ & ? & ? & ?).
    by exists (Checklist.FullNameIs c), es, e.
  - intros (c & es & e & _ & ? & ? & ?)%resolve_pass_some.
    by exists (Checklist.FullNameLike ("%" +:+ c +:+ "%")), es, e.
Qed.

(** The checklist resolver reports no match exactly when the backend
    answered the exact query and the [like] query of every candidate
    with an empty list. *)
Theorem resolve_taxon_none_iff (w : Checklist.World) (name : string) :
  Checklist.resolve_taxon w name = Ret None
  ↔ Forall (λ candidate,
              Checklist.taxa w (Checklist.FullNameIs candidate) = Ret []
              ∧ Checklist.taxa w (like_clause candidate) = Ret [])
           (Checklist.parse_candidate_names name).
Proof.
  unfold Checklist.resolve_taxon. cbv zeta.
  set (candidates := Checklist.parse_candidate_names name).
  rewrite Forall_and. rewrite <- !resolve_pass_none.
  destruct (Checklist.resolve_pass w Checklist.FullNameIs candidates)
    as [[m|]| |]; simpl; [by split; [|intros []]..| |by split; [|intros []]
                           |by split; [|intros []]].
  by split; [|intros []].
Qed.

(** A match of the checklist resolver is built from an entry of the
    answer to a query for one of the candidates; it comes from a
    [like] query only when every exact query was answered with an
    empty list. *)
Theorem resolve_taxon_sound
        (w : Checklist.World) (name : string) (m : Checklist.TaxonMatch) :
  Checklist.resolve_taxon w name = Ret (Some m) →
  ∃ candidate entries entry,
    candidate ∈ Checklist.parse_candidate_names name
    ∧ entry ∈ entries
    ∧ m = taxon_of entry
    ∧ (Checklist.taxa w (Checklist.FullNameIs candidate) = Ret entries
       ∨ (Checklist.taxa w (like_clause candidate) = Ret entries
          ∧ Forall (λ c, Checklist.taxa w (Checklist.FullNameIs c) = Ret [])
                   (Checklist.parse_candidate_names name))).
Proof.
  unfold Checklist.resolve_taxon. cbv zeta.
  destruct (Checklist.resolve_pass w Checklist.FullNameIs _) as [[m'|]| |] eqn:Hexact;
    simpl; [| |done..].
  - intros [= <-]. apply resolve_pass_some in Hexact as (c & es & e & ? & ? & ? & ?).
    exists c, es, e. split_and!; try done. by left.
  - intros (c & es & e & ? & ? & ? & ?)%resolve_pass_some.
    exists c, es, e. split_and!; try done. right. split; [done|].
    by apply resolve_pass_none.
Qed.

Lemma resolve_taxon_sound_witness :
  ∃ candidate entries entry,
    candidate ∈ Checklist.parse_candidate_names "Amanita muscaria"
    ∧ entry ∈ entries
    ∧ {| Checklist.id := Some 5%Z; Checklist.full_name := "Amanita muscaria";
         Checklist.accepted_id := Some 5%Z |} = taxon_of entry
    ∧ (Checklist.taxa checklist_sample_world (Checklist.FullNameIs candidate)
       = Ret entries
       ∨ (Checklist.taxa checklist_sample_world (like_clause candidate) = Ret entries
          ∧ Forall (λ c, Checklist.taxa checklist_sample_world
                                        (Checklist.FullNameIs c) = Ret [])
                   (Checklist.parse_candidate_names "Amanita muscaria"))).
Proof.
  apply (resolve_taxon_sound checklist_sample_world "Amanita muscaria"). reflexivity.
Defined.

(** ** Computations that return *)

Lemma bind_ret_inv {A B} (m : M A) (f : A → M B) st b st' :
  (m ≫= f) st = (Ret b, st') →
  ∃ a st1, m st = (Ret a, st1) ∧ f a st1 = (Ret b, st').
Proof.
  unfold mbind, M_bind. destruct (m st) as [[a|e|] st1]; [|done..].
  intros H. by exists a, st1.
Qed.

Lemma lift_ret_inv {A} (r : res A) st a st' :
  lift r st = (Ret a, st') → r = Ret a ∧ st' = st.
Proof. unfold lift. by intros [= -> ->]. Qed.

Lemma returns_bind root {A B} (m : M A) (f : A → M B) :
  returns root m → (∀ a, returns root (f a)) → returns root (m ≫= f).
Proof.
  intros Hm Hf st Hst. unfold mbind, M_bind.
  destruct (Hm st Hst) as (a & st1 & -> & Hst1). by apply Hf.
Qed.

Lemma returns_mret root {A} (a : A) : returns root (mret a).
Proof. intros st Hst. by exists a, st. Qed.

Lemma returns_print root ev : returns root (print ev).
Proof. intros st Hst. by eexists _, _. Qed.

Lemma returns_lift root {A} (r : res A) a : r = Ret a → returns root (lift r).
Proof. intros -> st Hst. by exists a, st. Qed.

Lemma returns_bind_lift root {A B} (r : res A) (f : A → M B) a :
  r = Ret a → returns root (f a) → returns root (lift r ≫= f).
Proof. intros -> Hf st Hst. unfold mbind, M_bind, lift. by apply Hf. Qed.

(** In a tidy tree the paths of length one and two below the root
    are no files, and those of length three no directories. *)
Lemma tidy_no_file root st p :
  tidy root st → head p = Some root → List.length p ≠ 3 → is_file st p = false.
Proof.
  intros [Hfiles _] Hhead Hlen. apply bool_decide_eq_false. intros Hfile.
  by apply Hlen, Hfiles.
Qed.

Lemma tidy_no_dir root st p :
  tidy root st → head p = Some root → (2 < List.length p)%nat → is_dir st p = false.
Proof.
  intros [_ Hdirs] Hhead Hlen. unfold is_dir.
  rewrite bool_decide_eq_false_2 by (by destruct p).
  apply bool_decide_eq_false. intros Hdir. specialize (Hdirs p Hdir Hhead). lia.
Qed.

Lemma tidy_with_dirs root st (made : list path) :
  tidy root st → Forall (λ d, (List.length d ≤ 2)%nat) made →
  tidy root (State (list_to_set made ∪ dirs st) (files st) (console st)).
Proof.
  intros [Hfiles Hdirs] Hmade. split; [done|]. simpl.
  intros d [Hd%elem_of_list_to_set|Hd]%elem_of_union Hhead; [|by apply Hdirs].
  rewrite Forall_forall in Hmade. by apply Hmade.
Qed.

Lemma tidy_with_file root st p data :
  tidy root st → List.length p = 3 → tidy root (with_file p data st).
Proof.
  intros [Hfiles Hdirs] Hlen. split; [|done]. simpl. intros q Hq Hhead.
  destruct (decide (q = p)) as [->|Hne]; [done|].
  rewrite lookup_insert_ne in Hq by done. by apply Hfiles.
Qed.

Lemma tidy_with_line root st ev : tidy root st → tidy root (with_line ev st).
Proof. by intros [Hfiles Hdirs]. Qed.

Lemma returns_mkdir root refuses :
  obliging refuses → returns root (mkdir refuses [root]).
Proof.
  intros Hos st Hst. unfold mkdir.
  rewrite Hos, (tidy_no_file root) by (done || (simpl; lia)). simpl.
  eexists _, _. split; [done|].
  destruct Hst as [Hfiles Hdirs]. split; [done|]. simpl.
  intros d [->%elem_of_singleton|Hd]%elem_of_union Hhead; [simpl; lia|by apply Hdirs].
Qed.

Create HintDb returns.
#[local] Hint Resolve returns_mret returns_print : returns.

(** With an obliging system and a tidy tree, [download_image] saves
    the file or raises the exception of the request. *)
Lemma download_image_returns root w url slug name st :
  obliging (Gbif.os_refuses w) → image_answer (Gbif.fetch_bytes w url) →
  name ≠ ".." → tidy root st →
  ∃ st', tidy root st'
    ∧ (Gbif.download_image w url [root; slug; name] st = (Ret (), st')
       ∨ Gbif.download_image w url [root; slug; name] st = (Raise HTTPError, st')
       ∨ Gbif.download_image w url [root; slug; name] st = (Raise URLError, st')).
Proof.
  intros Hos Hanswer Hname Hst. rewrite download_image_unfold.
  change (parent [root; slug; name]) with [root; slug].
  unfold mkdir_parents. rewrite Hos.
  change (with_ancestors [root; slug]) with [[root]; [root; slug]].
  cbn [existsb orb].
  rewrite !(tidy_no_file root) by (done || (simpl; lia)). cbn [orb].
  set (st1 := State _ _ _).
  assert (tidy root st1) as Hst1.
  { apply (tidy_with_dirs root st [[root]; [root; slug]]); [done|].
    repeat constructor; simpl; lia. }
  destruct Hanswer as [[data ->]|[-> | ->]].
  - unfold write_bytes. rewrite Hos.
    rewrite (tidy_no_dir root) by (done || (simpl; lia)).
    rewrite bool_decide_eq_false_2 by (simpl; congruence). cbn [orb].
    change (parent [root; slug; name]) with [root; slug].
    assert (is_dir st1 [root; slug] = true) as ->.
    { unfold is_dir. rewrite (bool_decide_eq_true_2 (_ ∈ _)); [apply orb_true_r|].
      apply elem_of_union. left. apply elem_of_list_to_set. right. by left. }
    cbn [negb]. eexists. split; [|by left].
    by apply (tidy_with_file root st1).
  - exists st1. split; [done|]. right. by left.
  - exists st1. split; [done|]. right. by right.
Qed.

Lemma save_loop_returns root w slug urls :
  obliging (Gbif.os_refuses w) →
  (∀ url, image_answer (Gbif.fetch_bytes w url)) →
  (∀ url index, url ∈ urls → file_name (Gbif.filename_from_url w url index)) →
  ∀ index used_names,
    returns root (Gbif.save_loop w [root; slug] index urls used_names).
Proof.
  intros Hos Hw. induction urls as [|url rest IH]; intros Hnames index used_names st Hst.
  - by exists (), st.
  - rewrite save_loop_step.
    destruct (gbif_choose_filename_returns w url index used_names)
      as (name & -> & Hc & Hup); [apply Hnames; by left|].
    cbv zeta. rewrite (component_joinpath _ _ Hc). simpl app.
    assert (∀ url index, url ∈ rest → file_name (Gbif.filename_from_url w url index))
      as Hrest by (intros u i Hu; apply Hnames; by right).
    destruct (download_image_returns root w url slug name st Hos (Hw url) Hup Hst)
      as (st' & Hst' & [-> | [-> | ->]]);
      by apply IH, tidy_with_line.
Qed.

Lemma match_candidates_returns w candidates :
  (∀ name, ∃ payload, Gbif.species_match w name = Ret payload) →
  ∃ found, Gbif.match_candidates w candidates = Ret found.
Proof.
  intros Hw. induction candidates as [|candidate rest IH]; simpl; [by eexists|].
  destruct (Hw candidate) as [payload ->]. simpl.
  destruct (or_int _ _), (Gbif.matchType payload); try done.
  destruct (_ && _); [by eexists|done].
Qed.

(** The URLs the lister returns are among those the backend lists. *)
Lemma fetch_media_urls_lists fuel w taxon_key limit urls url :
  Gbif.fetch_media_urls fuel w taxon_key limit = Ret urls →
  url ∈ urls → gbif_lists w url.
Proof.
  intros Hret Hin. unfold Gbif.fetch_media_urls in Hret.
  apply (fetch_media_urls_loop_collect _ _ _ _ []) in Hret. subst urls.
  unfold collect in Hin. simpl in Hin.
  apply elem_of_take in Hin as (i & Hin & _).
  apply list_elem_of_lookup_2, first_occurrences_elem, listed_urls_elem in Hin
    as (offset & payload & record & Hq & Hrec & Hin).
  by exists taxon_key, offset, payload, record.
Qed.

Lemma save_images_for_species_returns fuel w bound species :
  gbif_answers w bound → obliging (Gbif.os_refuses w) → gbif_named w species →
  (Z.max 0 bound < Z.of_nat fuel)%Z →
  returns "gbif_images" (Gbif.save_images_for_species fuel w species).
Proof.
  intros [Hmatch Hsearch Himage Hurls] Hos Hslug Hfuel.
  unfold Gbif.save_images_for_species.
  apply returns_bind; [auto with returns|]. intros _.
  destruct (match_candidates_returns w (Gbif.parse_candidate_names species) Hmatch)
    as [found Hfound].
  apply (returns_bind_lift _ _ _ found Hfound).
  destruct found as [match_|].
  2:{ apply returns_bind; auto with returns. }
  apply returns_bind; [auto with returns|]. intros _.
  destruct (fetch_media_urls_loop_returns w (Gbif.key match_) Gbif.IMAGES_PER_SPECIES
              bound fuel (Hsearch _) [] ∅ 0%Z) as [urls Hlisted]; [lia|].
  apply (returns_bind_lift _ _ _ urls Hlisted).
  destruct urls as [|url rest].
  { apply returns_bind; auto with returns. }
  cbv zeta. unfold Gbif.OUTPUT_ROOT. rewrite joinpath_slug by (by apply Hslug).
  apply returns_bind.
  - apply save_loop_returns; [done..|]. intros u i Hin. apply Hurls.
    by apply (fetch_media_urls_lists _ _ _ _ _ _ Hlisted).
  - intros _. apply returns_bind; [|auto with returns].
    destruct (_ <? _)%Z; auto with returns.
Qed.

Lemma main_loop_returns fuel w bound species_names :
  gbif_answers w bound → obliging (Gbif.os_refuses w) →
  Forall (gbif_named w) species_names →
  (Z.max 0 bound < Z.of_nat fuel)%Z →
  ∀ failures, returns "gbif_images" (Gbif.main_loop fuel w species_names failures).
Proof.
  intros Hw Hos Hnamed Hfuel.
  induction Hnamed as [|species rest Hone _ IH]; intros failures.
  - apply returns_mret.
  - cbn [Gbif.main_loop]. apply returns_bind.
    + by apply (save_images_for_species_returns _ _ bound).
    + intros success. apply IH.
Qed.

Lemma main_on_returns species_names fuel w bound :
  gbif_answers w bound → obliging (Gbif.os_refuses w) →
  Forall (gbif_named w) species_names →
  (Z.max 0 bound < Z.of_nat fuel)%Z →
  returns "gbif_images" (Gbif.main_on species_names fuel w).
Proof.
  intros Hw Hos Hnamed Hfuel. unfold Gbif.main_on.
  apply returns_bind; [by apply returns_mkdir|]. intros _.
  apply returns_bind; [by apply (main_loop_returns _ _ bound)|].
  intros [|species failures]; apply returns_bind; auto with returns.
Qed.

(** ** The exit status of the GBIF script *)

Lemma gbif_resolves_not_unresolved w species :
  gbif_resolves w species = true → gbif_unresolved w species = false.
Proof.
  unfold gbif_resolves, gbif_unresolved.
  by destruct (Gbif.match_species w species) as [[?|]| |].
Qed.

Lemma seq_ret_inv {A B} (m : M A) (v b : B) st st' :
  (m ≫= λ _, mret v) st = (Ret b, st') → b = v.
Proof. intros (a & st1 & _ & [= <- _])%bind_ret_inv. done. Qed.

(** What [save_images_for_species] returns tells whether the species
    resolved. *)
Lemma save_images_for_species_result fuel w species st success st' :
  Gbif.save_images_for_species fuel w species st = (Ret success, st') →
  (success = true ∧ gbif_resolves w species = true)
  ∨ (success = false ∧ gbif_unresolved w species = true).
Proof.
  unfold Gbif.save_images_for_species, gbif_resolves, gbif_unresolved.
  intros (_ & st1 & _ & H)%bind_ret_inv.
  apply bind_ret_inv in H as (found & st2 & [-> ->]%lift_ret_inv & H).
  destruct found as [match_|].
  2:{ right. by apply seq_ret_inv in H. }
  left. split; [|done].
  apply bind_ret_inv in H as (_ & st3 & _ & H).
  apply bind_ret_inv in H as (urls & st4 & _ & H).
  destruct urls as [|url rest]; [by apply seq_ret_inv in H|].
  apply bind_ret_inv in H as (_ & st5 & _ & H).
  by apply seq_ret_inv in H.
Qed.

Lemma main_loop_result fuel w species_names : ∀ failures st found st',
  Gbif.main_loop fuel w species_names failures st = (Ret found, st') →
  ∃ extra, found = failures ++ extra
    ∧ (extra = [] → Forall (λ species, gbif_resolves w species = true) species_names)
    ∧ (extra ≠ [] → Exists (λ species, gbif_unresolved w species = true) species_names).
Proof.
  induction species_names as [|species rest IH]; intros failures st found st'.
  - intros [= -> _]. exists []. by rewrite app_nil_r.
  - cbn [Gbif.main_loop].
    intros (success & st1 & Hone & Hrest)%bind_ret_inv.
    apply IH in Hrest as (extra & -> & Hall & Hsome).
    apply save_images_for_species_result in Hone as [[-> Hres]|[-> Hunres]].
    + exists extra. split; [done|]. split.
      * intros Hnil. constructor; [done|by apply Hall].
      * intros Hcons. apply Exists_cons_tl. by apply Hsome.
    + exists (species :: extra). rewrite <- app_assoc. split; [done|]. split; [done|].
      intros _. by apply Exists_cons_hd.
Qed.

Lemma all_resolved_none_unresolved w species_names :
  Forall (λ species, gbif_resolves w species = true) species_names →
  Exists (λ species, gbif_unresolved w species = true) species_names →
  False.
Proof.
  intros Hall (species & Hin & Hun)%Exists_exists.
  rewrite Forall_forall in Hall.
  apply Hall, gbif_resolves_not_unresolved in Hin. congruence.
Qed.

Lemma main_on_status species_names fuel w st status st' :
  Gbif.main_on species_names fuel w st = (Ret status, st') →
  (status = 0%Z ↔ Forall (λ species, gbif_resolves w species = true) species_names)
  ∧ (status ≠ 0%Z
     ↔ Exists (λ species, gbif_unresolved w species = true) species_names).
Proof.
  unfold Gbif.main_on.
  intros (_ & st1 & _ & H)%bind_ret_inv.
  apply bind_ret_inv in H as (failures & st2 & Hloop & H).
  apply main_loop_result in Hloop as (extra & -> & Hall & Hsome). simpl in H.
  pose proof (all_resolved_none_unresolved w species_names) as Hexcl.
  destruct extra as [|species extra]; apply seq_ret_inv in H; subst status.
  - specialize (Hall eq_refl). split; split; try done. intros Hex. by destruct Hexcl.
  - assert (Exists (λ s, gbif_unresolved w s = true) species_names) as Hex
      by (by apply Hsome).
    split; split; try done. intros Hf. by destruct Hexcl.
Qed.

(** ** The exit status of the checklist script *)

Lemma checklist_save_loop_step w target_dir index url rest existing_names st :
  url ≠ "" →
  Checklist.save_loop w target_dir index ({| Checklist.uri := Some url |} :: rest)
                      existing_names st
  = match Checklist.choose_filename w url index existing_names with
    | Ret filename =>
        let destination := joinpath target_dir filename in
        let go_on line st' :=
          Checklist.save_loop w target_dir (S index) rest
                              ({[filename]} ∪ existing_names) (with_line line st') in
        match Checklist.download_image w url destination st with
        | (Ret _, st') => go_on (Saved destination) st'
        | (Raise HTTPError, st') => go_on (FailedToDownload url) st'
        | (Raise URLError, st') => go_on (ErrorDownloading url) st'
        | (Raise e, st') => (Raise e, st')
        | (OutOfFuel, st') => (OutOfFuel, st')
        end
    | Raise e => (Raise e, st)
    | OutOfFuel => (OutOfFuel, st)
    end.
Proof.
  intros Hurl. cbn [Checklist.save_loop Checklist.uri].
  destruct url as [|c url]; [done|]. cbn [truthy negb].
  unfold mbind at 1, M_bind at 1, lift.
  destruct (Checklist.choose_filename w _ index existing_names) as [filename| |];
    [|done..].
  cbv zeta. unfold mbind, M_bind, try_except, print, mret, M_ret, with_line.
  by destruct (Checklist.download_image _ _ _ _) as [[[]|[]|] st'].
Qed.

Lemma checklist_download_image_returns root w url slug name st :
  obliging (Checklist.os_refuses w) → image_answer (Checklist.fetch_bytes w url) →
  name ≠ ".." → tidy root st →
  ∃ st', tidy root st'
    ∧ (Checklist.download_image w url [root; slug; name] st = (Ret (), st')
       ∨ Checklist.download_image w url [root; slug; name] st = (Raise HTTPError, st')
       ∨ Checklist.download_image w url [root; slug; name] st = (Raise URLError, st')).
Proof.
  intros Hos Hanswer Hname Hst. rewrite checklist_download_image_unfold.
  change (parent [root; slug; name]) with [root; slug].
  unfold mkdir_parents. rewrite Hos.
  change (with_ancestors [root; slug]) with [[root]; [root; slug]].
  cbn [existsb orb].
  rewrite !(tidy_no_file root) by (done || (simpl; lia)). cbn [orb].
  set (st1 := State _ _ _).
  assert (tidy root st1) as Hst1.
  { apply (tidy_with_dirs root st [[root]; [root; slug]]); [done|].
    repeat constructor; simpl; lia. }
  destruct Hanswer as [[data ->]|[-> | ->]].
  - unfold write_bytes. rewrite Hos.
    rewrite (tidy_no_dir root) by (done || (simpl; lia)).
    rewrite bool_decide_eq_false_2 by (simpl; congruence). cbn [orb].
    change (parent [root; slug; name]) with [root; slug].
    assert (is_dir st1 [root; slug] = true) as ->.
    { unfold is_dir. rewrite (bool_decide_eq_true_2 (_ ∈ _)); [apply orb_true_r|].
      apply elem_of_union. left. apply elem_of_list_to_set. right. by left. }
    cbn [negb]. eexists. split; [|by left].
    by apply (tidy_with_file root st1).
  - exists st1. split; [done|]. right. by left.
  - exists st1. split; [done|]. right. by right.
Qed.

Lemma checklist_save_loop_returns root w slug images :
  obliging (Checklist.os_refuses w) →
  (∀ url, image_answer (Checklist.fetch_bytes w url)) →
  (∀ image url index,
      image ∈ images → Checklist.uri image = Some url →
      file_name (Checklist.filename_from_url w url index)) →
  ∀ index existing_names,
    returns root (Checklist.save_loop w [root; slug] index images existing_names).
Proof.
  intros Hos Hw. induction images as [|image rest IH]; intros Hnames index existing_names.
  { apply returns_mret. }
  assert (∀ index existing_names,
            returns root (Checklist.save_loop w [root; slug] index rest existing_names))
    as Hrest.
  { apply IH. intros i u n Hi. apply Hnames. by right. }
  destruct image as [[url|]]; [|apply Hrest].
  destruct (decide (url = "")) as [->|Hurl]; [apply Hrest|].
  intros st Hst. rewrite checklist_save_loop_step by done.
  destruct (checklist_choose_filename_returns w url index existing_names)
    as (name & -> & Hc & Hup); [by apply (Hnames {| Checklist.uri := Some url |}); [left|]|].
  cbv zeta. rewrite (component_joinpath _ _ Hc). simpl app.
  destruct (checklist_download_image_returns root w url slug name st Hos (Hw url) Hup Hst)
    as (st' & Hst' & [-> | [-> | ->]]);
    by apply Hrest, tidy_with_line.
Qed.

Lemma resolve_pass_returns w clause candidates :
  (∀ c, ∃ entries, Checklist.taxa w c = Ret entries) →
  ∃ found, Checklist.resolve_pass w clause candidates = Ret found.
Proof.
  intros Hw. induction candidates as [|candidate rest IH]; simpl; [by eexists|].
  destruct (Hw (clause candidate)) as [entries ->]. simpl.
  destruct (Checklist._select_best_match entries candidate); [by eexists|done].
Qed.

Lemma resolve_taxon_returns w name :
  (∀ c, ∃ entries, Checklist.taxa w c = Ret entries) →
  ∃ found, Checklist.resolve_taxon w name = Ret found.
Proof.
  intros Hw. unfold Checklist.resolve_taxon.
  destruct (resolve_pass_returns w Checklist.FullNameIs
              (Checklist.parse_candidate_names name) Hw) as [[match_|] ->]; simpl.
  - by eexists.
  - apply resolve_pass_returns, Hw.
Qed.

Lemma checklist_main_loop_returns w species_names :
  checklist_answers w → obliging (Checklist.os_refuses w) →
  Forall (checklist_named w) species_names →
  ∀ failures,
    returns "species_images" (Checklist.main_loop w species_names failures).
Proof.
  intros [Htaxa Himages Himage Hurls] Hos Hnamed.
  induction Hnamed as [|species rest Hslug _ IH]; intros failures.
  - apply returns_mret.
  - cbn [Checklist.main_loop].
    apply returns_bind; [auto with returns|]. intros _.
    destruct (resolve_taxon_returns w species Htaxa) as [found Hfound].
    apply (returns_bind_lift _ _ _ found Hfound). destruct found as [taxon|].
    2:{ apply returns_bind; [auto with returns|]. intros _. apply IH. }
    apply returns_bind; [auto with returns|]. intros _.
    destruct (Himages (Checklist.effective_id taxon)) as [listed Hlisted].
    apply (returns_bind_lift _ _ _ (default [] listed)).
    { unfold Checklist.fetch_taxon_images. by rewrite Hlisted. }
    destruct (default [] listed) as [|image others] eqn:Himgs.
    + apply returns_bind; [auto with returns|]. intros _. apply IH.
    + cbv zeta. unfold Checklist.OUTPUT_ROOT.
      specialize (Hslug taxon Hfound).
      change (Checklist.slugify (Checklist.full_name taxon))
        with (Gbif.slugify (Checklist.full_name taxon)) in *.
      rewrite joinpath_slug by done.
      apply returns_bind; [|intros _; apply IH].
      apply checklist_save_loop_returns; [done..|].
      intros i url index Hi Huri. apply Hurls.
      destruct listed as [images|]; [|done]. simpl in Himgs. subst images.
      by exists (Checklist.effective_id taxon), (image :: others), i.
Qed.

Lemma checklist_main_on_returns species_names w :
  checklist_answers w → obliging (Checklist.os_refuses w) →
  Forall (checklist_named w) species_names →
  returns "species_images" (Checklist.main_on species_names w).
Proof.
  intros Hw Hos Hnamed. unfold Checklist.main_on.
  apply returns_bind; [by apply returns_mkdir|]. intros _.
  apply returns_bind; [by apply checklist_main_loop_returns|].
  intros [|species failures]; apply returns_bind; auto with returns.
Qed.

Lemma checklist_resolves_not_unresolved w species :
  checklist_resolves w species = true → checklist_unresolved w species = false.
Proof.
  unfold checklist_resolves, checklist_unresolved.
  by destruct (Checklist.resolve_taxon w species) as [[?|]| |].
Qed.

Lemma checklist_main_loop_result w species_names : ∀ failures st found st',
  Checklist.main_loop w species_names failures st = (Ret found, st') →
  ∃ extra, found = failures ++ extra
    ∧ (extra = [] →
       Forall (λ species, checklist_resolves w species = true) species_names)
    ∧ (extra ≠ [] →
       Exists (λ species, checklist_unresolved w species = true) species_names).
Proof.
  induction species_names as [|species rest IH]; intros failures st found st'.
  - intros [= -> _]. exists []. by rewrite app_nil_r.
  - cbn [Checklist.main_loop].
    intros (_ & st1 & _ & H)%bind_ret_inv.
    apply bind_ret_inv in H as (taxon & st2 & [Hres ->]%lift_ret_inv & H).
    destruct taxon as [taxon|].
    + assert (checklist_resolves w species = true) as Hyes
        by (unfold checklist_resolves; by rewrite Hres).
      assert (∃ st3, Checklist.main_loop w rest failures st3 = (Ret found, st'))
        as [st3 Hrest].
      { apply bind_ret_inv in H as (_ & st3 & _ & H).
        apply bind_ret_inv in H as (images & st4 & _ & H).
        destruct images as [|image others];
          apply bind_ret_inv in H as (_ & st5 & _ & H); by eexists. }
      apply IH in Hrest as (extra & -> & Hall & Hsome).
      exists extra. split; [done|]. split.
      * intros Hnil. constructor; [done|by apply Hall].
      * intros Hcons. apply Exists_cons_tl. by apply Hsome.
    + assert (checklist_unresolved w species = true) as Hno
        by (unfold checklist_unresolved; by rewrite Hres).
      apply bind_ret_inv in H as (_ & st3 & _ & Hrest).
      apply IH in Hrest as (extra & -> & Hall & Hsome).
      exists (species :: extra). rewrite <- app_assoc. split; [done|]. split; [done|].
      intros _. by apply Exists_cons_hd.
Qed.

Lemma checklist_main_on_status species_names w st status st' :
  Checklist.main_on species_names w st = (Ret status, st') →
  (status = 0%Z
   ↔ Forall (λ species, checklist_resolves w species = true) species_names)
  ∧ (status ≠ 0%Z
     ↔ Exists (λ species, checklist_unresolved w species = true) species_names).
Proof.
  unfold Checklist.main_on.
  intros (_ & st1 & _ & H)%bind_ret_inv.
  apply bind_ret_inv in H as (failures & st2 & Hloop & H).
  apply checklist_main_loop_result in Hloop as (extra & -> & Hall & Hsome).
  simpl in H.
  assert (Forall (λ s, checklist_resolves w s = true) species_names →
          Exists (λ s, checklist_unresolved w s = true) species_names → False)
    as Hexcl.
  { intros Hf (species & Hin & Hun)%Exists_exists. rewrite Forall_forall in Hf.
    apply Hf, checklist_resolves_not_unresolved in Hin. congruence. }
  destruct extra as [|species extra]; apply seq_ret_inv in H; subst status.
  - specialize (Hall eq_refl). split; split; try done. intros Hex. by destruct Hexcl.
  - assert (Exists (λ s, checklist_unresolved w s = true) species_names) as Hex
      by (by apply Hsome).
    split; split; try done. intros Hf. by destruct Hexcl.
Qed.

(** ** The sample networks answer *)

Lemma sample_world_lists url :
  gbif_lists sample_world url →
  url ∈ [ "https://img.example/a.jpg"; "https://img.example/b.jpg";
          "https://img.example/c.jpg"; "https://img.example/d.jpg" ].
Proof.
  intros (taxon_key & offset & payload & record & Hq & Hrecord & Hurl).
  simpl in Hq. destruct (offset =? 0)%Z; [|destruct (offset =? 2)%Z];
    injection Hq as <-; simpl in Hrecord.
  - apply elem_of_cons in Hrecord as [->|Hrecord];
      [|apply list_elem_of_singleton in Hrecord as ->];
      vm_compute in Hurl; apply list_elem_of_In in Hurl; apply list_elem_of_In;
      simpl in *; tauto.
  - apply list_elem_of_singleton in Hrecord as ->.
    vm_compute in Hurl. apply list_elem_of_In in Hurl. apply list_elem_of_In.
    simpl in *; tauto.
  - by apply elem_of_nil in Hrecord.
Qed.

Lemma sample_world_answers : gbif_answers sample_world 3.
Proof.
  split.
  - intros name. by eexists.
  - intros taxon_key offset. simpl.
    destruct (offset =? 0)%Z; [by eexists _, _|].
    destruct (offset =? 2)%Z; by eexists _, _.
  - intros url. unfold image_answer. simpl.
    destruct (String.eqb url _); [by right; left|].
    destruct (String.eqb url _); [by right; right|]. left. by eexists.
  - intros url index Hurl%sample_world_lists.
    repeat (apply elem_of_cons in Hurl as [->|Hurl]);
      [by eexists; split; [vm_compute; reflexivity|]..|by apply elem_of_nil in Hurl].
Qed.

Lemma gbif_named_by_match w species m :
  Gbif.match_species w species = Ret (Some m) →
  Gbif.slugify (Gbif.scientific_name m) ≠ "" →
  gbif_named w species.
Proof. intros Hm Hslug m' Hm'. rewrite Hm in Hm'. by injection Hm' as <-. Qed.

Lemma checklist_named_by_match w species taxon :
  Checklist.resolve_taxon w species = Ret (Some taxon) →
  Checklist.slugify (Checklist.full_name taxon) ≠ "" →
  checklist_named w species.
Proof. intros Hm Hslug m' Hm'. rewrite Hm in Hm'. by injection Hm' as <-. Qed.

Lemma sample_world_named :
  Forall (gbif_named sample_world) Gbif.SPECIES_NAMES.
Proof.
  repeat (constructor;
          [eapply gbif_named_by_match; [vm_compute; reflexivity|by vm_compute]|]).
  constructor.
Qed.

Lemma checklist_sample_world_answers : checklist_answers checklist_sample_world.
Proof.
  split.
  - intros [name|pattern]; by eexists.
  - intros taxon_id. by eexists.
  - apply sample_world_answers.
  - intros url index (taxon_id & images & image & [= <-] & Himage & Huri).
    repeat (apply elem_of_cons in Himage as [->|Himage]);
      [injection Huri as <-; by eexists; split; [vm_compute; reflexivity|]
      |done
      |injection Huri as <-; by eexists; split; [vm_compute; reflexivity|]
      |by apply elem_of_nil in Himage].
Qed.

Lemma checklist_sample_world_named :
  Forall (checklist_named checklist_sample_world) Checklist.SPECIES_NAMES.
Proof.
  repeat (constructor;
          [eapply checklist_named_by_match; [vm_compute; reflexivity|by vm_compute]|]).
  constructor.
Qed.

Lemma initial_state_tidy root : tidy root initial_state.
Proof.
  split; simpl.
  - intros p [data Hp]. by rewrite lookup_empty in Hp.
  - by intros d ?%not_elem_of_empty.
Qed.

Lemma main_unfold : Gbif.main = Gbif.main_on Gbif.SPECIES_NAMES.
Proof. reflexivity. Qed.

Lemma checklist_main_unfold : Checklist.main = Checklist.main_on Checklist.SPECIES_NAMES.
Proof. reflexivity. Qed.




(** On the sample network every species resolves, the images [b.jpg]
    and [c.jpg] of each fail to download, and the status is 0;
    without a match for one species it is 1. *)
Example main_sample_status :
  (Gbif.main 4 sample_world initial_state).1 = Ret 0%Z
  ∧ (Gbif.main 4 (sample_world_without "Amanita muscaria") initial_state).1 = Ret 1%Z
  ∧ (Checklist.main checklist_sample_world initial_state).1 = Ret 0%Z.
Proof. vm_compute. done. Qed.

(** ** What the download loop leaves on disk *)

Lemma parent_snoc (dir : path) name : parent (dir ++ [name]) = dir.
Proof. unfold parent. apply removelast_last. Qed.

Lemma saved_destinations_cons ev lines d :
  d ∈ saved_destinations lines → d ∈ saved_destinations (ev :: lines).
Proof. destruct ev; simpl; try done. by right. Qed.

Lemma download_image_console w url destination st :
  console (Gbif.download_image w url destination st).2 = console st.
Proof.
  destruct (download_image_outcome w url destination st)
    as [(data & _ & _ & ->) | [(e & [-> | ->]) | ->]]; done.
Qed.

(** The effect of the loop on the state, whatever its outcome. *)
Lemma save_loop_effect w target_dir urls : ∀ index used_names st,
  ∃ lines,
    console (Gbif.save_loop w target_dir index urls used_names st).2
    = console st ++ lines
    ∧ (∀ p, p ∉ saved_destinations lines →
            files (Gbif.save_loop w target_dir index urls used_names st).2 !! p
            = files st !! p)
    ∧ (∀ d, d ∈ saved_destinations lines →
            is_Some (files (Gbif.save_loop w target_dir index urls used_names st).2 !! d)
            ∧ ∃ name, d = target_dir ++ [name] ∧ plain name = true)
    ∧ (∀ p, is_Some (files st !! p) →
            is_Some (files (Gbif.save_loop w target_dir index urls used_names st).2 !! p))
    ∧ dirs st ⊆ dirs (Gbif.save_loop w target_dir index urls used_names st).2
    ∧ (∀ d, d ∈ dirs (Gbif.save_loop w target_dir index urls used_names st).2 →
            d ∈ dirs st ∨ d ∈ with_ancestors target_dir).
Proof.
  induction urls as [|url rest IH]; intros index used_names st.
  { exists []. simpl. rewrite app_nil_r. split_and!; try done.
    - by intros ? ?%elem_of_nil.
    - intros d Hd. by left. }
  assert (∀ st1 : state,
    console st1 = console st → files st1 = files st →
    dirs st ⊆ dirs st1 →
    (∀ d, d ∈ dirs st1 → d ∈ dirs st ∨ d ∈ with_ancestors target_dir) →
    ∃ lines,
      console st1 = console st ++ lines
      ∧ (∀ p, p ∉ saved_destinations lines → files st1 !! p = files st !! p)
      ∧ (∀ d, d ∈ saved_destinations lines →
              is_Some (files st1 !! d)
              ∧ ∃ name, d = target_dir ++ [name] ∧ plain name = true)
      ∧ (∀ p, is_Some (files st !! p) → is_Some (files st1 !! p))
      ∧ dirs st ⊆ dirs st1
      ∧ (∀ d, d ∈ dirs st1 → d ∈ dirs st ∨ d ∈ with_ancestors target_dir))
    as Hstop.
  { intros st1 Hcons Hfiles Hsub Hnew. exists []. rewrite app_nil_r, Hfiles.
    split_and!; try done. by intros ? ?%elem_of_nil. }
  rewrite save_loop_step.
  destruct (Gbif.choose_filename w url index used_names) as [filename| |] eqn:Hname;
    [|apply Hstop; (done || by left)..].
  cbv zeta.
  apply gbif_choose_filename_component in Hname as [Hc _].
  rewrite (component_joinpath _ _ Hc).
  set (destination := target_dir ++ [filename]).
  assert (∀ line st1,
    console st1 = console st →
    dirs st ⊆ dirs st1 →
    (∀ d, d ∈ dirs st1 → d ∈ dirs st ∨ d ∈ with_ancestors target_dir) →
    (∀ p, p ∉ saved_destinations [line] → files st1 !! p = files st !! p) →
    (∀ p, is_Some (files st !! p) → is_Some (files st1 !! p)) →
    (∀ d, d ∈ saved_destinations [line] →
          is_Some (files st1 !! d) ∧ d = destination ∧ filename ≠ "..") →
    let run := Gbif.save_loop w target_dir (S index) rest ({[filename]} ∪ used_names)
                              (with_line line st1) in
    ∃ lines,
      console run.2 = console st ++ lines
      ∧ (∀ p, p ∉ saved_destinations lines → files run.2 !! p = files st !! p)
      ∧ (∀ d, d ∈ saved_destinations lines →
              is_Some (files run.2 !! d)
              ∧ ∃ name, d = target_dir ++ [name] ∧ plain name = true)
      ∧ (∀ p, is_Some (files st !! p) → is_Some (files run.2 !! p))
      ∧ dirs st ⊆ dirs run.2
      ∧ (∀ d, d ∈ dirs run.2 → d ∈ dirs st ∨ d ∈ with_ancestors target_dir))
    as Hgo.
  { intros line st1 Hcons Hsub Hnew Hchanged Hkept Hsaved run.
    destruct (IH (S index) ({[filename]} ∪ used_names) (with_line line st1))
      as (lines & Hc' & Hch & Hs & Hk & Hsub' & Hnew').
    fold run in Hc', Hch, Hs, Hk, Hsub', Hnew'.
    exists (line :: lines). simpl in Hc'. rewrite Hcons, <- app_assoc in Hc'.
    split; [done|]. split.
    { intros p Hp. rewrite Hch; simpl.
      - apply Hchanged. intros Hin. apply Hp.
        destruct line; simpl in *; try (by apply elem_of_nil in Hin).
        apply list_elem_of_singleton in Hin. rewrite Hin. by left.
      - intros Hin. by apply Hp, saved_destinations_cons. }
    split.
    { intros d Hd.
      assert (d ∈ saved_destinations [line] ∨ d ∈ saved_destinations lines) as [H1|H2].
      { destruct line; simpl in *; try (by right).
        apply elem_of_cons in Hd as [->|?]; [left; by left|by right]. }
      - destruct (Hsaved d H1) as (Hfile & -> & Hup). split; [by apply Hk|].
        exists filename. split; [done|]. by apply component_plain.
      - by apply Hs. }
    split; [intros p Hp; by apply Hk, Hkept|].
    split; [by etrans|].
    intros d [Hd|Hd]%Hnew'; [by apply Hnew|by right]. }
  assert (dirs st ⊆ dirs (with_parent_of destination st)) as Hsub
    by apply union_subseteq_r.
  assert (∀ d, d ∈ dirs (with_parent_of destination st) →
               d ∈ dirs st ∨ d ∈ with_ancestors target_dir) as Hnew.
  { intros d. simpl. unfold destination. rewrite parent_snoc.
    rewrite elem_of_union, elem_of_list_to_set. tauto. }
  destruct (download_image_outcome w url destination st)
    as [(data & _ & Hup & ->) | [(e & [-> | ->]) | ->]].
  - apply Hgo; simpl; try done.
    + intros p Hp. rewrite lookup_insert_ne; [done|].
      intros <-. apply Hp. by left.
    + intros p Hp. destruct (decide (p = destination)) as [->|Hne].
      * by rewrite lookup_insert_eq.
      * by rewrite lookup_insert_ne.
    + intros d ->%list_elem_of_singleton. rewrite lookup_insert_eq.
      split; [done|]. split; [done|]. intros ->. apply Hup. apply last_snoc.
  - destruct e; try (apply Hstop; (done || by left));
      (apply Hgo; simpl; try done; [by left|by intros d ?%elem_of_nil]).
  - destruct e; try (by apply Hstop);
      (apply Hgo; simpl; try done; by intros d ?%elem_of_nil).
  - by apply Hstop.
Qed.

(** The download loop, run on a target directory whose path has
    plain components only, changes the files it reports as saved and
    no other: each of them is an entry of the target directory, under
    a name that is neither [.] nor [..] and has no slash; no file
    disappears, and no directory is made but the target directory and
    its ancestors.  This holds whether the loop returns or ends with
    an exception of a request or of [urlparse].  (A run that ends
    with the [OSError] of a call on the file system is left out: that
    call may have left a part of its work behind.) *)
Theorem save_loop_writes_what_it_reports
        (w : Gbif.World) (target_dir : path) (index : nat) (urls : list string)
        (used_names : gset string) (st : state) :
  Forall (λ name, plain name = true) target_dir →
  (Gbif.save_loop w target_dir index urls used_names st).1 ≠ Raise OSError →
  ∃ lines,
    console (Gbif.save_loop w target_dir index urls used_names st).2
    = console st ++ lines
    ∧ (∀ p, p ∉ saved_destinations lines →
            files (Gbif.save_loop w target_dir index urls used_names st).2 !! p
            = files st !! p)
    ∧ (∀ d, d ∈ saved_destinations lines →
            is_Some (files (Gbif.save_loop w target_dir index urls used_names st).2 !! d)
            ∧ ∃ name, d = target_dir ++ [name] ∧ plain name = true)
    ∧ (∀ p, is_Some (files st !! p) →
            is_Some (files (Gbif.save_loop w target_dir index urls used_names st).2 !! p))
    ∧ dirs st ⊆ dirs (Gbif.save_loop w target_dir index urls used_names st).2
    ∧ (∀ d, d ∈ dirs (Gbif.save_loop w target_dir index urls used_names st).2 →
            d ∈ dirs st ∨ d ∈ with_ancestors target_dir).
Proof. intros _ _. apply save_loop_effect. Qed.

Lemma save_loop_writes_what_it_reports_witness :
  ∃ lines,
    console (Gbif.save_loop sample_world ["gbif_images"; "amanita"] 1
               ["https://img.example/a.jpg"; "https://img.example/b.jpg"]
               ∅ initial_state).2
    = console initial_state ++ lines.
Proof.
  destruct (save_loop_writes_what_it_reports
              sample_world ["gbif_images"; "amanita"] 1
              ["https://img.example/a.jpg"; "https://img.example/b.jpg"]
              ∅ initial_state) as (lines & Hlines & _).
  - by repeat constructor.
  - vm_compute. discriminate.
  - by exists lines.
Defined.

(** When the loop returns, it has printed one line for each URL: a
    saved file or a failed download. *)
Theorem save_loop_one_line_per_url
        (w : Gbif.World) (target_dir : path) (index : nat) (urls : list string)
        (used_names : gset string) (st : state) :
  (Gbif.save_loop w target_dir index urls used_names st).1 = Ret () →
  ∃ lines,
    console (Gbif.save_loop w target_dir index urls used_names st).2
    = console st ++ lines
    ∧ List.length lines = List.length urls
    ∧ Forall (λ line, match line with
                      | Saved _ | FailedToDownload _ | ErrorDownloading _ => True
                      | _ => False
                      end) lines.
Proof.
  revert index used_names st.
  induction urls as [|url rest IH]; intros index used_names st.
  { intros _. exists []. simpl. by rewrite app_nil_r. }
  rewrite save_loop_step.
  destruct (Gbif.choose_filename w url index used_names) as [filename| |]; [|done..].
  cbv zeta.
  pose proof (download_image_console w url (joinpath target_dir filename) st) as Hcons.
  destruct (Gbif.download_image w url (joinpath target_dir filename) st)
    as [[[]|e|] st'] eqn:Hrun; [|destruct e|]; try done; simpl in Hcons;
    intros (lines & Hc & Hlen & Hall)%IH; simpl in Hc;
    rewrite Hcons, <- app_assoc in Hc; eexists (_ :: lines);
    (split; [exact Hc|]); (split; [simpl; by rewrite Hlen|]); by constructor.
Qed.

Lemma save_loop_one_line_per_url_witness :
  ∃ lines,
    console (Gbif.save_loop sample_world ["gbif_images"; "amanita"] 1
               ["https://img.example/a.jpg"; "https://img.example/b.jpg"]
               ∅ initial_state).2
    = console initial_state ++ lines
    ∧ List.length lines = 2
    ∧ Forall (λ line, match line with
                      | Saved _ | FailedToDownload _ | ErrorDownloading _ => True
                      | _ => False
                      end) lines.
Proof.
  apply (save_loop_one_line_per_url sample_world ["gbif_images"; "amanita"] 1
           ["https://img.example/a.jpg"; "https://img.example/b.jpg"]).
  vm_compute. reflexivity.
Defined.

(** ** A URL that names the directory above *)

(** An image whose URL yields the file name [..] cannot be saved:
    once its bytes are fetched, [write_bytes] raises [OSError], which
    no clause catches.  The loop ends there, with no file changed and
    nothing printed, and the URLs after it are not tried.  A URL
    whose path ends in [/..] is such a URL. *)
Theorem dot_dot_url_ends_the_loop
        (w : Gbif.World) (target_dir : path) (index : nat) (url : string)
        (rest : list string) (used_names : gset string) (st : state) (data : bytes) :
  Gbif.choose_filename w url index used_names = Ret ".." →
  Gbif.fetch_bytes w url = Ret data →
  (Gbif.save_loop w target_dir index (url :: rest) used_names st).1 = Raise OSError
  ∧ files (Gbif.save_loop w target_dir index (url :: rest) used_names st).2 = files st
  ∧ console (Gbif.save_loop w target_dir index (url :: rest) used_names st).2
    = console st.
Proof.
  intros Hname Hfetch. rewrite save_loop_step, Hname. cbv zeta.
  rewrite (component_joinpath target_dir ".."); [|by split].
  rewrite download_image_unfold, Hfetch.
  destruct (mkdir_parents_outcome (Gbif.os_refuses w) (parent (target_dir ++ [".."])) st)
    as [-> | ->]; [|done].
  by rewrite write_bytes_dot_dot.
Qed.

Lemma dot_dot_url_ends_the_loop_witness :
  (Gbif.save_loop gbif_echo_world ["gbif_images"; "amanita"] 1
     ["https://img.example/a/.."; "https://img.example/b.jpg"] ∅ initial_state).1
  = Raise OSError.
Proof.
  apply (dot_dot_url_ends_the_loop
           gbif_echo_world ["gbif_images"; "amanita"] 1 "https://img.example/a/.."
           ["https://img.example/b.jpg"] ∅ initial_state
           (list_byte_of_string "https://img.example/a/..")); reflexivity.
Defined.

(** ** A file name is one path component *)

(** The name under which an image is saved is one component of a
    path: it is never empty, never [.], and has no slash, whatever
    the URL; so the destination is an entry of the directory of the
    species, or, for the name [..], that directory's parent.  The
    name [..] is the one of a URL whose path ends in [/..].  So in
    both scripts. *)
Theorem filename_is_one_component
        (url : string) (index : nat) (used_names : gset string) :
  (∀ w name target_dir,
      Gbif.choose_filename w url index used_names = Ret name →
      name ≠ "" ∧ name ≠ "." ∧ char_in "/" name = false
      ∧ joinpath target_dir name = target_dir ++ [name]
      ∧ (plain name = true ∨ name = ".."))
  ∧ (∀ w name target_dir,
        Checklist.choose_filename w url index used_names = Ret name →
        name ≠ "" ∧ name ≠ "." ∧ char_in "/" name = false
        ∧ joinpath target_dir name = target_dir ++ [name]
        ∧ (plain name = true ∨ name = ".."))
  ∧ Gbif.choose_filename gbif_echo_world "https://img.example/a/.." 1 ∅ = Ret ".."
  ∧ Checklist.choose_filename checklist_echo_world "https://img.example/a/.." 1 ∅
    = Ret "..".
Proof.
  assert (∀ name target_dir, component name →
            name ≠ "" ∧ name ≠ "." ∧ char_in "/" name = false
            ∧ joinpath target_dir name = target_dir ++ [name]
            ∧ (plain name = true ∨ name = "..")) as Hcomponent.
  { intros name target_dir Hc. pose proof Hc as (Ht & Hdot & Hslash).
    split; [by destruct name|]. split; [done|]. split; [done|].
    split; [by apply component_joinpath|].
    destruct (decide (name = "..")); [by right|]. left. by apply component_plain. }
  split_and!; [| |by vm_compute..].
  - intros w name target_dir [Hc _]%gbif_choose_filename_component.
    by apply Hcomponent.
  - intros w name target_dir [Hc _]%checklist_choose_filename_component.
    by apply Hcomponent.
Qed.

Lemma filename_is_one_component_witness :
  "a.jpg" ≠ "" ∧ "a.jpg" ≠ "." ∧ char_in "/" "a.jpg" = false
  ∧ joinpath ["gbif_images"; "amanita"] "a.jpg" = ["gbif_images"; "amanita"] ++ ["a.jpg"]
  ∧ (plain "a.jpg" = true ∨ "a.jpg" = "..").
Proof.
  destruct (filename_is_one_component "https://img.example/a.jpg" 1 ∅) as [Hgbif _].
  apply (Hgbif gbif_echo_world). reflexivity.
Defined.

(** ** What a run changes *)

Lemma grows_below_refl root st : grows_below root st st.
Proof. unfold grows_below. split_and!; try done. by left. Qed.

Lemma grows_below_trans root st1 st2 st3 :
  grows_below root st1 st2 → grows_below root st2 st3 → grows_below root st1 st3.
Proof.
  intros (Hd1 & Hn1 & Hk1 & Hf1 & Hc1) (Hd2 & Hn2 & Hk2 & Hf2 & Hc2).
  unfold grows_below. split_and!.
  - by etrans.
  - intros d [Hin|Hroot]%Hn2; [by apply Hn1|by right].
  - intros p Hp. by apply Hk2, Hk1.
  - intros p Hp. by rewrite Hf2, Hf1.
  - by etrans.
Qed.

Lemma keeps_bind {A B} root (m : M A) (f : A → M B) :
  keeps (grows_below root) m → (∀ a, keeps (grows_below root) (f a)) →
  keeps (grows_below root) (m ≫= f).
Proof.
  intros Hm Hf st. unfold mbind, M_bind. specialize (Hm st).
  destruct (m st) as [[a|e|] st1]; simpl in *; [|done..].
  eapply grows_below_trans; [done|apply Hf].
Qed.

Lemma keeps_mret {A} root (a : A) : keeps (grows_below root) (mret a).
Proof. intros st. apply grows_below_refl. Qed.

Lemma keeps_lift {A} root (r : res A) : keeps (grows_below root) (lift r).
Proof. intros st. apply grows_below_refl. Qed.

Lemma keeps_bind_lift {A B} root (r : res A) (f : A → M B) :
  (∀ a, r = Ret a → keeps (grows_below root) (f a)) →
  keeps (grows_below root) (lift r ≫= f).
Proof.
  intros Hf st. unfold mbind, M_bind, lift.
  destruct r as [a| |]; [by apply Hf|apply grows_below_refl..].
Qed.

Lemma keeps_print root ev : keeps (grows_below root) (print ev).
Proof.
  intros st. unfold grows_below. simpl. split_and!; try done; [by left|].
  by apply prefix_app_r.
Qed.

Lemma below_root root : below root [root].
Proof. by exists []. Qed.

Lemma keeps_mkdir root refuses : keeps (grows_below root) (mkdir refuses [root]).
Proof.
  intros st. destruct (mkdir_outcome refuses [root] st) as [-> | ->];
    [|apply grows_below_refl].
  unfold grows_below. simpl. split_and!; try done.
  - apply union_subseteq_r.
  - intros d [->%elem_of_singleton|?]%elem_of_union; [right; apply below_root|by left].
Qed.

Lemma with_ancestors_prefix (p d : path) : d ∈ with_ancestors p → d `prefix_of` p.
Proof.
  revert d. induction p as [|c p IH]; intros d; simpl; [by intros ?%elem_of_nil|].
  intros [->|(q & -> & Hq)%list_elem_of_fmap]%elem_of_cons.
  - by exists p.
  - by apply prefix_cons, IH.
Qed.

Lemma with_ancestors_nonempty (p d : path) : d ∈ with_ancestors p → d ≠ [].
Proof.
  destruct p as [|c p]; simpl; [by intros ?%elem_of_nil|].
  by intros [->|(q & -> & Hq)%list_elem_of_fmap]%elem_of_cons.
Qed.

Lemma with_ancestors_below root (p d : path) :
  below root p → d ∈ with_ancestors p → below root d.
Proof.
  intros (rest & -> & Hplain) Hd.
  pose proof (with_ancestors_nonempty _ _ Hd) as Hne.
  apply with_ancestors_prefix in Hd as [k Hk].
  destruct d as [|c d]; [done|]. injection Hk as <- ->.
  exists d. split; [done|]. by apply Forall_app in Hplain as [? _].
Qed.

Lemma keeps_mkdir_parents root refuses (p : path) :
  below root p → keeps (grows_below root) (mkdir_parents refuses p).
Proof.
  intros Hp st. destruct (mkdir_parents_outcome refuses p st) as [-> | ->];
    [|apply grows_below_refl].
  unfold grows_below. simpl. split_and!; try done.
  - apply union_subseteq_r.
  - intros d [Hin%elem_of_list_to_set|?]%elem_of_union; [|by left].
    right. by apply (with_ancestors_below root p).
Qed.

Lemma keeps_write_bytes root refuses (dir : path) name data :
  below root dir → component name →
  keeps (grows_below root) (write_bytes refuses (dir ++ [name]) data).
Proof.
  intros (rest & -> & Hplain) Hc st.
  destruct (write_bytes_outcome refuses ((root :: rest) ++ [name]) data st)
    as [[-> Hup] | ->]; [|apply grows_below_refl].
  assert (name ≠ "..") as Hname.
  { intros ->. apply Hup. apply last_snoc. }
  unfold grows_below. simpl. split_and!; try done.
  - by left.
  - intros q Hq. destruct (decide (q = root :: rest ++ [name])) as [->|Hne].
    + by rewrite lookup_insert_eq.
    + by rewrite lookup_insert_ne.
  - intros q Hq. rewrite lookup_insert_ne; [done|]. intros <-. apply Hq. split.
    + exists (rest ++ [name]). split; [done|]. apply Forall_app. split; [done|].
      constructor; [by apply component_plain|constructor].
    + by destruct rest.
Qed.

Lemma keeps_try_except {A} root (body : M A) (handler : exn → option (M A)) :
  keeps (grows_below root) body →
  (∀ e h, handler e = Some h → keeps (grows_below root) h) →
  keeps (grows_below root) (try_except body handler).
Proof.
  intros Hbody Hh st. unfold try_except. specialize (Hbody st).
  destruct (body st) as [[a|e|] st1]; simpl in *; [done| |done].
  destruct (handler e) as [h|] eqn:He; [|done].
  eapply grows_below_trans; [done|]. by apply (Hh e h).
Qed.

Lemma keeps_download_image root w url (dir : path) name :
  below root dir → component name →
  keeps (grows_below root) (Gbif.download_image w url (dir ++ [name])).
Proof.
  intros Hdir Hc. unfold Gbif.download_image. rewrite parent_snoc.
  apply keeps_bind; [by apply keeps_mkdir_parents|]. intros _.
  apply keeps_bind; [apply keeps_lift|]. intros data. by apply keeps_write_bytes.
Qed.

Lemma keeps_save_loop root w target_dir urls :
  below root target_dir →
  ∀ index used_names,
    keeps (grows_below root) (Gbif.save_loop w target_dir index urls used_names).
Proof.
  intros Hdir. induction urls as [|url rest IH]; intros index used_names.
  - apply keeps_mret.
  - cbn [Gbif.save_loop]. apply keeps_bind_lift.
    intros filename [Hc _]%gbif_choose_filename_component. cbv zeta.
    rewrite (component_joinpath _ _ Hc).
    apply keeps_bind.
    + apply keeps_try_except.
      * apply keeps_bind; [|intros _; apply keeps_mret].
        by apply keeps_download_image.
      * intros [] h [= <-]; (apply keeps_bind; [apply keeps_print|]);
          intros _; apply keeps_mret.
    + intros saved. apply keeps_bind; [|intros _; apply IH].
      destruct saved; [apply keeps_print|apply keeps_mret].
Qed.

(** The directory of a species is the output root or an entry of it. *)
Lemma below_joinpath_slug root name :
  below root (joinpath [root] (Gbif.slugify name)).
Proof.
  unfold joinpath.
  destruct (truthy (Gbif.slugify name) && _) eqn:Hjoin; [|apply below_root].
  exists [Gbif.slugify name]. split; [done|].
  constructor; [|constructor]. apply slug_plain. intros Heq.
  by rewrite Heq in Hjoin.
Qed.

Lemma keeps_save_images_for_species fuel w species :
  keeps (grows_below "gbif_images") (Gbif.save_images_for_species fuel w species).
Proof.
  unfold Gbif.save_images_for_species.
  apply keeps_bind; [apply keeps_print|]. intros _.
  apply keeps_bind; [apply keeps_lift|]. intros [match_|].
  2:{ apply keeps_bind; [apply keeps_print|]. intros _. apply keeps_mret. }
  apply keeps_bind; [apply keeps_print|]. intros _.
  apply keeps_bind; [apply keeps_lift|]. intros [|url rest].
  { apply keeps_bind; [apply keeps_print|]. intros _. apply keeps_mret. }
  apply keeps_bind; [apply keeps_save_loop, below_joinpath_slug|]. intros _.
  apply keeps_bind; [|intros _; apply keeps_mret].
  destruct (_ <? _)%Z; [apply keeps_print|apply keeps_mret].
Qed.

Lemma keeps_main_loop fuel w species_names : ∀ failures,
  keeps (grows_below "gbif_images") (Gbif.main_loop fuel w species_names failures).
Proof.
  induction species_names as [|species rest IH]; intros failures.
  - apply keeps_mret.
  - cbn [Gbif.main_loop].
    apply keeps_bind; [apply keeps_save_images_for_species|]. intros success. apply IH.
Qed.

Lemma main_on_confined species_names fuel w st :
  grows_below "gbif_images" st (Gbif.main_on species_names fuel w st).2
  ∧ (["gbif_images"] ∈ dirs (Gbif.main_on species_names fuel w st).2
     ∨ Gbif.main_on species_names fuel w st = (Raise OSError, st)).
Proof.
  assert (keeps (grows_below "gbif_images")
            (failures ← Gbif.main_loop fuel w species_names [];
             match failures with
             | _ :: _ => print (CouldNotBeResolved failures);; mret 1%Z
             | [] => print Done;; mret 0%Z
             end)) as Hrest.
  { apply keeps_bind; [apply keeps_main_loop|].
    intros [|species failures]; (apply keeps_bind; [apply keeps_print|]);
      intros _; apply keeps_mret. }
  split.
  - apply keeps_bind; [apply keeps_mkdir|]. by intros _.
  - destruct (mkdir_outcome (Gbif.os_refuses w) Gbif.OUTPUT_ROOT st) as [Hmade | Hnot].
    2:{ right. unfold Gbif.main_on, mbind at 1, M_bind at 1. by rewrite Hnot. }
    left. unfold Gbif.main_on, mbind at 1, M_bind at 1. rewrite Hmade.
    pose proof (Hrest (State ({[Gbif.OUTPUT_ROOT]} ∪ dirs st) (files st) (console st)))
      as (Hd & _).
    apply Hd. simpl. apply elem_of_union. left. by apply elem_of_singleton.
Qed.

(** A run of [main] only adds to what is there: it removes no
    directory and no file, makes no directory but [gbif_images] and
    directories inside it, changes no file but files inside it, and
    only appends to the console.  This holds for every outcome, an
    exception included.  Unless its first call, the [mkdir] of the
    output root, raises, that directory exists afterwards. *)
Theorem main_changes_only_the_output_root
        (fuel : nat) (w : Gbif.World) (st : state) :
  grows_below "gbif_images" st (Gbif.main fuel w st).2
  ∧ (["gbif_images"] ∈ dirs (Gbif.main fuel w st).2
     ∨ Gbif.main fuel w st = (Raise OSError, st)).
Proof. rewrite main_unfold. apply main_on_confined. Qed.


(** A species that does not resolve, or for which no image is listed,
    leaves the disk as it is, its own directory not created; the
    first counts as a failure, the second as a success. *)
Theorem species_without_images_leaves_disk
        (fuel : nat) (w : Gbif.World) (species : string) (st : state) :
  (Gbif.match_species w species = Ret None →
   Gbif.save_images_for_species fuel w species st
   = (Ret false,
      State (dirs st) (files st)
            (console st ++ [Processing species; UnableToResolve species])))
  ∧ (∀ m, Gbif.match_species w species = Ret (Some m) →
          Gbif.fetch_media_urls fuel w (Gbif.key m) 25 = Ret [] →
          Gbif.save_images_for_species fuel w species st
          = (Ret true,
             State (dirs st) (files st)
                   (console st ++ [Processing species;
                                   ResolvedTo (Gbif.scientific_name m);
                                   NoImagesFound]))).
Proof.
  split.
  - intros Hnone. unfold Gbif.save_images_for_species, mbind, M_bind, print, lift.
    rewrite Hnone. simpl. by rewrite <- !app_assoc.
  - intros m Hsome Hempty.
    unfold Gbif.save_images_for_species, mbind, M_bind, print, lift.
    rewrite Hsome. simpl. unfold Gbif.IMAGES_PER_SPECIES. rewrite Hempty. simpl.
    by rewrite <- !app_assoc.
Qed.

Lemma species_without_images_leaves_disk_witness :
  Gbif.save_images_for_species 1 (sample_world_without "Amanita muscaria")
                               "Amanita muscaria" initial_state
  = (Ret false,
     State ∅ ∅ [Processing "Amanita muscaria"; UnableToResolve "Amanita muscaria"]).
Proof.
  apply (species_without_images_leaves_disk
           1 (sample_world_without "Amanita muscaria") "Amanita muscaria" initial_state).
  reflexivity.
Defined.

(** ** The summary of a run *)

Lemma save_images_for_species_answered fuel w species st success st' :
  Gbif.save_images_for_species fuel w species st = (Ret success, st') →
  gbif_unresolved w species = negb success
  ∧ ∃ found, Gbif.match_species w species = Ret found.
Proof.
  intros [[-> Hres]|[-> Hunres]]%save_images_for_species_result.
  - rewrite (gbif_resolves_not_unresolved _ _ Hres). split; [done|].
    unfold gbif_resolves in Hres.
    destruct (Gbif.match_species w species) as [[m|]| |]; try done. by eexists.
  - split; [done|]. unfold gbif_unresolved in Hunres.
    destruct (Gbif.match_species w species) as [[m|]| |]; try done. by eexists.
Qed.

Lemma main_loop_failures fuel w species_names : ∀ failures st found st',
  Gbif.main_loop fuel w species_names failures st = (Ret found, st') →
  found = failures ++ List.filter (gbif_unresolved w) species_names
  ∧ Forall (λ species, ∃ r, Gbif.match_species w species = Ret r) species_names.
Proof.
  induction species_names as [|species rest IH]; intros failures st found st'.
  - intros [= -> _]. by rewrite app_nil_r.
  - cbn [Gbif.main_loop].
    intros (success & st1 & Hone & Hrest)%bind_ret_inv.
    apply IH in Hrest as [-> Hall].
    apply save_images_for_species_answered in Hone as [Hun Hans]. simpl. rewrite Hun.
    split; [|by constructor]. destruct success; simpl; [done|].
    by rewrite <- app_assoc.
Qed.

Lemma main_on_summary species_names fuel w st status st' :
  Gbif.main_on species_names fuel w st = (Ret status, st') →
  match List.filter (gbif_unresolved w) species_names with
  | [] => status = 0%Z ∧ last (console st') = Some Done
  | failures =>
      status = 1%Z ∧ last (console st') = Some (CouldNotBeResolved failures)
  end
  ∧ Forall (λ species, ∃ r, Gbif.match_species w species = Ret r) species_names.
Proof.
  unfold Gbif.main_on.
  intros (_ & st1 & _ & H)%bind_ret_inv.
  apply bind_ret_inv in H as (failures & st2 & Hloop & H).
  apply main_loop_failures in Hloop as [-> Hall]. simpl in H. split; [|done].
  destruct (List.filter _ _) as [|species failures];
    apply bind_ret_inv in H as (u & st3 & Hprint & Hret);
    unfold print in Hprint; injection Hprint as _ <-;
    injection Hret as <- <-; cbn [console]; by rewrite last_snoc.
Qed.

(** When [main] returns, the last line it printed is [Done], with
    status 0, if no species failed to resolve, and otherwise the list
    of the species that failed to resolve, in the order of the species
    list, with status 1. *)
Theorem main_reports_the_unresolved
        (fuel : nat) (w : Gbif.World) (st : state) (status : Z) :
  (Gbif.main fuel w st).1 = Ret status →
  match List.filter (gbif_unresolved w) Gbif.SPECIES_NAMES with
  | [] => status = 0%Z ∧ last (console (Gbif.main fuel w st).2) = Some Done
  | failures =>
      status = 1%Z
      ∧ last (console (Gbif.main fuel w st).2) = Some (CouldNotBeResolved failures)
  end.
Proof.
  rewrite main_unfold.
  destruct (Gbif.main_on Gbif.SPECIES_NAMES fuel w st) as [r st'] eqn:Hrun.
  cbn [fst snd]. intros ->.
  exact (proj1 (main_on_summary _ _ _ _ _ _ Hrun)).
Qed.

Lemma main_reports_the_unresolved_witness :
  match List.filter (gbif_unresolved (sample_world_without "Amanita muscaria"))
                    Gbif.SPECIES_NAMES with
  | [] => 1%Z = 0%Z
          ∧ last (console (Gbif.main 4 (sample_world_without "Amanita muscaria")
                                     initial_state).2) = Some Done
  | failures =>
      1%Z = 1%Z
      ∧ last (console (Gbif.main 4 (sample_world_without "Amanita muscaria")
                                 initial_state).2)
        = Some (CouldNotBeResolved failures)
  end.
Proof.
  apply (main_reports_the_unresolved 4 (sample_world_without "Amanita muscaria")
                                     initial_state 1%Z).
  vm_compute. reflexivity.
Defined.

(** [main] catches no exception of a lookup: when the resolution of
    any species of the list raises one, [main] returns no status. *)
Theorem main_does_not_survive_a_failed_lookup
        (fuel : nat) (w : Gbif.World) (st : state) (species : string) (e : exn) :
  species ∈ Gbif.SPECIES_NAMES →
  Gbif.match_species w species = Raise e →
  ∀ status, (Gbif.main fuel w st).1 ≠ Ret status.
Proof.
  intros Hin Hraise status. rewrite main_unfold.
  destruct (Gbif.main_on Gbif.SPECIES_NAMES fuel w st) as [r st'] eqn:Hrun.
  cbn [fst]. intros ->.
  apply main_on_summary in Hrun as [_ Hall].
  rewrite Forall_forall in Hall. destruct (Hall species Hin) as [r Hr]. congruence.
Qed.

Lemma main_does_not_survive_a_failed_lookup_witness :
  (Gbif.main 4 gbif_echo_world initial_state).1 ≠ Ret 0%Z.
Proof.
  apply (main_does_not_survive_a_failed_lookup
           4 gbif_echo_world initial_state "Amanita muscaria" URLError).
  - apply list_elem_of_In. do 4 right. left. reflexivity.
  - reflexivity.
Defined.

(** ** What a run of the checklist script changes *)

Lemma keeps_checklist_download_image root w url (dir : path) name :
  below root dir → component name →
  keeps (grows_below root) (Checklist.download_image w url (dir ++ [name])).
Proof.
  intros Hdir Hc. unfold Checklist.download_image. rewrite parent_snoc.
  apply keeps_bind; [by apply keeps_mkdir_parents|]. intros _.
  apply keeps_bind; [apply keeps_lift|]. intros data. by apply keeps_write_bytes.
Qed.

Lemma keeps_checklist_save_loop root w target_dir images :
  below root target_dir →
  ∀ index existing_names,
    keeps (grows_below root)
          (Checklist.save_loop w target_dir index images existing_names).
Proof.
  intros Hdir. induction images as [|image rest IH]; intros index existing_names.
  - apply keeps_mret.
  - cbn [Checklist.save_loop]. destruct (Checklist.uri image) as [url|]; [|apply IH].
    destruct (truthy url); cbn [negb]; [|apply IH].
    apply keeps_bind_lift.
    intros filename [Hc _]%checklist_choose_filename_component. cbv zeta.
    rewrite (component_joinpath _ _ Hc).
    apply keeps_bind.
    + apply keeps_try_except.
      * apply keeps_bind; [|intros _; apply keeps_mret].
        by apply keeps_checklist_download_image.
      * intros [] h [= <-]; (apply keeps_bind; [apply keeps_print|]);
          intros _; apply keeps_mret.
    + intros saved. apply keeps_bind; [|intros _; apply IH].
      destruct saved; [apply keeps_print|apply keeps_mret].
Qed.

Lemma keeps_checklist_main_loop w species_names : ∀ failures,
  keeps (grows_below "species_images") (Checklist.main_loop w species_names failures).
Proof.
  induction species_names as [|species rest IH]; intros failures.
  - apply keeps_mret.
  - cbn [Checklist.main_loop].
    apply keeps_bind; [apply keeps_print|]. intros _.
    apply keeps_bind; [apply keeps_lift|]. intros [taxon|].
    2:{ apply keeps_bind; [apply keeps_print|]. intros _. apply IH. }
    apply keeps_bind; [apply keeps_print|]. intros _.
    apply keeps_bind; [apply keeps_lift|]. intros [|image others].
    + apply keeps_bind; [apply keeps_print|]. intros _. apply IH.
    + apply keeps_bind; [|intros _; apply IH].
      apply keeps_checklist_save_loop.
      change (Checklist.slugify (Checklist.full_name taxon))
        with (Gbif.slugify (Checklist.full_name taxon)).
      apply below_joinpath_slug.
Qed.

Lemma checklist_main_on_confined species_names w st :
  grows_below "species_images" st (Checklist.main_on species_names w st).2
  ∧ (["species_images"] ∈ dirs (Checklist.main_on species_names w st).2
     ∨ Checklist.main_on species_names w st = (Raise OSError, st)).
Proof.
  assert (keeps (grows_below "species_images")
            (failures ← Checklist.main_loop w species_names [];
             match failures with
             | _ :: _ => print (CouldNotBeResolved failures);; mret 1%Z
             | [] => print Done;; mret 0%Z
             end)) as Hrest.
  { apply keeps_bind; [apply keeps_checklist_main_loop|].
    intros [|species failures]; (apply keeps_bind; [apply keeps_print|]);
      intros _; apply keeps_mret. }
  split.
  - apply keeps_bind; [apply keeps_mkdir|]. by intros _.
  - destruct (mkdir_outcome (Checklist.os_refuses w) Checklist.OUTPUT_ROOT st)
      as [Hmade | Hnot].
    2:{ right. unfold Checklist.main_on, mbind at 1, M_bind at 1. by rewrite Hnot. }
    left. unfold Checklist.main_on, mbind at 1, M_bind at 1. rewrite Hmade.
    pose proof (Hrest (State ({[Checklist.OUTPUT_ROOT]} ∪ dirs st) (files st) (console st)))
      as (Hd & _).
    apply Hd. simpl. apply elem_of_union. left. by apply elem_of_singleton.
Qed.

(** A run of the checklist script only adds to what is there: it
    removes no directory and no file, makes no directory but
    [species_images] and directories inside it, changes no file but
    files inside it, and only appends to the console.  This holds for
    every outcome, an exception included.  Unless its first call, the
    [mkdir] of the output root, raises, that directory exists
    afterwards. *)
Theorem checklist_main_changes_only_the_output_root
        (w : Checklist.World) (st : state) :
  grows_below "species_images" st (Checklist.main w st).2
  ∧ (["species_images"] ∈ dirs (Checklist.main w st).2
     ∨ Checklist.main w st = (Raise OSError, st)).
Proof. rewrite checklist_main_unfold. apply checklist_main_on_confined. Qed.
